(** * Pump head calculator and pump matcher

    A shallow embedding of [stpcalculationbyreadingvalueexcelfile.py], the
    Streamlit script that computes the head a pump has to overcome and then
    looks up suitable pumps in a catalogue.

    The script's numbers are Python floats.  The arithmetic is embedded
    three times:

    - [Exact]: numbers are rationals and every operation is exact.  This is
      the reading in which the specification states its formulas (a flow rate
      of [125/108], strict monotonicity, ceilings).
    - [Binary64]: numbers are IEEE-754 binary64 values, as CPython computes
      them, with the exceptions that its float operations raise.
    - [Libm]: as [Binary64], with the [pow] of the C library, which
      [x ** 2] calls, as a parameter.  What is proved of it holds whatever
      that function is; with a [pow] that rounds correctly it is
      [Binary64].

    Exceptions are explicit: a computation yields [Ok v] or [Raise e]. *)

From Stdlib Require Import ZArith QArith Qround Qpower Lqa Lia List String Ascii Bool.
From Stdlib Require Import Floats.
From Stdlib Require Import SetoidList DecimalString.
Import ListNotations.

(** Decimal literals of floats stand for the nearest binary64 value, as they
    do in Python. *)
Set Warnings "-inexact-float".

(** ** Python outcomes *)

(** The exception classes that the modelled code can meet.  All of them are
    subclasses of [Exception]; [FileNotFoundError] is the only one that the
    script catches by name.  [LiteralError] stands for what
    [ast.literal_eval] raises on text that is not a literal ([SyntaxError] or
    [ValueError]); [OtherError] for any other failure of a file read. *)
Inductive exn : Set :=
| ZeroDivisionError
| OverflowError
| ValueError
| TypeError
| IndexError
| LiteralError
| FileNotFoundError
| OtherError.

Inductive result (A : Type) : Type :=
| Ok (a : A)
| Raise (e : exn).

Arguments Ok {A} a.
Arguments Raise {A} e.

Definition bind {A B : Type} (m : result A) (k : A -> result B) : result B :=
  match m with
  | Ok a => k a
  | Raise e => Raise e
  end.

Declare Scope py_scope.
Delimit Scope py_scope with py.
Notation "x <- m ;; k" := (bind m (fun x => k))
  (at level 61, m at next level, right associativity) : py_scope.

Definition returns {A : Type} (m : result A) : Prop := exists a, m = Ok a.

(** ** The calculator's result *)

(** [calculate_pump_head] returns a tuple of six values.  Its components are
    named after the variables that the [return] statement lists; the fourth
    one is a Python integer, the others are numbers of the type [N] that the
    arithmetic runs on. *)
Section Results.

Context {N : Type}.

Definition results : Type := (N * N * N * Z * N * N)%type.

Definition flow_rate_lps (r : results) : N :=
  let '(x, _, _, _, _, _) := r in x.
Definition flow_friction_loss (r : results) : N :=
  let '(_, x, _, _, _, _) := r in x.
Definition total_friction_loss (r : results) : N :=
  let '(_, _, x, _, _, _) := r in x.
Definition total_head (r : results) : Z :=
  let '(_, _, _, x, _, _) := r in x.
Definition pressure_head_meters (r : results) : N :=
  let '(_, _, _, _, x, _) := r in x.
Definition total_head_unrounded (r : results) : N :=
  let '(_, _, _, _, _, x) := r in x.

End Results.

Arguments results N : clear implicits.

(** ** The head calculator over exact arithmetic *)

Module Exact.

Local Open Scope Q_scope.
Local Open Scope py_scope.

(** [x / y]: true division raises [ZeroDivisionError] on a zero divisor. *)
Definition truediv (x y : Q) : result Q :=
  if Qeq_bool y 0 then Raise ZeroDivisionError else Ok (x / y).

(** [x ** n] for an integer exponent: only a zero base with a negative
    exponent raises. *)
Definition pow (x : Q) (n : Z) : result Q :=
  if (n <? 0)%Z && Qeq_bool x 0 then Raise ZeroDivisionError else Ok (x ^ n).

(** [math.ceil] returns a Python integer. *)
Definition ceil (x : Q) : Z := Qceiling x.

Definition calculate_pump_head
    (vertical_height horizontal_distance bends_fittings_loss
     pressure_head_kgcm2 stp_capacity : Q)
    : result (results Q) :=
  (* 1. Pressure head in meters *)
  let pressure_head_meters := pressure_head_kgcm2 * 10 in
  (* 2. Flow rate from STP capacity (KLD to LPS) *)
  flow_rate_lps <- truediv (stp_capacity * 1000) (24 * 60 * 60) ;;
  (* 3. Friction loss due to flow rate *)
  flow_rate_squared <- pow flow_rate_lps 2 ;;
  let flow_friction_loss := 0.1 * flow_rate_squared in
  (* 4. Static friction loss based on pipe length *)
  let static_friction_loss :=
    (vertical_height + horizontal_distance) * 0.083 * 0.8 in
  (* 5. Total friction loss *)
  let total_friction_loss := static_friction_loss + flow_friction_loss in
  (* 6. Total head *)
  let total_head_unrounded :=
    vertical_height + total_friction_loss + bends_fittings_loss
    + pressure_head_meters in
  let total_head := ceil total_head_unrounded in
  Ok (flow_rate_lps, flow_friction_loss, total_friction_loss, total_head,
      pressure_head_meters, total_head_unrounded).

End Exact.

(** ** The head calculator over binary64 *)

Module Binary64.

Local Open Scope float_scope.
Local Open Scope py_scope.

(** A float that is neither an infinity nor a NaN. *)
Definition finite (x : float) : bool :=
  match Prim2SF x with
  | S754_zero _ | S754_finite _ _ _ => true
  | S754_infinity _ | S754_nan => false
  end.

(** The rational that a finite float denotes: [(-1)^s * m * 2^e]. *)
Definition to_Q (x : float) : Q :=
  match Prim2SF x with
  | S754_finite s m e => (inject_Z (cond_Zopp s (Zpos m)) * 2 ^ e)%Q
  | _ => 0%Q
  end.

(** [x / y] on floats: [float_div] raises on a zero divisor (of either sign)
    and otherwise rounds the quotient; it never raises on overflow. *)
Definition truediv (x y : float) : result float :=
  if y =? 0 then Raise ZeroDivisionError else Ok (x / y).

(** [x ** 2] on floats, after [float_pow] with the exponent [2.0]: a NaN is
    returned as it is, an infinity gives [+inf], and any other base goes to
    the C library's [pow], whose overflow is turned into [OverflowError]
    (an underflow to zero is not an error).  [pow (x, 2.0)] is taken to be
    the correctly rounded square. *)
Definition pow_2 (x : float) : result float :=
  match Prim2SF x with
  | S754_nan => Ok x
  | S754_infinity _ => Ok infinity
  | _ =>
      let ix := x * x in
      match Prim2SF ix with
      | S754_infinity _ => Raise OverflowError
      | _ => Ok ix
      end
  end.

(** [math.ceil] on a float: the least integer not below it, as a Python
    integer; an infinity raises [OverflowError], a NaN [ValueError]. *)
Definition ceil (x : float) : result Z :=
  match Prim2SF x with
  | S754_zero _ => Ok 0%Z
  | S754_finite s m e => Ok (- Z.shiftl (- cond_Zopp s (Zpos m)) e)%Z
  | S754_infinity _ => Raise OverflowError
  | S754_nan => Raise ValueError
  end.

Definition calculate_pump_head
    (vertical_height horizontal_distance bends_fittings_loss
     pressure_head_kgcm2 stp_capacity : float)
    : result (results float) :=
  (* 1. Pressure head in meters *)
  let pressure_head_meters := pressure_head_kgcm2 * 10 in
  (* 2. Flow rate from STP capacity (KLD to LPS) *)
  flow_rate_lps <- truediv (stp_capacity * 1000) (24 * 60 * 60) ;;
  (* 3. Friction loss due to flow rate *)
  flow_rate_squared <- pow_2 flow_rate_lps ;;
  let flow_friction_loss := 0.1 * flow_rate_squared in
  (* 4. Static friction loss based on pipe length *)
  let static_friction_loss :=
    (vertical_height + horizontal_distance) * 0.083 * 0.8 in
  (* 5. Total friction loss *)
  let total_friction_loss := static_friction_loss + flow_friction_loss in
  (* 6. Total head *)
  let total_head_unrounded :=
    vertical_height + total_friction_loss + bends_fittings_loss
    + pressure_head_meters in
  total_head <- ceil total_head_unrounded ;;
  Ok (flow_rate_lps, flow_friction_loss, total_friction_loss, total_head,
      pressure_head_meters, total_head_unrounded).

End Binary64.

(** ** Catalogue cells and Python literals *)

Local Open Scope string_scope.
Local Open Scope py_scope.

(** A cell of a data frame column as the script sees it: a number, the
    missing-value marker, or a string. *)
Inductive cell : Type :=
| Num (q : Q)
| NaN
| Str (s : string).

Definition is_space (c : ascii) : bool :=
  (c =? " ")%char || (c =? "009")%char.

Fixpoint lstrip (cs : list ascii) : list ascii :=
  match cs with
  | c :: cs' => if is_space c then lstrip cs' else cs
  | [] => []
  end.

Definition strip (cs : list ascii) : list ascii :=
  rev (lstrip (rev (lstrip cs))).

Definition digit (c : ascii) : option Z :=
  let n := N_of_ascii c in
  if (48 <=? n)%N && (n <=? 57)%N then Some (Z.of_N (n - 48)) else None.

(** Reads a run of decimal digits: its value, its length and what follows. *)
Fixpoint read_digits (cs : list ascii) (acc : Z) (n : nat)
    : Z * nat * list ascii :=
  match cs with
  | c :: cs' =>
      match digit c with
      | Some d => read_digits cs' (10 * acc + d) (S n)
      | None => (acc, n, cs)
      end
  | [] => (acc, n, [])
  end.

(** An unsigned decimal numeral: digits, then optionally a point and more
    digits. *)
Definition unsigned_numeral (cs : list ascii) : option Q :=
  let '(i, ni, rest) := read_digits cs 0 0 in
  match ni, rest with
  | O, _ => None
  | _, [] => Some (inject_Z i)
  | _, c :: frac =>
      if (c =? ".")%char then
        let '(f, nf, rest') := read_digits frac 0 0 in
        match rest' with
        | [] => Some (inject_Z i + Qmake f (Z.to_pos (10 ^ Z.of_nat nf)))%Q
        | _ => None
        end
      else None
  end.

Definition numeral (cs : list ascii) : option Q :=
  match cs with
  | c :: cs' =>
      if (c =? "-")%char then option_map Qopp (unsigned_numeral cs')
      else if (c =? "+")%char then unsigned_numeral cs'
      else unsigned_numeral cs
  | [] => None
  end.

Fixpoint split_commas (cs cur : list ascii) : list (list ascii) :=
  match cs with
  | [] => [rev cur]
  | c :: cs' =>
      if (c =? ",")%char then rev cur :: split_commas cs' []
      else split_commas cs' (c :: cur)
  end.

(** The elements between the brackets; an empty last piece is the empty
    display or what follows a trailing comma. *)
Fixpoint elements (pieces : list (list ascii)) : result (list Q) :=
  match pieces with
  | [] => Ok []
  | [[]] => Ok []
  | p :: ps =>
      match numeral p with
      | Some q => qs <- elements ps ;; Ok (q :: qs)
      | None => Raise LiteralError
      end
  end.

(** [ast.literal_eval] on the literals a catalogue holds: a bracketed,
    comma-separated display of decimal numerals, with blanks allowed around
    every token.  Any other text is reported as [LiteralError]; the further
    literal forms that Python accepts (strings, nested displays, exponents)
    are outside this model. *)
Definition literal_eval (s : string) : result (list Q) :=
  match strip (list_ascii_of_string s) with
  | c :: body =>
      if (c =? "[")%char then
        match rev body with
        | d :: ydob =>
            if (d =? "]")%char
            then elements (map strip (split_commas (rev ydob) []))
            else Raise LiteralError
        | [] => Raise LiteralError
        end
      else Raise LiteralError
  | [] => Raise LiteralError
  end.

(** [l[0]] *)
Definition first_item {A : Type} (l : list A) : result A :=
  match l with
  | x :: _ => Ok x
  | [] => Raise IndexError
  end.

Definition startswith (s p : string) : bool := prefix p s.

(** ** The catalogue loader *)

(** A row of [pumps.csv] as [pd.read_csv] delivers it. *)
Record csv_row : Type := {
  csv_Model : cell;
  csv_Manufacturer : cell;
  csv_HP : cell;
  csv_Head_m : cell;
  csv_Suitability : cell
}.

(** A row of the loaded catalogue: the columns read, and ['Min Head m']. *)
Record pump : Type := {
  Model : cell;
  Manufacturer : cell;
  HP : cell;
  Head_m : cell;
  Suitability : cell;
  Min_Head_m : cell
}.

Definition DataFrame : Type := list pump.

(** [df.empty] *)
Definition empty {A : Type} (df : list A) : bool :=
  match df with
  | [] => true
  | _ :: _ => false
  end.

(** What [pd.read_csv ('pumps.csv')] meets on disk.  [Unreadable] covers every
    failure inside the [try] block other than a missing file (a file that
    does not parse, a table without the ['Head m'] column): they all reach
    the same handler. *)
Inductive csv_file : Type :=
| Absent
| Unreadable
| Table (rows : list csv_row).

Definition read_csv (f : csv_file) : result (list csv_row) :=
  match f with
  | Absent => Raise FileNotFoundError
  | Unreadable => Raise OtherError
  | Table rows => Ok rows
  end.

(** [lambda x: ast.literal_eval (x)[0]
             if isinstance (x, str) and x.startswith ('[') else x] *)
Definition min_head (x : cell) : result cell :=
  match x with
  | Str s =>
      if startswith s "["
      then l <- literal_eval s ;; v <- first_item l ;; Ok (Num v)
      else Ok x
  | _ => Ok x
  end.

(** [df['Min Head m'] = df['Head m'].apply (...)], row after row; the first
    exception ends the whole assignment. *)
Fixpoint add_min_head (rows : list csv_row) : result DataFrame :=
  match rows with
  | [] => Ok []
  | r :: rows' =>
      m <- min_head (csv_Head_m r) ;;
      df <- add_min_head rows' ;;
      Ok ({| Model := csv_Model r; Manufacturer := csv_Manufacturer r;
             HP := csv_HP r; Head_m := csv_Head_m r;
             Suitability := csv_Suitability r; Min_Head_m := m |} :: df)
  end.

(** What the script writes to the page.  [calculate_pump_head_called] is not
    a page element: it marks the call of the calculator with its arguments.
    [uncaught] is an exception that no handler of the script catches, which
    ends the run. *)
Inductive event : Type :=
| st_error (msg : string)
| st_warning (msg : string)
| st_success (total_head : Z)
| st_dataframe (rows : list csv_row)
| st_stop
| calculate_pump_head_called (vertical_height horizontal_distance
    bends_fittings_loss pressure_head_kgcm2 stp_capacity : Q)
| breakdown (r : results Q)
| uncaught (e : exn).

(** The text of an exception, of which only the class is modelled. *)
Definition str (e : exn) : string :=
  match e with
  | ZeroDivisionError => "ZeroDivisionError"
  | OverflowError => "OverflowError"
  | ValueError => "ValueError"
  | TypeError => "TypeError"
  | IndexError => "IndexError"
  | LiteralError => "LiteralError"
  | FileNotFoundError => "FileNotFoundError"
  | OtherError => "OtherError"
  end.

(** The two messages about the catalogue. *)
Definition not_found : event :=
  st_error "Error: pumps.csv not found. Please make sure 'pumps.csv' is in the same directory.".

Definition not_loaded : event :=
  st_error "Pump data not loaded. Please check 'pumps.csv'.".

(** [load_pump_data]: both handlers end in [return pd.DataFrame ()], so the
    function yields a data frame on every path, together with what it wrote
    to the page.  The memoisation by [st.cache_data] is not modelled. *)
Definition load_pump_data (f : csv_file) : result DataFrame * list event :=
  match (df <- read_csv f ;; add_min_head df) with
  | Ok df => (Ok df, [])
  | Raise FileNotFoundError => (Ok [], [not_found])
  | Raise e => (Ok [], [st_error ("Error loading pump data: " ++ str e)])
  end.

(** ** The pump matcher *)

(** [x >= total_head] for one cell of the ['Min Head m'] column: a missing
    value compares false, a string against an integer raises. *)
Definition ge (x : cell) (total_head : Z) : result bool :=
  match x with
  | Num q => Ok (Qle_bool (inject_Z total_head) q)
  | NaN => Ok false
  | Str _ => Raise TypeError
  end.

(** [pump_data['Min Head m'] >= total_head]: the boolean column. *)
Fixpoint mask (df : DataFrame) (total_head : Z) : result (list bool) :=
  match df with
  | [] => Ok []
  | r :: df' =>
      b <- ge (Min_Head_m r) total_head ;;
      bs <- mask df' total_head ;;
      Ok (b :: bs)
  end.

(** [df[mask]]: the rows whose mask entry is true, in the frame's order. *)
Fixpoint select (df : DataFrame) (bs : list bool) : DataFrame :=
  match df, bs with
  | r :: df', b :: bs' => if b then r :: select df' bs' else select df' bs'
  | _, _ => []
  end.

(** [pump_data[pump_data['Min Head m'] >= total_head].copy ()] *)
Definition suitable_pumps (pump_data : DataFrame) (total_head : Z)
    : result DataFrame :=
  bs <- mask pump_data total_head ;;
  Ok (select pump_data bs).

(** [suitable_pumps[['Model', 'Manufacturer', 'HP', 'Head m', 'Suitability']]] *)
Definition recommended_display (df : DataFrame) : list csv_row :=
  map (fun r => {| csv_Model := Model r; csv_Manufacturer := Manufacturer r;
                   csv_HP := HP r; csv_Head_m := Head_m r;
                   csv_Suitability := Suitability r |}) df.

(** ** The script *)

(** What [pd.read_excel ("stp_output_summary.xlsx")] meets on disk, reduced
    to the ["STP Capacity (KLD)"] column of the sheet: its cells are numbers
    or blank.  [Corrupt] covers every failure inside the [try] block other
    than a missing file (a sheet without that column among them). *)
Inductive xlsx_file : Type :=
| Missing
| Corrupt
| Sheet (STP_Capacity_KLD : list (option Q)).

Definition read_excel (f : xlsx_file) : result (list (option Q)) :=
  match f with
  | Missing => Raise FileNotFoundError
  | Corrupt => Raise OtherError
  | Sheet column => Ok column
  end.

Fixpoint dropna (column : list (option Q)) : list Q :=
  match column with
  | [] => []
  | Some q :: column' => q :: dropna column'
  | None :: column' => dropna column'
  end.

(** [Series.unique]: the distinct values, each at its first occurrence. *)
Fixpoint unique (l : list Q) : list Q :=
  match l with
  | [] => []
  | x :: l' => x :: filter (fun y => negb (Qeq_bool x y)) (unique l')
  end.

(** [st.selectbox (label, options)]: the option at the index that the widget
    holds (0 until the user picks another one), [None] when there is no
    option at all. *)
Definition selectbox (options : list Q) (index : nat) : option Q :=
  nth_error options index.

(** [float (x)]; [float (None)] raises [TypeError]. *)
Definition float_of (x : option Q) : result Q :=
  match x with
  | Some q => Ok q
  | None => Raise TypeError
  end.

(** The state a run of the script starts from: the two files and the values
    that the widgets hold.  The four [st.number_input] fields carry
    [min_value=0.0]. *)
Record world : Type := {
  pumps_csv : csv_file;
  stp_output_summary_xlsx : xlsx_file;
  vertical_height : Q;
  horizontal_distance : Q;
  bends_fittings_loss : Q;
  pressure_head_kgcm2 : Q;
  selected_index : nat;
  button : bool
}.

(** The body of the [try] block that reads the capacity. *)
Definition stp_capacity (w : world) : result Q :=
  stp_df <- read_excel (stp_output_summary_xlsx w) ;;
  let stp_options := unique (dropna stp_df) in
  let selected_capacity := selectbox stp_options (selected_index w) in
  float_of selected_capacity.

(** The body of [if st.button (...)]. *)
Definition on_click (pump_data : DataFrame) (w : world) (stp_capacity : Q)
    : list event :=
  if empty pump_data then [not_loaded]
  else
    calculate_pump_head_called (vertical_height w) (horizontal_distance w)
      (bends_fittings_loss w) (pressure_head_kgcm2 w) stp_capacity ::
    match Exact.calculate_pump_head (vertical_height w) (horizontal_distance w)
            (bends_fittings_loss w) (pressure_head_kgcm2 w) stp_capacity with
    | Raise e => [uncaught e]
    | Ok (flow_rate_lps, flow_friction_loss, total_friction_loss, total_head,
          pressure_head_meters, total_head_unrounded) =>
        st_success total_head ::
        match suitable_pumps pump_data total_head with
        | Raise e => [uncaught e]
        | Ok suitable =>
            (if empty suitable
             then [st_warning "⚠️ No suitable pumps found for the calculated total head."]
             else [st_dataframe (recommended_display suitable)])
            ++ [breakdown (flow_rate_lps, flow_friction_loss,
                           total_friction_loss, total_head,
                           pressure_head_meters, total_head_unrounded)]
        end
    end.

(** One run of the script, top to bottom. *)
Definition script (w : world) : list event :=
  let '(loaded, page) := load_pump_data (pumps_csv w) in
  match loaded with
  | Raise e => page ++ [uncaught e]
  | Ok pump_data =>
      page ++
      match stp_capacity w with
      | Raise FileNotFoundError =>
          [st_error "❌ 'stp_output_summary.xlsx' not found. Please generate the file first.";
           st_stop]
      | Raise e =>
          [st_error ("⚠️ Failed to load STP Capacity from Excel: " ++ str e);
           st_stop]
      | Ok capacity =>
          if button w then on_click pump_data w capacity else []
      end
  end.

(** ** The calculator and the handler as CPython runs them

    [x ** 2] on floats is [float_pow] with the exponent [2.0]: it settles
    the special bases itself and hands every other one to the [pow] of the C
    library.  The value of [pow (x, 2.0)] need not be the correctly rounded
    square, and is not on every platform; so the library's function is a
    parameter of the definitions below, of which nothing but its type is
    used. *)

Module Libm.

Local Open Scope float_scope.

Section Pow.

Variable pow : float -> float -> float.

(** [x ** 2], after [float_pow] with the exponent [2.0].  A NaN is returned
    as it is, an infinity gives [+inf] and a zero [0.0].  Of a negative
    base the opposite is taken, the exponent being an even integer; the
    base 1 gives [1.0].  Every other base goes to [pow]: a result that is
    an infinity is a range error and raises [OverflowError], a result that
    underflows to zero is returned. *)
Definition float_pow_2 (x : float) : result float :=
  match Prim2SF x with
  | S754_nan => Ok x
  | S754_infinity _ => Ok infinity
  | S754_zero _ => Ok 0
  | S754_finite _ _ _ =>
      let iv := if x <? 0 then - x else x in
      if iv =? 1 then Ok 1
      else
        let ix := pow iv 2 in
        match Prim2SF ix with
        | S754_infinity _ => Raise OverflowError
        | _ => Ok ix
        end
  end.

(** [calculate_pump_head], lines 24 to 44. *)
Definition calculate_pump_head
    (vertical_height horizontal_distance bends_fittings_loss
     pressure_head_kgcm2 stp_capacity : float)
    : result (results float) :=
  (* 1. Pressure head in meters *)
  let pressure_head_meters := pressure_head_kgcm2 * 10 in
  (* 2. Flow rate from STP capacity (KLD to LPS) *)
  flow_rate_lps <- Binary64.truediv (stp_capacity * 1000) (24 * 60 * 60) ;;
  (* 3. Friction loss due to flow rate *)
  flow_rate_squared <- float_pow_2 flow_rate_lps ;;
  let flow_friction_loss := 0.1 * flow_rate_squared in
  (* 4. Static friction loss based on pipe length *)
  let static_friction_loss :=
    (vertical_height + horizontal_distance) * 0.083 * 0.8 in
  (* 5. Total friction loss *)
  let total_friction_loss := static_friction_loss + flow_friction_loss in
  (* 6. Total head *)
  let total_head_unrounded :=
    vertical_height + total_friction_loss + bends_fittings_loss
    + pressure_head_meters in
  total_head <- Binary64.ceil total_head_unrounded ;;
  Ok (flow_rate_lps, flow_friction_loss, total_friction_loss, total_head,
      pressure_head_meters, total_head_unrounded).

(** The body of [if st.button (...)] down to the table, lines 81 to 103,
    with the values of the widgets as floats.  The breakdown that follows
    the table is not part of it. *)
Definition on_click (pump_data : DataFrame)
    (vertical_height horizontal_distance bends_fittings_loss
     pressure_head_kgcm2 stp_capacity : float)
    : list event :=
  if empty pump_data then [not_loaded]
  else
    match calculate_pump_head vertical_height horizontal_distance
            bends_fittings_loss pressure_head_kgcm2 stp_capacity with
    | Raise e => [uncaught e]
    | Ok r =>
        st_success (total_head r) ::
        match suitable_pumps pump_data (total_head r) with
        | Raise e => [uncaught e]
        | Ok suitable =>
            [ if empty suitable
              then st_warning "⚠️ No suitable pumps found for the calculated total head."
              else st_dataframe (recommended_display suitable) ]
        end
    end.

End Pow.

End Libm.

(** ** Rounding on binary64

    What the monotonicity of the rounded operations is stated with: the
    binary64 instances of the format's parameters, a quotient of integers as
    the operand of a rounding, and the value of a float as an integer, in
    units of the smallest positive float. *)

Local Open Scope Z_scope.

Abbreviation fexp64 := (SpecFloat.fexp prec emax).
Abbreviation emin64 := (-1074)%Z.
Abbreviation valid := (SpecFloat.valid_binary prec emax).

(** The record that stands for the quotient [n / d]: its integer part, and
    where the remainder lies with respect to one half. *)
Definition quotient_record (n d : Z) : shr_record :=
  shr_record_of_loc (n / d) (new_location d (n mod d)).

Definition nearest_even (n d : Z) : Z :=
  round_nearest_even (n / d) (new_location d (n mod d)).

Definition dropped_bits (A B : Z) : Z := Z.max 0 (Zdigits2 (A / B) - 53).

Definition overflow_level : Z := 2 ^ 2098.

Definition round_to_grid (A B : Z) : Z :=
  Z.min (nearest_even A (2 ^ dropped_bits A B * B) * 2 ^ dropped_bits A B) overflow_level.

(** The operand of a rounding: the quotient [n / d] scaled by [2 ^ e], in
    units of [2 ^ emin]. *)
Definition numer (n e : Z) : Z := n * 2 ^ Z.max 0 (e - emin64).
Definition denom (d e : Z) : Z := d * 2 ^ Z.max 0 (emin64 - e).

(** The magnitude of a float in units of [2 ^ emin]; an infinity has [overflow_level]. *)
Definition mag_val (f : spec_float) : Z :=
  match f with
  | S754_zero _ => 0
  | S754_finite _ m e => Zpos m * 2 ^ (e - emin64)
  | S754_infinity _ => overflow_level
  | S754_nan => 0
  end.

Definition sign_of (f : spec_float) : bool :=
  match f with
  | S754_zero s | S754_infinity s | S754_finite s _ _ => s
  | S754_nan => false
  end.

(** The signed value: the magnitude with the sign of the float. *)
Definition sval (f : spec_float) : Z :=
  if sign_of f then - mag_val f else mag_val f.

Definition not_nan (f : spec_float) : Prop := f <> S754_nan.

(** The rounding of a signed value, in units of [2 ^ emin]: the sign is kept
    and the magnitude goes to the grid. *)
Definition round_signed (S : Z) : Z :=
  if S <? 0 then - round_to_grid (- S) 1 else round_to_grid S 1.

(** A zero or a finite float. *)
Definition is_finite (f : spec_float) : bool :=
  match f with
  | S754_zero _ | S754_finite _ _ _ => true
  | S754_infinity _ | S754_nan => false
  end.

Local Close Scope Z_scope.

(** ** The bars of the breakdown *)

(** Text is held in UTF-8, as the literals of this file are: a character of
    a Python string is one byte or one lead byte with its continuation
    bytes. *)
Definition is_continuation (c : ascii) : bool :=
  let n := N_of_ascii c in (128 <=? n)%N && (n <? 192)%N.

(** [len (s)]: the number of characters. *)
Fixpoint len (s : string) : nat :=
  match s with
  | EmptyString => O
  | String c s' => if is_continuation c then len s' else S (len s')
  end.

Fixpoint copies (s : string) (n : nat) : string :=
  match n with
  | O => ""
  | S n' => s ++ copies s n'
  end.

(** [s * n]: no copy at all when [n] is not positive; a count that does not
    fit a machine index, of 64 bits, raises [OverflowError].  The allocation
    of the result is taken to succeed. *)
Definition str_mul (s : string) (n : Z) : result string :=
  if (n <? - 2 ^ 63)%Z || (2 ^ 63 - 1 <? n)%Z then Raise OverflowError
  else Ok (copies s (Z.to_nat n)).

(** [int (x)] on a float: the integer towards zero; an infinity raises
    [OverflowError], a NaN [ValueError]. *)
Definition int (x : float) : result Z :=
  match Prim2SF x with
  | S754_zero _ => Ok 0%Z
  | S754_finite s m e => Ok (cond_Zopp s (Z.shiftl (Zpos m) e))
  | S754_infinity _ => Raise OverflowError
  | S754_nan => Raise ValueError
  end.

(** [f"{s:<30}"] for a width: the text, then blanks up to the width. *)
Definition ljust (s : string) (width : nat) : string :=
  s ++ copies " " (width - len s).

Definition decimal (n : Z) : string :=
  NilZero.string_of_uint (N.to_uint (Z.to_N n)).

Definition digit_char (d : Z) : ascii := ascii_of_N (48 + Z.to_N d).

(** [f"{x:.2f}"]: the decimal numeral with two places that is nearest to the
    value of the float, ties going to the even last digit, with the sign of
    the float (of a negative zero too). *)
Definition format_2f (x : float) : string :=
  match Prim2SF x with
  | S754_nan => "nan"
  | S754_infinity s => if s then "-inf" else "inf"
  | S754_zero s => (if s then "-" else "") ++ "0.00"
  | S754_finite s m e =>
      let hundredths :=
        nearest_even (Zpos m * 100 * 2 ^ Z.max 0 e) (2 ^ Z.max 0 (- e)) in
      (if s then "-" else "")
      ++ decimal (hundredths / 100) ++ "."
      ++ String (digit_char (hundredths / 10 mod 10))
           (String (digit_char (hundredths mod 10)) "")
  end.

Definition draw_bar (label : string) (value : float) : result string :=
  half <- Binary64.truediv value 2 ;;
  n <- int half ;;
  bar <- str_mul "█" n ;;
  Ok (ljust label 30 ++ ": " ++ bar ++ " (" ++ format_2f value ++ " m)").

(** ** Vocabulary of the statements *)

(** A cell that compares with an integer: a number or a missing value. *)
Definition numeric (x : cell) : Prop :=
  match x with
  | Str _ => False
  | _ => True
  end.

(** [minHeadMeters >= totalHeadM], as a proposition and as a test. *)
Definition meets (total_head : Z) (r : pump) : Prop :=
  exists q, Min_Head_m r = Num q /\ (inject_Z total_head <= q)%Q.

Definition meets_b (total_head : Z) (r : pump) : bool :=
  match Min_Head_m r with
  | Num q => Qle_bool (inject_Z total_head) q
  | _ => false
  end.

(** [kept_in_order l1 l2]: [l1] is [l2] with some entries left out, the
    others standing in the order they have in [l2]. *)
Inductive kept_in_order {A : Type} : list A -> list A -> Prop :=
| kept_none : kept_in_order [] []
| kept_this (x : A) (l1 l2 : list A) :
    kept_in_order l1 l2 -> kept_in_order (x :: l1) (x :: l2)
| kept_later (x : A) (l1 l2 : list A) :
    kept_in_order l1 l2 -> kept_in_order l1 (x :: l2).


(** The run called the calculator. *)
Definition calls_calculator (page : list event) : Prop :=
  exists v h b p c, In (calculate_pump_head_called v h b p c) page.

(** [x] lies between the finite floats [lo] and [hi]. *)
Definition within (lo hi x : float) : Prop :=
  Binary64.finite lo = true /\ Binary64.finite hi = true
  /\ (lo <=? x)%float = true /\ (x <=? hi)%float = true.

(** [x ** 2] does not decrease on the floats that are not negative. *)
Definition square_is_monotone (pow : float -> float -> float) : Prop :=
  forall x y sx sy : float,
    (0 <=? x)%float = true -> (x <=? y)%float = true ->
    Libm.float_pow_2 pow x = Ok sx -> Libm.float_pow_2 pow y = Ok sy ->
    (sx <=? sy)%float = true.

(** A [pow] whose value at the exponent 2 is the correctly rounded square. *)
Definition correctly_rounded_pow (x y : float) : float := (x * x)%float.

(** ** Sample data *)

Definition sample_row (model head : string) : csv_row :=
  {| csv_Model := Str model; csv_Manufacturer := Str "Acme";
     csv_HP := Num 5; csv_Head_m := Str head; csv_Suitability := Str "STP" |}.

Definition sample_pump (model : string) (head : cell) (m : cell) : pump :=
  {| Model := Str model; Manufacturer := Str "Acme"; HP := Num 5;
     Head_m := head; Suitability := Str "STP"; Min_Head_m := m |}.

Definition sample_catalogue : DataFrame :=
  [ sample_pump "P-150" (Str "[150, 180]") (Num 150);
    sample_pump "P-040" (Num 40) (Num 40);
    sample_pump "P-118" (Str "[118, 130]") (Num 118);
    sample_pump "P-nan" NaN NaN ].

(** The widgets at their default values, the button pressed. *)
Definition sample_world (csv : csv_file) (xlsx : xlsx_file) : world :=
  {| pumps_csv := csv; stp_output_summary_xlsx := xlsx;
     vertical_height := 66; horizontal_distance := 109;
     bends_fittings_loss := 5; pressure_head_kgcm2 := 3.5;
     selected_index := 0; button := true |}.

(** * Properties *)

(** ** Ceilings *)

Section Ceilings.

Local Open Scope Q_scope.

Lemma ceiling_bounds (x : Q) :
  x <= inject_Z (Qceiling x) /\ inject_Z (Qceiling x) - x < 1.
Proof.
  split.
  - apply Qle_ceiling.
  - pose proof (Qceiling_lt x) as H.
    unfold Z.sub in H. rewrite inject_Z_plus, inject_Z_opp in H.
    change (inject_Z 1) with 1 in H.
    generalize dependent (inject_Z (Qceiling x)). intros c H. lra.
Qed.

(** Only one integer lies in the half-open unit interval above [x]. *)
Lemma ceiling_unique (x : Q) (n : Z) :
  x <= inject_Z n -> inject_Z n - x < 1 -> n = Qceiling x.
Proof.
  intros Hle Hlt.
  destruct (ceiling_bounds x) as [Cle Clt].
  assert (H1 : inject_Z n < inject_Z (Qceiling x) + inject_Z 1).
  { change (inject_Z 1) with 1.
    generalize dependent (inject_Z (Qceiling x)).
    generalize dependent (inject_Z n). intros; lra. }
  assert (H2 : inject_Z (Qceiling x) < inject_Z n + inject_Z 1).
  { change (inject_Z 1) with 1.
    generalize dependent (inject_Z (Qceiling x)).
    generalize dependent (inject_Z n). intros; lra. }
  rewrite <- inject_Z_plus in H1, H2.
  rewrite <- Zlt_Qlt in H1, H2. lia.
Qed.

End Ceilings.

(** ** Binary64 operations *)

Section Binary64Facts.

Import Binary64.
Local Open Scope float_scope.

(** Whenever [x ** 2] returns, it returns the product [x * x]: at a NaN and
    at the infinities the special cases of [float_pow] agree with it. *)
Lemma pow_2_returns (x y : float) : pow_2 x = Ok y -> y = x * x.
Proof.
  unfold pow_2. intros H.
  assert (M := mul_spec x x).
  destruct (Prim2SF x) as [s | s | | s m e] eqn:Ex.
  - destruct (Prim2SF (x * x)); congruence.
  - injection H as <-. apply Prim2SF_inj. rewrite M. now destruct s.
  - injection H as <-. apply Prim2SF_inj. rewrite M, Ex. reflexivity.
  - destruct (Prim2SF (x * x)); congruence.
Qed.

(** [x ** 2] returns as soon as the product is finite. *)
Lemma pow_2_finite (x : float) : finite (x * x) = true -> pow_2 x = Ok (x * x).
Proof.
  unfold pow_2, finite. intros H.
  assert (M := mul_spec x x).
  destruct (Prim2SF x) as [s | s | | s m e] eqn:Ex.
  - destruct (Prim2SF (x * x)); congruence.
  - rewrite M in H. destruct s; discriminate.
  - rewrite M in H. discriminate.
  - destruct (Prim2SF (x * x)); congruence.
Qed.

Lemma pow_2_raises (x : float) (e : exn) : pow_2 x = Raise e -> e = OverflowError.
Proof.
  unfold pow_2.
  destruct (Prim2SF x); try discriminate;
    destruct (Prim2SF (x * x)); congruence.
Qed.

Lemma ceil_finite (x : float) : finite x = true -> returns (ceil x).
Proof.
  unfold finite, ceil, returns. destruct (Prim2SF x); intros H; try discriminate; eauto.
Qed.

Lemma ceil_raises (x : float) (e : exn) :
  ceil x = Raise e -> e = OverflowError \/ e = ValueError.
Proof.
  unfold ceil. destruct (Prim2SF x); intros H; try discriminate;
    injection H as <-; auto.
Qed.

Local Open Scope Q_scope.

(** The value of a finite float with a non-negative exponent is the integer
    [z * 2^e]; with a negative exponent it is the fraction [z / 2^(-e)]. *)
Lemma scaled_value (z e : Z) :
  inject_Z z * 2 ^ e ==
  if (0 <=? e)%Z then inject_Z (z * 2 ^ e) else z # Z.to_pos (2 ^ (- e)).
Proof.
  assert (P : forall p, 2 ^ Z.pos p == inject_Z (2 ^ Z.pos p)).
  { intros p. symmetry. apply (Zpower_Qpower 2 (Z.pos p)). lia. }
  destruct e as [ | p | p ]; simpl Z.leb; cbv iota.
  - simpl. rewrite Z.mul_1_r. ring.
  - rewrite inject_Z_mult, P. reflexivity.
  - change (- Z.neg p)%Z with (Z.pos p).
    change (2 ^ Z.neg p) with (/ (2 ^ Z.pos p)).
    rewrite P.
    assert (Hpos : (0 < 2 ^ Z.pos p)%Z) by (apply Z.pow_pos_nonneg; lia).
    destruct (2 ^ Z.pos p)%Z as [ | q | q ] eqn:E; try lia.
    simpl Z.to_pos. unfold Qeq, Qmult, Qinv, inject_Z. simpl. lia.
Qed.

(** [math.ceil] on a float is the ceiling of the rational it denotes. *)
Lemma ceil_spec (x : float) (n : Z) :
  ceil x = Ok n -> finite x = true /\ n = Qceiling (to_Q x).
Proof.
  unfold ceil, finite, to_Q.
  destruct (Prim2SF x) as [s | s | | s m e]; intros H; try discriminate;
    injection H as <-; split; try reflexivity.
  set (z := cond_Zopp s (Z.pos m)).
  rewrite (Qceiling_comp _ _ (scaled_value z e)).
  destruct (0 <=? e)%Z eqn:Ee.
  - rewrite Qceiling_Z. rewrite Z.shiftl_mul_pow2 by lia. ring.
  - apply Z.leb_gt in Ee.
    rewrite Z.shiftl_div_pow2 by lia.
    unfold Qceiling, Qfloor, Qopp. simpl Qnum. simpl Qden.
    assert (Hpos : (0 < 2 ^ (- e))%Z) by (apply Z.pow_pos_nonneg; lia).
    rewrite Z2Pos.id by exact Hpos. reflexivity.
Qed.

End Binary64Facts.

(** ** Binary64 rounding is monotone

    Multiplication and division by a positive constant, and squaring on the
    non-negative floats, keep the order of their operands.  The rounded
    result of an operation is described by [round_to_grid] on the exact
    quotient; [round_to_grid] is monotone. *)

Local Open Scope Z_scope.

(** *** Digits *)

Lemma digits2_pos_size (p : positive) : digits2_pos p = Pos.size p.
Proof. induction p; simpl; congruence. Qed.

Lemma Zdigits2_log2 (q : Z) : 0 < q -> Zdigits2 q = Z.log2 q + 1.
Proof.
  destruct q as [ | p | p ]; try lia. intros _.
  unfold Zdigits2. rewrite digits2_pos_size.
  destruct p; simpl; lia.
Qed.

Lemma Zdigits2_nonneg (q : Z) : 0 <= Zdigits2 q.
Proof. destruct q; simpl; lia. Qed.

Lemma Zdigits2_bounds (q : Z) :
  0 < q -> 2 ^ (Zdigits2 q - 1) <= q < 2 ^ Zdigits2 q.
Proof.
  intros H. rewrite (Zdigits2_log2 q H).
  replace (Z.log2 q + 1 - 1) with (Z.log2 q) by lia.
  apply (Z.log2_spec q H).
Qed.

(** *** Shifted records *)


Lemma new_location_0 (d : Z) : new_location d 0 = loc_Exact.
Proof.
  unfold new_location, new_location_even, new_location_odd.
  destruct (Z.even d); reflexivity.
Qed.

(** The location of a remainder [0 <= r < d], by comparison of [2 r] with [d]. *)
Lemma new_location_spec (d r : Z) :
  0 <= r < d ->
  new_location d r =
  if r =? 0 then loc_Exact else loc_Inexact (2 * r ?= d).
Proof.
  intros H. unfold new_location, new_location_even, new_location_odd.
  destruct (Z.even d) eqn:Ed.
  - reflexivity.
  - destruct (r =? 0) eqn:Er; [ reflexivity | ].
    f_equal.
    assert (Hodd : Z.odd d = true) by (rewrite <- Z.negb_even, Ed; reflexivity).
    apply Z.odd_spec in Hodd. destruct Hodd as [k Hk].
    destruct (2 * r + 1 ?= d) eqn:C1; destruct (2 * r ?= d) eqn:C2;
      try reflexivity;
      rewrite ?Z.compare_eq_iff, ?Z.compare_lt_iff, ?Z.compare_gt_iff in *; lia.
Qed.

Lemma shr_m_quotient (n d : Z) : shr_m (quotient_record n d) = n / d.
Proof.
  unfold quotient_record. destruct (new_location d (n mod d)) as [ | [ | | ] ]; reflexivity.
Qed.

Lemma loc_of_quotient (n d : Z) :
  loc_of_shr_record (quotient_record n d) = new_location d (n mod d).
Proof.
  unfold quotient_record. destruct (new_location d (n mod d)) as [ | [ | | ] ]; reflexivity.
Qed.

Lemma shr_1_nonneg (q : Z) (r s : bool) :
  0 <= q ->
  shr_1 {| shr_m := q; shr_r := r; shr_s := s |} =
  {| shr_m := q / 2; shr_r := Z.odd q; shr_s := r || s |}.
Proof.
  intros Hq. unfold shr_1.
  destruct q as [ | p | p ]; try lia.
  - reflexivity.
  - destruct p as [ p | p | ].
    + assert (E : Z.pos p~1 / 2 = Z.pos p).
      { symmetry. apply (Z.div_unique _ _ _ 1); lia. }
      rewrite E. reflexivity.
    + assert (E : Z.pos p~0 / 2 = Z.pos p).
      { symmetry. apply (Z.div_unique _ _ _ 0); lia. }
      rewrite E. reflexivity.
    + reflexivity.
Qed.

Lemma shr_1_quotient (n d : Z) : 0 <= n -> 0 < d -> shr_1 (quotient_record n d) = quotient_record n (2 * d).
Proof.
  intros Hn Hd.
  assert (Hq : 0 <= n / d) by (apply Z.div_pos; lia).
  assert (Hr : 0 <= n mod d < d) by (apply Z.mod_pos_bound; lia).
  assert (Hr2 : 0 <= n mod (2 * d) < 2 * d) by (apply Z.mod_pos_bound; lia).
  assert (Ediv : n / (2 * d) = n / d / 2).
  { rewrite (Z.mul_comm 2 d). rewrite Z.div_div by lia. reflexivity. }
  assert (Emod : n mod (2 * d) = d * (n / d mod 2) + n mod d).
  { rewrite (Z.mul_comm 2 d). rewrite Z.rem_mul_r by lia. lia. }
  assert (Hpar : n / d mod 2 = if Z.odd (n / d) then 1 else 0).
  { rewrite Zmod_odd. reflexivity. }
  assert (L1 : new_location d (n mod d) =
               if n mod d =? 0 then loc_Exact
               else loc_Inexact (2 * (n mod d) ?= d))
    by (apply new_location_spec; exact Hr).
  assert (L2 : new_location (2 * d) (n mod (2 * d)) =
               match Z.odd (n / d), n mod d =? 0 with
               | false, true => loc_Exact
               | false, false => loc_Inexact Lt
               | true, true => loc_Inexact Eq
               | true, false => loc_Inexact Gt
               end).
  { rewrite (new_location_spec (2 * d) _ Hr2). rewrite Emod, Hpar.
    destruct (Z.odd (n / d)); destruct (n mod d =? 0) eqn:E0;
      rewrite ?Z.eqb_eq, ?Z.eqb_neq in E0.
    - replace (d * 1 + n mod d =? 0) with false
        by (symmetry; apply Z.eqb_neq; lia).
      f_equal. apply Z.compare_eq_iff. lia.
    - replace (d * 1 + n mod d =? 0) with false
        by (symmetry; apply Z.eqb_neq; lia).
      f_equal. apply Z.compare_gt_iff. lia.
    - replace (d * 0 + n mod d =? 0) with true
        by (symmetry; apply Z.eqb_eq; lia).
      reflexivity.
    - replace (d * 0 + n mod d =? 0) with false
        by (symmetry; apply Z.eqb_neq; lia).
      f_equal. apply Z.compare_lt_iff. lia. }
  unfold quotient_record. rewrite L2, L1, Ediv.
  generalize (2 * (n mod d) ?= d). intros c.
  destruct (n mod d =? 0).
  - cbn [shr_record_of_loc]. rewrite (shr_1_nonneg _ _ _ Hq).
    destruct (Z.odd (n / d)); reflexivity.
  - destruct c; cbn [shr_record_of_loc]; rewrite (shr_1_nonneg _ _ _ Hq);
      destruct (Z.odd (n / d)); reflexivity.
Qed.

Lemma iter_shr_1_quotient (p : positive) :
  forall n d, 0 <= n -> 0 < d ->
  iter_pos shr_1 p (quotient_record n d) = quotient_record n (2 ^ Zpos p * d).
Proof.
  induction p as [ p IH | p IH | ]; intros n d Hn Hd; simpl iter_pos.
  - rewrite (shr_1_quotient n d Hn Hd).
    rewrite IH by lia.
    rewrite IH by (try apply Z.mul_pos_pos; try apply Z.pow_pos_nonneg; lia).
    f_equal.
    replace (Z.pos p~1) with (Z.pos p + Z.pos p + 1) by lia.
    rewrite Z.pow_add_r by lia. rewrite Z.pow_add_r by lia.
    change (2 ^ 1) with 2. ring.
  - rewrite IH by lia.
    rewrite IH by (try apply Z.mul_pos_pos; try apply Z.pow_pos_nonneg; lia).
    f_equal.
    replace (Z.pos p~0) with (Z.pos p + Z.pos p) by lia.
    rewrite Z.pow_add_r by lia. ring.
  - rewrite (shr_1_quotient n d Hn Hd). reflexivity.
Qed.

(** Shifting by [k] places doubles the divisor [k] times. *)
Lemma shr_quotient (n d e k : Z) :
  0 <= n -> 0 < d ->
  shr (quotient_record n d) e k = (quotient_record n (2 ^ Z.max 0 k * d), e + Z.max 0 k).
Proof.
  intros Hn Hd. unfold shr. destruct k as [ | p | p ].
  - simpl Z.max. rewrite Z.mul_1_l, Z.add_0_r. reflexivity.
  - rewrite (iter_shr_1_quotient p n d Hn Hd).
    replace (Z.max 0 (Z.pos p)) with (Z.pos p) by lia. reflexivity.
  - replace (Z.max 0 (Z.neg p)) with 0 by lia.
    simpl (2 ^ 0). rewrite Z.mul_1_l, Z.add_0_r. reflexivity.
Qed.

(** *** Rounding a quotient to the nearest integer, ties to even *)


Lemma nearest_even_cases (n d : Z) :
  0 <= n -> 0 < d ->
  (2 * (n mod d) < d /\ nearest_even n d = n / d)
  \/ (2 * (n mod d) > d /\ nearest_even n d = n / d + 1)
  \/ (2 * (n mod d) = d
      /\ nearest_even n d = if Z.even (n / d) then n / d else n / d + 1).
Proof.
  intros Hn Hd.
  assert (Hr : 0 <= n mod d < d) by (apply Z.mod_pos_bound; lia).
  unfold nearest_even. rewrite (new_location_spec d _ Hr).
  destruct (n mod d =? 0) eqn:E0.
  - apply Z.eqb_eq in E0. left. split; [ lia | reflexivity ].
  - destruct (2 * (n mod d) ?= d) eqn:C;
      rewrite ?Z.compare_eq_iff, ?Z.compare_lt_iff, ?Z.compare_gt_iff in C.
    + right. right. split; [ exact C | reflexivity ].
    + left. split; [ exact C | reflexivity ].
    + right. left. split; [ lia | reflexivity ].
Qed.

Lemma nearest_even_bounds (n d : Z) :
  0 <= n -> 0 < d -> n / d <= nearest_even n d <= n / d + 1.
Proof.
  intros Hn Hd.
  destruct (nearest_even_cases n d Hn Hd) as [[_ ->] | [[_ ->] | [_ ->]]];
    try destruct (Z.even (n / d)); lia.
Qed.

Lemma nearest_even_nonneg (n d : Z) : 0 <= n -> 0 < d -> 0 <= nearest_even n d.
Proof.
  intros Hn Hd. pose proof (nearest_even_bounds n d Hn Hd).
  assert (0 <= n / d) by (apply Z.div_pos; lia). lia.
Qed.

(** Rounding does not step over an integer. *)
Lemma nearest_even_le_int (n d N : Z) :
  0 <= n -> 0 < d -> n <= N * d -> nearest_even n d <= N.
Proof.
  intros Hn Hd H.
  pose proof (Z.div_mod n d ltac:(lia)) as E.
  assert (Hr : 0 <= n mod d < d) by (apply Z.mod_pos_bound; lia).
  destruct (nearest_even_cases n d Hn Hd) as [[C ->] | [[C ->] | [C ->]]];
    try destruct (Z.even (n / d)); nia.
Qed.

Lemma nearest_even_ge_int (n d N : Z) :
  0 <= n -> 0 < d -> N * d <= n -> N <= nearest_even n d.
Proof.
  intros Hn Hd H.
  pose proof (nearest_even_bounds n d Hn Hd).
  assert (N <= n / d) by (apply Z.div_le_lower_bound; lia). lia.
Qed.

Lemma nearest_even_mono (n1 d1 n2 d2 : Z) :
  0 <= n1 -> 0 < d1 -> 0 <= n2 -> 0 < d2 ->
  n1 * d2 <= n2 * d1 -> nearest_even n1 d1 <= nearest_even n2 d2.
Proof.
  intros Hn1 Hd1 Hn2 Hd2 H.
  pose proof (Z.div_mod n1 d1 ltac:(lia)) as E1.
  pose proof (Z.div_mod n2 d2 ltac:(lia)) as E2.
  assert (Hr1 : 0 <= n1 mod d1 < d1) by (apply Z.mod_pos_bound; lia).
  assert (Hr2 : 0 <= n2 mod d2 < d2) by (apply Z.mod_pos_bound; lia).
  pose proof (nearest_even_cases n1 d1 Hn1 Hd1) as C1.
  pose proof (nearest_even_cases n2 d2 Hn2 Hd2) as C2.
  pose proof (nearest_even_bounds n1 d1 Hn1 Hd1) as B1.
  pose proof (nearest_even_bounds n2 d2 Hn2 Hd2) as B2.
  revert E1 E2 Hr1 Hr2 C1 C2 B1 B2.
  generalize (nearest_even n1 d1) (nearest_even n2 d2).
  generalize (n1 / d1) (n1 mod d1) (n2 / d2) (n2 mod d2).
  intros q1 r1 q2 r2 m1 m2 E1 E2 Hr1 Hr2 C1 C2 B1 B2.
  assert (Hq : q1 <= q2).
  { destruct (Z_le_gt_dec q1 q2) as [ | Hgt ]; [ assumption | exfalso ].
    assert (q2 + 1 <= q1) by lia.
    assert (d1 * d2 * (q2 + 1) <= d1 * d2 * q1)
      by (apply Z.mul_le_mono_nonneg_l; nia).
    nia. }
  destruct (Z.eq_dec q1 q2) as [Eq | Hne]; [ | lia ].
  subst q2.
  assert (Hr : r1 * d2 <= r2 * d1) by nia.
  destruct C1 as [[C1 R1] | [[C1 R1] | [C1 R1]]];
    destruct C2 as [[C2 R2] | [[C2 R2] | [C2 R2]]];
    rewrite R1, R2; try destruct (Z.even q1); try lia; exfalso; nia.
Qed.

(** The rounding depends on the quotient only. *)
Lemma nearest_even_scale (c n d : Z) :
  0 < c -> 0 <= n -> 0 < d -> nearest_even (c * n) (c * d) = nearest_even n d.
Proof.
  intros Hc Hn Hd.
  apply Z.le_antisymm; apply nearest_even_mono; nia.
Qed.

(** *** Rounding to the binary64 grid

    A non-negative real is given as a quotient [A / B], in units of the
    smallest positive float.  [dropped_bits] is the number of low bits that do not fit
    into 53, [round_to_grid] the rounded value in the same units, capped at [overflow_level], the
    first power of two that is too large for a finite float. *)


Lemma div_le_cross (A1 B1 A2 B2 : Z) :
  0 <= A1 -> 0 < B1 -> 0 <= A2 -> 0 < B2 ->
  A1 * B2 <= A2 * B1 -> A1 / B1 <= A2 / B2.
Proof.
  intros HA1 HB1 HA2 HB2 H.
  apply Z.div_le_lower_bound; [ lia | ].
  pose proof (Z.mul_div_le A1 B1 HB1) as H1.
  assert (H2 : B1 * (A1 / B1) * B2 <= A2 * B1) by nia.
  nia.
Qed.

Lemma Zdigits2_mono (a b : Z) : 0 <= a <= b -> Zdigits2 a <= Zdigits2 b.
Proof.
  intros [Ha Hab].
  destruct (Z.eq_dec a 0) as [-> | Hne].
  - apply Zdigits2_nonneg.
  - rewrite !Zdigits2_log2 by lia.
    pose proof (Z.log2_le_mono a b Hab). lia.
Qed.

Lemma Zdigits2_upper (q : Z) : 0 <= q -> q < 2 ^ Zdigits2 q.
Proof.
  intros Hq. destruct (Z.eq_dec q 0) as [-> | Hne].
  - reflexivity.
  - apply Zdigits2_bounds. lia.
Qed.

Lemma dropped_bits_nonneg (A B : Z) : 0 <= dropped_bits A B.
Proof. unfold dropped_bits. lia. Qed.

Lemma pow2_pos (k : Z) : 0 <= k -> 0 < 2 ^ k.
Proof. intros. apply Z.pow_pos_nonneg; lia. Qed.

Lemma mantissa_upper (A B : Z) :
  0 <= A -> 0 < B -> nearest_even A (2 ^ dropped_bits A B * B) <= 2 ^ 53.
Proof.
  intros HA HB.
  pose proof (dropped_bits_nonneg A B) as HJ.
  pose proof (pow2_pos (dropped_bits A B) HJ) as HP.
  assert (Hq : 0 <= A / B) by (apply Z.div_pos; lia).
  pose proof (Zdigits2_upper (A / B) Hq) as Hd.
  assert (Hdig : Zdigits2 (A / B) <= 53 + dropped_bits A B) by (unfold dropped_bits; lia).
  assert (Hq2 : A / B < 2 ^ (53 + dropped_bits A B)).
  { eapply Z.lt_le_trans; [ exact Hd | ].
    apply Z.pow_le_mono_r; lia. }
  assert (HA2 : A < 2 ^ (53 + dropped_bits A B) * B).
  { pose proof (Z.div_mod A B ltac:(lia)).
    pose proof (Z.mod_pos_bound A B HB). nia. }
  rewrite Z.pow_add_r in HA2 by lia.
  apply nearest_even_le_int; nia.
Qed.

Lemma mantissa_lower (A B : Z) :
  0 <= A -> 0 < B -> 0 < dropped_bits A B -> 2 ^ 52 <= nearest_even A (2 ^ dropped_bits A B * B).
Proof.
  intros HA HB HJ.
  pose proof (pow2_pos (dropped_bits A B) ltac:(lia)) as HP.
  assert (Hdig : Zdigits2 (A / B) = 53 + dropped_bits A B) by (unfold dropped_bits in *; lia).
  assert (Hq : 0 < A / B).
  { assert (0 <= A / B) by (apply Z.div_pos; lia).
    destruct (Z.eq_dec (A / B) 0) as [E | ]; [ | lia ].
    rewrite E in Hdig. change (Zdigits2 0) with 0 in Hdig. lia. }
  pose proof (Zdigits2_bounds (A / B) Hq) as [Hl _].
  rewrite Hdig in Hl.
  replace (53 + dropped_bits A B - 1) with (52 + dropped_bits A B) in Hl by lia.
  assert (HA2 : 2 ^ (52 + dropped_bits A B) * B <= A).
  { pose proof (Z.mul_div_le A B HB). nia. }
  rewrite Z.pow_add_r in HA2 by lia.
  apply nearest_even_ge_int; nia.
Qed.

Lemma rounded_upper (A B : Z) :
  0 <= A -> 0 < B ->
  nearest_even A (2 ^ dropped_bits A B * B) * 2 ^ dropped_bits A B
  <= 2 ^ (53 + dropped_bits A B).
Proof.
  intros HA HB.
  pose proof (dropped_bits_nonneg A B) as HJ.
  rewrite Z.pow_add_r by lia.
  apply Z.mul_le_mono_nonneg_r; [ apply Z.pow_nonneg; lia | ].
  apply mantissa_upper; assumption.
Qed.

Lemma rounded_lower (A B : Z) :
  0 <= A -> 0 < B -> 0 < dropped_bits A B ->
  2 ^ (52 + dropped_bits A B)
  <= nearest_even A (2 ^ dropped_bits A B * B) * 2 ^ dropped_bits A B.
Proof.
  intros HA HB HJ.
  rewrite Z.pow_add_r by lia.
  apply Z.mul_le_mono_nonneg_r; [ apply Z.pow_nonneg; lia | ].
  apply mantissa_lower; assumption.
Qed.

Theorem round_to_grid_mono (A1 B1 A2 B2 : Z) :
  0 <= A1 -> 0 < B1 -> 0 <= A2 -> 0 < B2 ->
  A1 * B2 <= A2 * B1 -> round_to_grid A1 B1 <= round_to_grid A2 B2.
Proof.
  intros HA1 HB1 HA2 HB2 H.
  assert (Hq : A1 / B1 <= A2 / B2) by (apply div_le_cross; assumption).
  assert (Hq1 : 0 <= A1 / B1) by (apply Z.div_pos; lia).
  assert (HJ : dropped_bits A1 B1 <= dropped_bits A2 B2).
  { unfold dropped_bits. pose proof (Zdigits2_mono (A1 / B1) (A2 / B2) (conj Hq1 Hq)). lia. }
  unfold round_to_grid. apply Z.min_le_compat_r.
  destruct (Z.eq_dec (dropped_bits A1 B1) (dropped_bits A2 B2)) as [E | Hne].
  - rewrite E.
    pose proof (pow2_pos (dropped_bits A2 B2) (dropped_bits_nonneg A2 B2)) as HP.
    apply Z.mul_le_mono_nonneg_r; [ lia | ].
    apply nearest_even_mono; nia.
  - assert (HJ2 : 0 < dropped_bits A2 B2) by (pose proof (dropped_bits_nonneg A1 B1); lia).
    eapply Z.le_trans; [ apply rounded_upper; assumption | ].
    eapply Z.le_trans; [ | apply rounded_lower; assumption ].
    apply Z.pow_le_mono_r; lia.
Qed.

(** *** What [binary_round_aux] computes *)


Lemma fexp64_eq (x : Z) : fexp64 x = Z.max (x - 53) emin64.
Proof. reflexivity. Qed.

Lemma Zdigits2_unique (x t : Z) :
  0 < t -> 2 ^ (t - 1) <= x < 2 ^ t -> Zdigits2 x = t.
Proof.
  intros Ht [Hl Hu].
  assert (Hx : 0 < x).
  { pose proof (pow2_pos (t - 1) ltac:(lia)). lia. }
  rewrite (Zdigits2_log2 x Hx).
  rewrite (Z.log2_unique x (t - 1)); [ lia | lia | ].
  replace (Z.succ (t - 1)) with t by lia. split; assumption.
Qed.

Lemma digits_scale_up (n d t : Z) :
  0 <= n -> 0 < d -> 0 <= t -> 1 <= n / d ->
  Zdigits2 (n * 2 ^ t / d) = Zdigits2 (n / d) + t.
Proof.
  intros Hn Hd Ht Hq.
  pose proof (Zdigits2_bounds (n / d) ltac:(lia)) as [Hl Hu].
  pose proof (Zdigits2_nonneg (n / d)) as Hdq.
  assert (Hdq1 : 1 <= Zdigits2 (n / d)).
  { destruct (Z_le_gt_dec 1 (Zdigits2 (n / d))); [ assumption | ].
    replace (Zdigits2 (n / d)) with 0 in Hu by lia. simpl in Hu. lia. }
  pose proof (pow2_pos t Ht) as HPt.
  pose proof (pow2_pos (Zdigits2 (n / d) - 1) ltac:(lia)) as HP1.
  pose proof (Z.div_mod n d ltac:(lia)) as E.
  pose proof (Z.mod_pos_bound n d Hd) as Hr.
  pose proof (pow2_pos (Zdigits2 (n / d)) ltac:(lia)) as HP2.
  assert (L : d * 2 ^ (Zdigits2 (n / d) - 1) <= n) by nia.
  assert (U : n < d * 2 ^ Zdigits2 (n / d)) by nia.
  apply Zdigits2_unique; [ lia | ].
  split.
  - apply Z.div_le_lower_bound; [ lia | ].
    replace (Zdigits2 (n / d) + t - 1) with (Zdigits2 (n / d) - 1 + t) by lia.
    rewrite Z.pow_add_r by lia. rewrite Z.mul_assoc.
    apply Z.mul_le_mono_nonneg_r; lia.
  - apply Z.div_lt_upper_bound; [ lia | ].
    rewrite Z.pow_add_r by lia. rewrite Z.mul_assoc.
    apply Z.mul_lt_mono_pos_r; lia.
Qed.

Lemma digits_shift_down (q u : Z) :
  0 <= q -> 0 <= u -> Zdigits2 (q / 2 ^ u) = Z.max 0 (Zdigits2 q - u).
Proof.
  intros Hq Hu.
  pose proof (pow2_pos u Hu) as HPu.
  destruct (Z.eq_dec q 0) as [-> | Hne].
  - rewrite Z.div_0_l by lia. change (Zdigits2 0) with 0. lia.
  - pose proof (Zdigits2_bounds q ltac:(lia)) as [Hl Hup].
    destruct (Z_le_gt_dec (Zdigits2 q) u) as [Hle | Hgt].
    + assert (q < 2 ^ u).
      { eapply Z.lt_le_trans; [ exact Hup | ].
        apply Z.pow_le_mono_r; lia. }
      rewrite Z.div_small by lia.
      change (Zdigits2 0) with 0. lia.
    + replace (Z.max 0 (Zdigits2 q - u)) with (Zdigits2 q - u) by lia.
      apply Zdigits2_unique; [ lia | ].
      split.
      * apply Z.div_le_lower_bound; [ lia | ].
        rewrite <- Z.pow_add_r by lia.
        replace (u + (Zdigits2 q - u - 1)) with (Zdigits2 q - 1) by lia.
        exact Hl.
      * apply Z.div_lt_upper_bound; [ lia | ].
        rewrite <- Z.pow_add_r by lia.
        replace (u + (Zdigits2 q - u)) with (Zdigits2 q) by lia.
        exact Hup.
Qed.


Lemma numer_nonneg (n e : Z) : 0 <= n -> 0 <= numer n e.
Proof.
  intros. unfold numer.
  pose proof (pow2_pos (Z.max 0 (e - emin64)) ltac:(lia)). nia.
Qed.

Lemma denom_pos (d e : Z) : 0 < d -> 0 < denom d e.
Proof.
  intros. unfold denom.
  pose proof (pow2_pos (Z.max 0 (emin64 - e)) ltac:(lia)). nia.
Qed.

(** The scaled operand has the digits that the algorithm counts, and is
    rounded at the same place. *)
Lemma dropped_bits_numer_denom (n d e : Z) :
  0 <= n -> 0 < d ->
  e <= fexp64 (Zdigits2 (n / d) + e) ->
  dropped_bits (numer n e) (denom d e) = fexp64 (Zdigits2 (n / d) + e) - emin64.
Proof.
  intros Hn Hd Hinv. rewrite fexp64_eq in *.
  assert (Hq : 0 <= n / d) by (apply Z.div_pos; lia).
  pose proof (Zdigits2_nonneg (n / d)) as Hdq.
  unfold dropped_bits, numer, denom.
  destruct (Z_le_gt_dec emin64 e) as [He | He].
  - replace (Z.max 0 (emin64 - e)) with 0 by lia.
    replace (Z.max 0 (e - emin64)) with (e - emin64) by lia.
    change (2 ^ 0) with 1. rewrite Z.mul_1_r.
    destruct (Z.eq_dec (n / d) 0) as [E0 | Hne].
    + rewrite E0 in *. change (Zdigits2 0) with 0 in *.
      assert (e = emin64) by lia. subst e.
      change (emin64 - emin64) with 0. change (2 ^ 0) with 1.
      rewrite Z.mul_1_r, E0. change (Zdigits2 0) with 0. lia.
    + rewrite digits_scale_up by lia. lia.
  - replace (Z.max 0 (e - emin64)) with 0 by lia.
    replace (Z.max 0 (emin64 - e)) with (emin64 - e) by lia.
    change (2 ^ 0) with 1. rewrite Z.mul_1_r.
    rewrite <- Z.div_div by (try apply pow2_pos; lia).
    rewrite digits_shift_down by lia. lia.
Qed.

Lemma nearest_even_numer_denom (n d e g : Z) :
  0 <= n -> 0 < d -> e <= g -> emin64 <= g ->
  nearest_even (numer n e) (2 ^ (g - emin64) * denom d e) = nearest_even n (2 ^ (g - e) * d).
Proof.
  intros Hn Hd Heg Hg. unfold numer, denom.
  destruct (Z_le_gt_dec emin64 e) as [He | He].
  - replace (Z.max 0 (emin64 - e)) with 0 by lia.
    replace (Z.max 0 (e - emin64)) with (e - emin64) by lia.
    change (2 ^ 0) with 1. rewrite Z.mul_1_r.
    replace (g - emin64) with ((e - emin64) + (g - e)) by lia.
    rewrite Z.pow_add_r by lia.
    rewrite (Z.mul_comm n), <- Z.mul_assoc.
    pose proof (pow2_pos (g - e) ltac:(lia)).
    pose proof (pow2_pos (e - emin64) ltac:(lia)).
    apply nearest_even_scale; nia.
  - replace (Z.max 0 (e - emin64)) with 0 by lia.
    replace (Z.max 0 (emin64 - e)) with (emin64 - e) by lia.
    change (2 ^ 0) with 1. rewrite Z.mul_1_r.
    f_equal.
    replace (g - e) with ((g - emin64) + (emin64 - e)) by lia.
    rewrite Z.pow_add_r by lia. ring.
Qed.

Lemma Zdigits2_le (x t : Z) : 0 <= x -> 0 <= t -> x < 2 ^ t -> Zdigits2 x <= t.
Proof.
  intros Hx Ht H.
  destruct (Z.eq_dec x 0) as [-> | Hne].
  - change (Zdigits2 0) with 0. lia.
  - pose proof (Zdigits2_bounds x ltac:(lia)) as [Hl _].
    destruct (Z_le_gt_dec (Zdigits2 x) t) as [ | Hgt ]; [ assumption | exfalso ].
    assert (2 ^ t <= 2 ^ (Zdigits2 x - 1)) by (apply Z.pow_le_mono_r; lia).
    lia.
Qed.

Lemma quotient_record_1 (M : Z) : shr_record_of_loc M loc_Exact = quotient_record M 1.
Proof.
  unfold quotient_record. rewrite Z.div_1_r, Z.mod_1_r, new_location_0. reflexivity.
Qed.


Lemma overflow_level_eq : overflow_level = 2 ^ 2098.
Proof. reflexivity. Qed.

Lemma binary_round_aux_value (s : bool) (n d e : Z) :
  0 <= n -> 0 < d ->
  e <= fexp64 (Zdigits2 (n / d) + e) ->
  let f := binary_round_aux prec emax s (n / d) e (new_location d (n mod d)) in
  f <> S754_nan /\ sign_of f = s
  /\ mag_val f = round_to_grid (numer n e) (denom d e).
Proof.
  intros Hn Hd Hinv.
  pose proof (dropped_bits_numer_denom n d e Hn Hd Hinv) as HJ.
  pose proof (numer_nonneg n e Hn) as HA.
  pose proof (denom_pos d e Hd) as HB.
  set (g := fexp64 (Zdigits2 (n / d) + e)) in *.
  assert (Hg : emin64 <= g) by (unfold g; rewrite fexp64_eq; lia).
  pose proof (nearest_even_numer_denom n d e g Hn Hd Hinv Hg) as HM.
  rewrite <- HJ in HM.
  pose proof (mantissa_upper _ _ HA HB) as HMu.
  pose proof (fun H => mantissa_lower _ _ HA HB H) as HMl.
  unfold round_to_grid. rewrite HM in *. rewrite HJ in *.
  clear HM HA HB HJ.
  assert (HM0 : 0 <= nearest_even n (2 ^ (g - e) * d)).
  { apply nearest_even_nonneg; [ lia | ].
    pose proof (pow2_pos (g - e) ltac:(lia)). nia. }
  unfold binary_round_aux, shr_fexp. fold g.
  fold (quotient_record n d). rewrite (shr_quotient n d e (g - e) Hn Hd).
  replace (Z.max 0 (g - e)) with (g - e) by lia.
  replace (e + (g - e)) with g by lia.
  cbv iota zeta beta.
  rewrite shr_m_quotient, loc_of_quotient. fold (nearest_even n (2 ^ (g - e) * d)).
  set (M := nearest_even n (2 ^ (g - e) * d)) in *.
  rewrite quotient_record_1. rewrite (shr_quotient M 1 g _ HM0 ltac:(lia)).
  cbv iota zeta beta. rewrite shr_m_quotient, Z.mul_1_r.
  rewrite fexp64_eq.
  change (emax - prec) with 971.
  destruct (Z.eq_dec M (2 ^ 53)) as [E53 | Hne].
  - assert (Hdig : Zdigits2 M = 54) by (rewrite E53; reflexivity).
    rewrite Hdig.
    replace (Z.max 0 (Z.max (54 + g - 53) emin64 - g)) with 1 by lia.
    rewrite E53. change (2 ^ 53 / 2 ^ 1) with (2 ^ 52).
    change (2 ^ 52) with (Z.pos (2 ^ 52)).
    destruct (g + 1 <=? 971) eqn:Ee.
    + apply Z.leb_le in Ee.
      split; [ discriminate | ]. split; [ reflexivity | ].
      cbn [mag_val].
      assert (E1 : Z.pos (2 ^ 52) * 2 ^ (g + 1 - emin64)
                   = 2 ^ (53 + (g - emin64))).
      { change (Z.pos (2 ^ 52)) with (2 ^ 52).
        rewrite <- Z.pow_add_r by lia. f_equal. lia. }
      assert (E2 : Z.pos (2 ^ 53) * 2 ^ (g - emin64)
                   = 2 ^ (53 + (g - emin64))).
      { change (Z.pos (2 ^ 53)) with (2 ^ 53).
        rewrite <- Z.pow_add_r by lia. reflexivity. }
      change (2 ^ 53) with (Z.pos (2 ^ 53)). rewrite E1, E2.
      rewrite overflow_level_eq. rewrite Z.min_l; [ reflexivity | ].
      apply Z.pow_le_mono_r; lia.
    + apply Z.leb_gt in Ee.
      split; [ discriminate | ]. split; [ reflexivity | ].
      cbn [mag_val].
      assert (E2 : Z.pos (2 ^ 53) * 2 ^ (g - emin64)
                   = 2 ^ (53 + (g - emin64))).
      { change (Z.pos (2 ^ 53)) with (2 ^ 53).
        rewrite <- Z.pow_add_r by lia. reflexivity. }
      change (2 ^ 53) with (Z.pos (2 ^ 53)). rewrite E2.
      rewrite overflow_level_eq. rewrite Z.min_r; [ reflexivity | ].
      apply Z.pow_le_mono_r; lia.
  - assert (HMlt : M < 2 ^ 53) by lia.
    pose proof (Zdigits2_le M 53 HM0 ltac:(lia) HMlt) as Hdig.
    pose proof (Zdigits2_nonneg M) as Hdig0.
    replace (Z.max 0 (Z.max (Zdigits2 M + g - 53) emin64 - g)) with 0 by lia.
    change (2 ^ 0) with 1. rewrite Z.div_1_r, Z.add_0_r.
    destruct M as [ | m | m ] eqn:EM; [ | | lia ].
    + split; [ discriminate | ]. split; [ reflexivity | ].
      cbn [mag_val]. rewrite Z.mul_0_l. rewrite Z.min_l; [ reflexivity | ].
      rewrite overflow_level_eq. apply Z.pow_nonneg. lia.
    + destruct (g <=? 971) eqn:Ee.
      * apply Z.leb_le in Ee.
        split; [ discriminate | ]. split; [ reflexivity | ].
        cbn [mag_val]. rewrite Z.min_l; [ reflexivity | ].
        apply Z.lt_le_incl.
        apply Z.lt_le_trans with (2 ^ 53 * 2 ^ (g - emin64)).
        -- apply Z.mul_lt_mono_pos_r; [ apply pow2_pos; lia | exact HMlt ].
        -- rewrite <- Z.pow_add_r by lia. rewrite overflow_level_eq.
           apply Z.pow_le_mono_r; lia.
      * apply Z.leb_gt in Ee.
        split; [ discriminate | ]. split; [ reflexivity | ].
        cbn [mag_val]. rewrite Z.min_r; [ reflexivity | ].
        assert (Hl : 2 ^ 52 <= Z.pos m) by (apply HMl; lia).
        apply Z.le_trans with (2 ^ 52 * 2 ^ (g - emin64)).
        -- rewrite <- Z.pow_add_r by lia. rewrite overflow_level_eq.
           apply Z.pow_le_mono_r; lia.
        -- apply Z.mul_le_mono_nonneg_r; [ apply Z.pow_nonneg; lia | exact Hl ].
Qed.

(** *** Valid floats and their order *)


Lemma valid_finite (s : bool) (m : positive) (e : Z) :
  valid (S754_finite s m e) = true ->
  emin64 <= e <= 971
  /\ Z.pos m < 2 ^ 53
  /\ (emin64 < e -> 2 ^ 52 <= Z.pos m).
Proof.
  unfold valid_binary, bounded, canonical_mantissa.
  rewrite andb_true_iff, Z.eqb_eq, Z.leb_le, fexp64_eq.
  change (emax - prec) with 971.
  change (Z.pos (digits2_pos m)) with (Zdigits2 (Z.pos m)).
  intros [Hc He].
  pose proof (Zdigits2_bounds (Z.pos m) ltac:(lia)) as [Hl Hu].
  split; [ lia | ]. split.
  - eapply Z.lt_le_trans; [ exact Hu | ]. apply Z.pow_le_mono_r; lia.
  - intros Hgt.
    replace (Zdigits2 (Z.pos m)) with 53 in Hl by lia. exact Hl.
Qed.

Lemma mag_val_nonneg (f : spec_float) : 0 <= mag_val f.
Proof.
  destruct f as [ s | s | | s m e ]; cbn [mag_val]; try lia.
  all: rewrite overflow_level_eq; apply Z.pow_nonneg; lia.
Qed.

Lemma mag_val_finite (s : bool) (m : positive) (e : Z) :
  valid (S754_finite s m e) = true ->
  0 < mag_val (S754_finite s m e) < overflow_level.
Proof.
  intros Hv. apply valid_finite in Hv. destruct Hv as [He [Hm _]].
  cbn [mag_val].
  pose proof (pow2_pos (e - emin64) ltac:(lia)) as HP.
  split; [ nia | ].
  apply Z.lt_le_trans with (2 ^ 53 * 2 ^ (e - emin64)).
  - apply Z.mul_lt_mono_pos_r; assumption.
  - rewrite <- Z.pow_add_r by lia. rewrite overflow_level_eq.
    apply Z.pow_le_mono_r; lia.
Qed.

(** Between valid floats the exponent decides before the mantissa. *)
Lemma mag_val_exponent (s1 s2 : bool) (m1 m2 : positive) (e1 e2 : Z) :
  valid (S754_finite s1 m1 e1) = true ->
  valid (S754_finite s2 m2 e2) = true ->
  e1 < e2 ->
  mag_val (S754_finite s1 m1 e1) < mag_val (S754_finite s2 m2 e2).
Proof.
  intros H1 H2 Hlt.
  apply valid_finite in H1. destruct H1 as [He1 [Hm1 _]].
  apply valid_finite in H2. destruct H2 as [He2 [_ Hm2]].
  specialize (Hm2 ltac:(lia)).
  cbn [mag_val].
  pose proof (pow2_pos (e1 - emin64) ltac:(lia)) as HP1.
  apply Z.lt_le_trans with (2 ^ 53 * 2 ^ (e1 - emin64)).
  - apply Z.mul_lt_mono_pos_r; assumption.
  - apply Z.le_trans with (2 ^ 52 * 2 ^ (e2 - emin64)).
    + rewrite <- !Z.pow_add_r by lia. apply Z.pow_le_mono_r; lia.
    + apply Z.mul_le_mono_nonneg_r; [ apply Z.pow_nonneg; lia | exact Hm2 ].
Qed.


Lemma Zcompare_mul_r (a b p : Z) : 0 < p -> (a * p ?= b * p) = (a ?= b).
Proof.
  intros Hp.
  destruct (a ?= b) eqn:C;
    rewrite ?Z.compare_eq_iff, ?Z.compare_lt_iff, ?Z.compare_gt_iff in *; nia.
Qed.

Lemma SFcompare_mag (m1 m2 : positive) (e1 e2 : Z) (s1 s2 : bool) :
  valid (S754_finite s1 m1 e1) = true ->
  valid (S754_finite s2 m2 e2) = true ->
  match e1 ?= e2 with
  | Lt => Lt
  | Gt => Gt
  | Eq => Pos.compare_cont Eq m1 m2
  end
  = (mag_val (S754_finite s1 m1 e1) ?= mag_val (S754_finite s2 m2 e2)).
Proof.
  intros H1 H2.
  destruct (e1 ?= e2) eqn:C;
    rewrite ?Z.compare_eq_iff, ?Z.compare_lt_iff, ?Z.compare_gt_iff in C.
  - subst e2. cbn [mag_val].
    apply valid_finite in H1. destruct H1 as [He1 _].
    pose proof (pow2_pos (e1 - emin64) ltac:(lia)) as HP.
    change (Pos.compare_cont Eq m1 m2) with (Z.pos m1 ?= Z.pos m2).
    symmetry. apply Zcompare_mul_r. exact HP.
  - symmetry. apply Z.compare_lt_iff.
    apply (mag_val_exponent s1 s2); assumption.
  - symmetry. apply Z.compare_gt_iff.
    apply (mag_val_exponent s2 s1); assumption || lia.
Qed.

Lemma SFcompare_sval (a b : spec_float) :
  valid a = true -> valid b = true -> not_nan a -> not_nan b ->
  SFcompare a b = Some (sval a ?= sval b).
Proof.
  intros Ha Hb Na Nb. unfold sval.
  destruct a as [ sa | sa | | sa ma ea ]; [ | | congruence | ];
    destruct b as [ sb | sb | | sb mb eb ]; try congruence;
    cbn [SFcompare sign_of];
    try pose proof (mag_val_finite _ _ _ Ha) as Fa;
    try pose proof (mag_val_finite _ _ _ Hb) as Fb;
    try (pose proof (SFcompare_mag ma mb ea eb sa sb Ha Hb) as Cab;
         pose proof (SFcompare_mag mb ma eb ea sb sa Hb Ha) as Cba);
    assert (HT : 0 < overflow_level) by (rewrite overflow_level_eq; apply pow2_pos; lia);
    try destruct sa; try destruct sb; cbn [mag_val] in *;
    f_equal; symmetry;
    try (apply Z.compare_eq_iff; lia);
    try (apply Z.compare_lt_iff; lia);
    try (apply Z.compare_gt_iff; lia).
  - rewrite Z.compare_opp. rewrite <- Cba.
    rewrite (Z.compare_antisym eb ea).
    destruct (eb ?= ea); cbn [CompOpp]; try reflexivity.
    rewrite Pos.compare_cont_antisym. reflexivity.
  - rewrite <- Cab. reflexivity.
Qed.

(** *** Products and quotients of finite floats *)

Lemma pow2_split (z K : Z) :
  0 <= K -> 0 <= K + z ->
  2 ^ Z.max 0 z * 2 ^ K = 2 ^ Z.max 0 (- z) * 2 ^ (K + z).
Proof.
  intros HK HKz.
  rewrite <- !Z.pow_add_r by lia. f_equal. lia.
Qed.

(** An inequality between two operands, stated with a common shift [K]
    that makes both exponents non-negative, is an inequality between their
    scaled forms. *)
Lemma cross_numer_denom (n1 d1 e1 n2 d2 e2 K : Z) :
  0 <= n1 -> 0 < d1 -> 0 <= n2 -> 0 < d2 ->
  0 <= K -> 0 <= K + (e1 - emin64) -> 0 <= K + (e2 - emin64) ->
  n1 * d2 * 2 ^ (K + (e1 - emin64)) <= n2 * d1 * 2 ^ (K + (e2 - emin64)) ->
  numer n1 e1 * denom d2 e2 <= numer n2 e2 * denom d1 e1.
Proof.
  intros Hn1 Hd1 Hn2 Hd2 HK HK1 HK2 H.
  unfold numer, denom.
  replace (emin64 - e1) with (- (e1 - emin64)) by lia.
  replace (emin64 - e2) with (- (e2 - emin64)) by lia.
  pose proof (pow2_split (e1 - emin64) K HK HK1) as E1.
  pose proof (pow2_split (e2 - emin64) K HK HK2) as E2.
  pose proof (pow2_pos K HK) as PK.
  pose proof (pow2_pos (Z.max 0 (- (e1 - emin64))) ltac:(lia)) as PN1.
  pose proof (pow2_pos (Z.max 0 (- (e2 - emin64))) ltac:(lia)) as PN2.
  revert E1 E2 PN1 PN2 H.
  generalize (2 ^ Z.max 0 (e1 - emin64)) (2 ^ Z.max 0 (- (e1 - emin64)))
             (2 ^ Z.max 0 (e2 - emin64)) (2 ^ Z.max 0 (- (e2 - emin64)))
             (2 ^ (K + (e1 - emin64))) (2 ^ (K + (e2 - emin64))).
  intros P1 N1 P2 N2 X1 X2 E1 E2 PN1 PN2 H.
  apply (Z.mul_le_mono_pos_r _ _ (2 ^ K) PK).
  replace (n1 * P1 * (d2 * N2) * 2 ^ K) with (n1 * d2 * N2 * (P1 * 2 ^ K)) by ring.
  replace (n2 * P2 * (d1 * N1) * 2 ^ K) with (n2 * d1 * N1 * (P2 * 2 ^ K)) by ring.
  rewrite E1, E2.
  replace (n1 * d2 * N2 * (N1 * X1)) with (N1 * N2 * (n1 * d2 * X1)) by ring.
  replace (n2 * d1 * N1 * (N2 * X2)) with (N1 * N2 * (n2 * d1 * X2)) by ring.
  apply Z.mul_le_mono_nonneg_l; [ nia | exact H ].
Qed.

Lemma digits_ge (x t : Z) : 0 <= t -> 2 ^ t <= x -> t + 1 <= Zdigits2 x.
Proof.
  intros Ht H.
  assert (Hx : 0 < x) by (pose proof (pow2_pos t Ht); lia).
  rewrite (Zdigits2_log2 x Hx).
  apply Z.log2_le_pow2 in H; lia.
Qed.

Lemma SFmul_finite (sx sy : bool) (mx my : positive) (ex ey : Z) :
  valid (S754_finite sx mx ex) = true ->
  valid (S754_finite sy my ey) = true ->
  let f := SF64mul (S754_finite sx mx ex) (S754_finite sy my ey) in
  f <> S754_nan /\ sign_of f = xorb sx sy
  /\ mag_val f = round_to_grid (numer (Z.pos (mx * my)) (ex + ey)) (denom 1 (ex + ey)).
Proof.
  intros Hx Hy.
  apply valid_finite in Hx. destruct Hx as [Hex [Hmx Hnx]].
  apply valid_finite in Hy. destruct Hy as [Hey [Hmy Hny]].
  unfold SF64mul, SFmul.
  set (n := Z.pos (mx * my)).
  assert (Hn : 0 <= n) by (unfold n; lia).
  assert (E : binary_round_aux prec emax (xorb sx sy) n (ex + ey) loc_Exact
              = binary_round_aux prec emax (xorb sx sy) (n / 1) (ex + ey)
                  (new_location 1 (n mod 1))).
  { rewrite Z.div_1_r, Z.mod_1_r, new_location_0. reflexivity. }
  cbv zeta. rewrite E.
  apply (binary_round_aux_value (xorb sx sy) n 1 (ex + ey) Hn ltac:(lia)).
  rewrite Z.div_1_r, fexp64_eq.
  destruct (Z_le_gt_dec ex emin64) as [Hx0 | Hx1].
  - destruct (Z_le_gt_dec ey emin64) as [Hy0 | Hy1]; [ lia | ].
    specialize (Hny ltac:(lia)).
    assert (2 ^ 52 <= n) by (unfold n; rewrite Pos2Z.inj_mul; nia).
    pose proof (digits_ge n 52 ltac:(lia) H). lia.
  - specialize (Hnx ltac:(lia)).
    assert (2 ^ 52 <= n) by (unfold n; rewrite Pos2Z.inj_mul; nia).
    pose proof (digits_ge n 52 ltac:(lia) H). lia.
Qed.

Lemma SFdiv_finite (sx sy : bool) (mx my : positive) (ex ey : Z) :
  let e' := Z.min (fexp64 (Zdigits2 (Z.pos mx) + ex - (Zdigits2 (Z.pos my) + ey)))
                  (ex - ey) in
  let n := Z.pos mx * 2 ^ (ex - ey - e') in
  let f := SF64div (S754_finite sx mx ex) (S754_finite sy my ey) in
  f <> S754_nan /\ sign_of f = xorb sx sy
  /\ mag_val f = round_to_grid (numer n e') (denom (Z.pos my) e').
Proof.
  intros e' n.
  assert (Hs : 0 <= ex - ey - e') by (unfold e'; lia).
  pose proof (pow2_pos (ex - ey - e') Hs) as HPs.
  assert (Hn : 0 <= n) by (unfold n; nia).
  assert (Hinv : e' <= fexp64 (Zdigits2 (n / Z.pos my) + e')).
  { rewrite fexp64_eq.
    destruct (Z_le_gt_dec e' emin64) as [ | Hgt ]; [ lia | ].
    pose proof (Zdigits2_bounds (Z.pos mx) ltac:(lia)) as [Hlx _].
    pose proof (Zdigits2_bounds (Z.pos my) ltac:(lia)) as [_ Huy].
    pose proof (Zdigits2_nonneg (Z.pos my)) as Hdy.
    assert (Hdx : 1 <= Zdigits2 (Z.pos mx)).
    { rewrite Zdigits2_log2 by lia. pose proof (Z.log2_nonneg (Z.pos mx)). lia. }
    assert (He' : e' <= Zdigits2 (Z.pos mx) + ex - (Zdigits2 (Z.pos my) + ey) - 53).
    { unfold e' in *. rewrite fexp64_eq in *. lia. }
    assert (Hbig : 2 ^ (52 + Zdigits2 (Z.pos my)) <= n).
    { unfold n.
      apply Z.le_trans with (2 ^ (Zdigits2 (Z.pos mx) - 1) * 2 ^ (ex - ey - e')).
      - rewrite <- Z.pow_add_r by lia. apply Z.pow_le_mono_r; lia.
      - apply Z.mul_le_mono_nonneg_r; lia. }
    rewrite Z.pow_add_r in Hbig by lia.
    assert (Hq : 2 ^ 52 <= n / Z.pos my).
    { apply Z.div_le_lower_bound; [ lia | ]. nia. }
    pose proof (digits_ge _ 52 ltac:(lia) Hq). lia. }
  pose proof (binary_round_aux_value (xorb sx sy) n (Z.pos my) e' Hn ltac:(lia) Hinv)
    as Hval.
  cbv zeta in Hval |- *.
  assert (E : SF64div (S754_finite sx mx ex) (S754_finite sy my ey)
              = binary_round_aux prec emax (xorb sx sy) (n / Z.pos my) e'
                  (new_location (Z.pos my) (n mod Z.pos my))).
  { unfold SF64div, SFdiv, SFdiv_core_binary. fold e'.
    assert (Em : match ex - ey - e' with
                 | 0 => Z.pos mx
                 | Z.pos _ => Z.shiftl (Z.pos mx) (ex - ey - e')
                 | Z.neg _ => 0
                 end = n).
    { unfold n. destruct (ex - ey - e') as [ | p | p ] eqn:Es.
      - change (2 ^ 0) with 1. lia.
      - rewrite Z.shiftl_mul_pow2 by lia. reflexivity.
      - lia. }
    rewrite Em.
    unfold Z.div, Z.modulo.
    destruct (Z.div_eucl n (Z.pos my)) as [q r]. reflexivity. }
  rewrite E. exact Hval.
Qed.

(** *** Monotone operations *)

Lemma round_to_grid_le_overflow_level (A B : Z) : round_to_grid A B <= overflow_level.
Proof. unfold round_to_grid. apply Z.le_min_r. Qed.

Lemma overflow_level_pos : 0 < overflow_level.
Proof. rewrite overflow_level_eq. apply pow2_pos. lia. Qed.

(** The magnitude of a product grows with the magnitudes of the factors. *)
Lemma SFmul_mag_mono (s1 t1 s2 t2 : bool) (m1 k1 m2 k2 : positive)
    (e1 f1 e2 f2 : Z) :
  valid (S754_finite s1 m1 e1) = true -> valid (S754_finite t1 k1 f1) = true ->
  valid (S754_finite s2 m2 e2) = true -> valid (S754_finite t2 k2 f2) = true ->
  mag_val (S754_finite s1 m1 e1) <= mag_val (S754_finite s2 m2 e2) ->
  mag_val (S754_finite t1 k1 f1) <= mag_val (S754_finite t2 k2 f2) ->
  mag_val (SF64mul (S754_finite s1 m1 e1) (S754_finite t1 k1 f1))
  <= mag_val (SF64mul (S754_finite s2 m2 e2) (S754_finite t2 k2 f2)).
Proof.
  intros V1 W1 V2 W2 Hm Hk.
  destruct (SFmul_finite s1 t1 m1 k1 e1 f1 V1 W1) as [_ [_ ->]].
  destruct (SFmul_finite s2 t2 m2 k2 e2 f2 V2 W2) as [_ [_ ->]].
  apply valid_finite in V1, W1, V2, W2.
  destruct V1 as [He1 _], W1 as [Hf1 _], V2 as [He2 _], W2 as [Hf2 _].
  cbn [mag_val] in Hm, Hk.
  apply round_to_grid_mono;
    try apply numer_nonneg; try apply denom_pos; try lia.
  apply (cross_numer_denom _ _ _ _ _ _ 1074); try lia.
  rewrite !Z.mul_1_r, !Pos2Z.inj_mul.
  replace (1074 + (e1 + f1 - emin64)) with ((e1 - emin64) + (f1 - emin64)) by lia.
  replace (1074 + (e2 + f2 - emin64)) with ((e2 - emin64) + (f2 - emin64)) by lia.
  rewrite !Z.pow_add_r by lia.
  pose proof (pow2_pos (e1 - emin64) ltac:(lia)).
  pose proof (pow2_pos (f1 - emin64) ltac:(lia)).
  pose proof (pow2_pos (e2 - emin64) ltac:(lia)).
  pose proof (pow2_pos (f2 - emin64) ltac:(lia)).
  replace (Z.pos m1 * Z.pos k1 * (2 ^ (e1 - emin64) * 2 ^ (f1 - emin64)))
    with (Z.pos m1 * 2 ^ (e1 - emin64) * (Z.pos k1 * 2 ^ (f1 - emin64))) by ring.
  replace (Z.pos m2 * Z.pos k2 * (2 ^ (e2 - emin64) * 2 ^ (f2 - emin64)))
    with (Z.pos m2 * 2 ^ (e2 - emin64) * (Z.pos k2 * 2 ^ (f2 - emin64))) by ring.
  apply Z.mul_le_mono_nonneg; nia.
Qed.

(** The magnitude of a quotient grows with the magnitude of the dividend. *)
Lemma SFdiv_mag_mono (s1 s2 t : bool) (m1 m2 k : positive) (e1 e2 f : Z) :
  valid (S754_finite s1 m1 e1) = true ->
  valid (S754_finite s2 m2 e2) = true ->
  valid (S754_finite t k f) = true ->
  mag_val (S754_finite s1 m1 e1) <= mag_val (S754_finite s2 m2 e2) ->
  mag_val (SF64div (S754_finite s1 m1 e1) (S754_finite t k f))
  <= mag_val (SF64div (S754_finite s2 m2 e2) (S754_finite t k f)).
Proof.
  intros V1 V2 W Hm.
  destruct (SFdiv_finite s1 t m1 k e1 f) as [_ [_ ->]].
  destruct (SFdiv_finite s2 t m2 k e2 f) as [_ [_ ->]].
  apply valid_finite in V1, V2, W.
  destruct V1 as [He1 _], V2 as [He2 _], W as [Hf _].
  cbn [mag_val] in Hm.
  set (a1 := Z.min (fexp64 (Zdigits2 (Z.pos m1) + e1 - (Zdigits2 (Z.pos k) + f)))
                   (e1 - f)).
  set (a2 := Z.min (fexp64 (Zdigits2 (Z.pos m2) + e2 - (Zdigits2 (Z.pos k) + f)))
                   (e2 - f)).
  assert (Ha1 : a1 <= e1 - f) by (unfold a1; lia).
  assert (Ha2 : a2 <= e2 - f) by (unfold a2; lia).
  pose proof (pow2_pos (e1 - f - a1) ltac:(lia)) as P1.
  pose proof (pow2_pos (e2 - f - a2) ltac:(lia)) as P2.
  apply round_to_grid_mono;
    try apply numer_nonneg; try apply denom_pos; try nia.
  set (K := 3000 + Z.abs a1 + Z.abs a2).
  apply (cross_numer_denom _ _ _ _ _ _ K); try (unfold K; nia).
  assert (HK : 0 <= K - f /\ 0 <= K + (a1 - emin64) /\ 0 <= K + (a2 - emin64))
    by (unfold K; lia).
  assert (E1 : Z.pos m1 * 2 ^ (e1 - f - a1) * Z.pos k * 2 ^ (K + (a1 - emin64))
               = Z.pos k * 2 ^ (K - f) * (Z.pos m1 * 2 ^ (e1 - emin64))).
  { assert (P : 2 ^ (e1 - f - a1) * 2 ^ (K + (a1 - emin64))
                = 2 ^ (K - f) * 2 ^ (e1 - emin64)).
    { rewrite <- !Z.pow_add_r by lia. f_equal. lia. }
    transitivity (Z.pos m1 * Z.pos k
                  * (2 ^ (e1 - f - a1) * 2 ^ (K + (a1 - emin64))));
      [ ring | rewrite P; ring ]. }
  assert (E2 : Z.pos m2 * 2 ^ (e2 - f - a2) * Z.pos k * 2 ^ (K + (a2 - emin64))
               = Z.pos k * 2 ^ (K - f) * (Z.pos m2 * 2 ^ (e2 - emin64))).
  { assert (P : 2 ^ (e2 - f - a2) * 2 ^ (K + (a2 - emin64))
                = 2 ^ (K - f) * 2 ^ (e2 - emin64)).
    { rewrite <- !Z.pow_add_r by lia. f_equal. lia. }
    transitivity (Z.pos m2 * Z.pos k
                  * (2 ^ (e2 - f - a2) * 2 ^ (K + (a2 - emin64))));
      [ ring | rewrite P; ring ]. }
  rewrite E1, E2.
  apply Z.mul_le_mono_nonneg_l; [ | exact Hm ].
  pose proof (pow2_pos (K - f) ltac:(lia)). nia.
Qed.

Section SignedMonotone.

Variable g : spec_float -> spec_float.

Hypothesis g_sign :
  forall a, valid a = true -> not_nan a -> sign_of (g a) = sign_of a.
Hypothesis g_zero :
  forall a, valid a = true -> not_nan a -> mag_val a = 0 -> mag_val (g a) = 0.
Hypothesis g_mag :
  forall a b, valid a = true -> valid b = true -> not_nan a -> not_nan b ->
    mag_val a <= mag_val b -> mag_val (g a) <= mag_val (g b).

(** An operation that keeps the sign and is monotone on magnitudes is
    monotone on signed values. *)
Lemma sval_mono (a b : spec_float) :
  valid a = true -> valid b = true -> not_nan a -> not_nan b ->
  sval a <= sval b -> sval (g a) <= sval (g b).
Proof.
  intros Va Vb Na Nb H. unfold sval in *.
  rewrite (g_sign a Va Na), (g_sign b Vb Nb).
  pose proof (mag_val_nonneg a) as Pa. pose proof (mag_val_nonneg b) as Pb.
  pose proof (mag_val_nonneg (g a)) as Pga.
  pose proof (mag_val_nonneg (g b)) as Pgb.
  destruct (sign_of a); destruct (sign_of b).
  - pose proof (g_mag b a Vb Va Nb Na ltac:(lia)). lia.
  - lia.
  - assert (E1 : mag_val a = 0) by lia. assert (E2 : mag_val b = 0) by lia.
    rewrite (g_zero a Va Na E1), (g_zero b Vb Nb E2). lia.
  - pose proof (g_mag a b Va Vb Na Nb ltac:(lia)). lia.
Qed.

End SignedMonotone.

(** A float of magnitude zero is a zero. *)
Lemma mag_zero (a : spec_float) :
  valid a = true -> not_nan a -> mag_val a = 0 -> exists s, a = S754_zero s.
Proof.
  intros Va Na H. destruct a as [ s | s | | s m e ].
  - eauto.
  - cbn [mag_val] in H. pose proof overflow_level_pos. lia.
  - congruence.
  - pose proof (mag_val_finite s m e Va). lia.
Qed.

Lemma mag_le_overflow_level (a : spec_float) : valid a = true -> mag_val a <= overflow_level.
Proof.
  intros Va. destruct a as [ s | s | | s m e ]; cbn [mag_val];
    try (pose proof overflow_level_pos; lia).
  pose proof (mag_val_finite s m e Va) as H. cbn [mag_val] in H. lia.
Qed.

Section ByConstant.

Variables (mk : positive) (ek : Z).
Local Abbreviation K := (S754_finite false mk ek).
Hypothesis K_valid : valid K = true.

(** [x * k] for a positive finite constant [k]. *)
Lemma mul_const_not_nan (a : spec_float) :
  valid a = true -> not_nan a -> not_nan (SF64mul a K).
Proof.
  intros Va Na. destruct a as [ s | s | | s m e ]; try congruence;
    try (unfold not_nan; cbn; discriminate).
  apply (SFmul_finite s false m mk e ek Va K_valid).
Qed.

Lemma mul_const_sign (a : spec_float) :
  valid a = true -> not_nan a -> sign_of (SF64mul a K) = sign_of a.
Proof.
  intros Va Na. destruct a as [ s | s | | s m e ]; try congruence;
    try (cbn; apply xorb_false_r).
  destruct (SFmul_finite s false m mk e ek Va K_valid) as [_ [-> _]].
  apply xorb_false_r.
Qed.

Lemma mul_const_zero (a : spec_float) :
  valid a = true -> not_nan a -> mag_val a = 0 -> mag_val (SF64mul a K) = 0.
Proof.
  intros Va Na H. destruct (mag_zero a Va Na H) as [s ->]. reflexivity.
Qed.

Lemma mul_const_mag (a b : spec_float) :
  valid a = true -> valid b = true -> not_nan a -> not_nan b ->
  mag_val a <= mag_val b ->
  mag_val (SF64mul a K) <= mag_val (SF64mul b K).
Proof.
  intros Va Vb Na Nb H.
  destruct a as [ sa | sa | | sa ma ea ]; try congruence.
  - apply mag_val_nonneg.
  - destruct b as [ sb | sb | | sb mb eb ]; try congruence.
    + cbn [mag_val] in H. pose proof overflow_level_pos. lia.
    + cbn. lia.
    + pose proof (mag_val_finite sb mb eb Vb). cbn [mag_val] in *. lia.
  - destruct b as [ sb | sb | | sb mb eb ]; try congruence.
    + pose proof (mag_val_finite sa ma ea Va). cbn [mag_val] in *. lia.
    + destruct (SFmul_finite sa false ma mk ea ek Va K_valid) as [_ [_ ->]].
      apply round_to_grid_le_overflow_level.
    + apply SFmul_mag_mono; try assumption. lia.
Qed.

Lemma mul_const_sval (a b : spec_float) :
  valid a = true -> valid b = true -> not_nan a -> not_nan b ->
  sval a <= sval b -> sval (SF64mul a K) <= sval (SF64mul b K).
Proof.
  exact (sval_mono (fun a => SF64mul a K)
           mul_const_sign mul_const_zero mul_const_mag a b).
Qed.

(** [x / k] for a positive finite constant [k]. *)
Lemma div_const_not_nan (a : spec_float) :
  valid a = true -> not_nan a -> not_nan (SF64div a K).
Proof.
  intros Va Na. destruct a as [ s | s | | s m e ]; try congruence;
    try (unfold not_nan; cbn; discriminate).
  apply (SFdiv_finite s false m mk e ek).
Qed.

Lemma div_const_sign (a : spec_float) :
  valid a = true -> not_nan a -> sign_of (SF64div a K) = sign_of a.
Proof.
  intros Va Na. destruct a as [ s | s | | s m e ]; try congruence;
    try (cbn; apply xorb_false_r).
  destruct (SFdiv_finite s false m mk e ek) as [_ [-> _]].
  apply xorb_false_r.
Qed.

Lemma div_const_zero (a : spec_float) :
  valid a = true -> not_nan a -> mag_val a = 0 -> mag_val (SF64div a K) = 0.
Proof.
  intros Va Na H. destruct (mag_zero a Va Na H) as [s ->]. reflexivity.
Qed.

Lemma div_const_mag (a b : spec_float) :
  valid a = true -> valid b = true -> not_nan a -> not_nan b ->
  mag_val a <= mag_val b ->
  mag_val (SF64div a K) <= mag_val (SF64div b K).
Proof.
  intros Va Vb Na Nb H.
  destruct a as [ sa | sa | | sa ma ea ]; try congruence.
  - apply mag_val_nonneg.
  - destruct b as [ sb | sb | | sb mb eb ]; try congruence.
    + cbn [mag_val] in H. pose proof overflow_level_pos. lia.
    + cbn. lia.
    + pose proof (mag_val_finite sb mb eb Vb). cbn [mag_val] in *. lia.
  - destruct b as [ sb | sb | | sb mb eb ]; try congruence.
    + pose proof (mag_val_finite sa ma ea Va). cbn [mag_val] in *. lia.
    + destruct (SFdiv_finite sa false ma mk ea ek) as [_ [_ ->]].
      apply round_to_grid_le_overflow_level.
    + apply SFdiv_mag_mono; assumption.
Qed.

Lemma div_const_sval (a b : spec_float) :
  valid a = true -> valid b = true -> not_nan a -> not_nan b ->
  sval a <= sval b -> sval (SF64div a K) <= sval (SF64div b K).
Proof.
  exact (sval_mono (fun a => SF64div a K)
           div_const_sign div_const_zero div_const_mag a b).
Qed.

End ByConstant.

(** *** The order of floats *)

Local Open Scope float_scope.

Lemma leb_iff (x y : float) :
  (x <=? y) = true <->
  not_nan (Prim2SF x) /\ not_nan (Prim2SF y)
  /\ (sval (Prim2SF x) <= sval (Prim2SF y))%Z.
Proof.
  rewrite leb_spec. unfold SFleb.
  pose proof (Prim2SF_valid x) as Vx. pose proof (Prim2SF_valid y) as Vy.
  destruct (Prim2SF x) as [ sx | sx | | sx mx ex ] eqn:Ex;
    try (cbn [SFcompare]; split; [ discriminate | intros [H _]; now elim H ]);
    destruct (Prim2SF y) as [ sy | sy | | sy my ey ] eqn:Ey;
    try (cbn [SFcompare]; split;
         [ discriminate | intros [_ [H _]]; now elim H ]).
  all: rewrite SFcompare_sval by (assumption || discriminate).
  all: match goal with
       | |- context [ (?a ?= ?b)%Z ] =>
           destruct (a ?= b)%Z eqn:C;
           rewrite ?Z.compare_eq_iff, ?Z.compare_lt_iff, ?Z.compare_gt_iff in C
       end.
  all: split; [ intros H | intros [_ [_ H]] ];
       try discriminate; try reflexivity;
       try (split; [ discriminate | split; [ discriminate | lia ] ]);
       try lia.
Qed.

Lemma SFmul_comm (a b : spec_float) : SF64mul a b = SF64mul b a.
Proof.
  destruct a as [ sa | sa | | sa ma ea ]; destruct b as [ sb | sb | | sb mb eb ];
    cbn; try reflexivity; try (rewrite xorb_comm; reflexivity).
  unfold SF64mul, SFmul.
  rewrite xorb_comm, Pos.mul_comm, Z.add_comm. reflexivity.
Qed.

Section FloatByConstant.

Variables (k : float) (mk : positive) (ek : Z).
Hypothesis k_finite : Prim2SF k = S754_finite false mk ek.

Lemma k_valid : valid (S754_finite false mk ek) = true.
Proof. rewrite <- k_finite. apply Prim2SF_valid. Qed.

Theorem mul_const_mono (x1 x2 : float) :
  (x1 <=? x2) = true -> (x1 * k <=? x2 * k) = true.
Proof.
  rewrite !leb_iff, !mul_spec, k_finite.
  intros [N1 [N2 H]].
  pose proof (Prim2SF_valid x1) as V1. pose proof (Prim2SF_valid x2) as V2.
  split; [ apply mul_const_not_nan; auto using k_valid | ].
  split; [ apply mul_const_not_nan; auto using k_valid | ].
  apply mul_const_sval; auto using k_valid.
Qed.

Theorem const_mul_mono (x1 x2 : float) :
  (x1 <=? x2) = true -> (k * x1 <=? k * x2) = true.
Proof.
  intros H. apply mul_const_mono in H.
  rewrite leb_iff in *. rewrite !mul_spec in *.
  rewrite (SFmul_comm (Prim2SF k) (Prim2SF x1)).
  rewrite (SFmul_comm (Prim2SF k) (Prim2SF x2)). exact H.
Qed.

Theorem div_const_mono (x1 x2 : float) :
  (x1 <=? x2) = true -> (x1 / k <=? x2 / k) = true.
Proof.
  rewrite !leb_iff, !div_spec, k_finite.
  intros [N1 [N2 H]].
  pose proof (Prim2SF_valid x1) as V1. pose proof (Prim2SF_valid x2) as V2.
  split; [ apply div_const_not_nan; auto | ].
  split; [ apply div_const_not_nan; auto | ].
  apply div_const_sval; auto using k_valid.
Qed.

End FloatByConstant.

(** The square of a float that is not a NaN. *)
Lemma square_value (a : spec_float) :
  valid a = true -> not_nan a ->
  not_nan (SF64mul a a) /\ sign_of (SF64mul a a) = false.
Proof.
  intros Va Na. destruct a as [ s | s | | s m e ]; try congruence.
  - split; [ discriminate | cbn; apply xorb_nilpotent ].
  - split; [ discriminate | cbn; apply xorb_nilpotent ].
  - destruct (SFmul_finite s s m m e e Va Va) as [H1 [H2 _]].
    split; [ exact H1 | rewrite H2; apply xorb_nilpotent ].
Qed.

Lemma square_mag (a b : spec_float) :
  valid a = true -> valid b = true -> not_nan a -> not_nan b ->
  (mag_val a <= mag_val b)%Z ->
  (mag_val (SF64mul a a) <= mag_val (SF64mul b b))%Z.
Proof.
  intros Va Vb Na Nb H.
  destruct a as [ sa | sa | | sa ma ea ]; try congruence.
  - apply mag_val_nonneg.
  - destruct b as [ sb | sb | | sb mb eb ]; try congruence.
    + cbn [mag_val] in H. pose proof overflow_level_pos. lia.
    + cbn. lia.
    + pose proof (mag_val_finite sb mb eb Vb). cbn [mag_val] in *. lia.
  - destruct b as [ sb | sb | | sb mb eb ]; try congruence.
    + pose proof (mag_val_finite sa ma ea Va). cbn [mag_val] in *. lia.
    + destruct (SFmul_finite sa sa ma ma ea ea Va Va) as [_ [_ ->]].
      apply round_to_grid_le_overflow_level.
    + apply SFmul_mag_mono; assumption.
Qed.

Theorem square_mono (x1 x2 : float) :
  (0 <=? x1) = true -> (x1 <=? x2) = true -> (x1 * x1 <=? x2 * x2) = true.
Proof.
  rewrite !leb_iff, !mul_spec.
  intros [_ [_ H0]] [N1 [N2 H]].
  pose proof (Prim2SF_valid x1) as V1. pose proof (Prim2SF_valid x2) as V2.
  change (sval (Prim2SF 0)) with 0%Z in H0.
  destruct (square_value _ V1 N1) as [M1 S1].
  destruct (square_value _ V2 N2) as [M2 S2].
  split; [ exact M1 | ]. split; [ exact M2 | ].
  unfold sval in *. rewrite S1, S2.
  apply square_mag; try assumption.
  pose proof (mag_val_nonneg (Prim2SF x1)).
  pose proof (mag_val_nonneg (Prim2SF x2)).
  destruct (sign_of (Prim2SF x1)); destruct (sign_of (Prim2SF x2)); lia.
Qed.

(** *** The flow rate and the friction loss *)

Lemma finite_1000 : exists mk ek, Prim2SF 1000 = S754_finite false mk ek.
Proof. vm_compute. eauto. Qed.

Lemma finite_86400 : exists mk ek, Prim2SF 86400 = S754_finite false mk ek.
Proof. vm_compute. eauto. Qed.

Lemma finite_0_1 : exists mk ek, Prim2SF 0.1 = S754_finite false mk ek.
Proof. vm_compute. eauto. Qed.

Theorem flow_rate_mono (c1 c2 : float) :
  (c1 <=? c2) = true ->
  (c1 * 1000 / 86400 <=? c2 * 1000 / 86400) = true.
Proof.
  intros H.
  destruct finite_1000 as [m1 [e1 E1]].
  destruct finite_86400 as [m2 [e2 E2]].
  apply (div_const_mono 86400 m2 e2 E2).
  apply (mul_const_mono 1000 m1 e1 E1).
  exact H.
Qed.

Local Close Scope float_scope.
Local Close Scope Z_scope.

(** ** The head calculator *)

Section HeadCalculator.

Local Open Scope Q_scope.

(** The binary64 calculator returns exactly when [x ** 2] and [math.ceil]
    do, and then with the values of the source's expressions; its only other
    outcome is the exception of one of the two. *)
Lemma binary64_calculate_pump_head_cases (v h b p c : float) :
  let flow := (c * 1000 / 86400)%float in
  let unrounded :=
    (v + ((v + h) * 0.083 * 0.8 + 0.1 * (flow * flow)) + b + p * 10)%float in
  Binary64.calculate_pump_head v h b p c =
  match Binary64.pow_2 flow with
  | Ok _ =>
      match Binary64.ceil unrounded with
      | Ok n =>
          Ok (flow, (0.1 * (flow * flow))%float,
              ((v + h) * 0.083 * 0.8 + 0.1 * (flow * flow))%float, n,
              (p * 10)%float, unrounded)
      | Raise e => Raise e
      end
  | Raise e => Raise e
  end.
Proof.
  intros flow unrounded.
  unfold Binary64.calculate_pump_head, Binary64.truediv.
  change (24 * 60 * 60)%float with 86400%float.
  change (86400 =? 0)%float with false. cbv iota.
  unfold bind. fold flow.
  destruct (Binary64.pow_2 flow) as [sq | e] eqn:Epow; [ | reflexivity ].
  apply pow_2_returns in Epow. subst sq.
  fold unrounded.
  destruct (Binary64.ceil unrounded); reflexivity.
Qed.

Lemma exact_calculate_pump_head_returns (v h b p c : Q) :
  Exact.calculate_pump_head v h b p c =
  Ok (c * 1000 / 86400,
      0.1 * (c * 1000 / 86400) ^ 2,
      (v + h) * 0.083 * 0.8 + 0.1 * (c * 1000 / 86400) ^ 2,
      Qceiling (v + ((v + h) * 0.083 * 0.8 + 0.1 * (c * 1000 / 86400) ^ 2)
                + b + p * 10),
      p * 10,
      v + ((v + h) * 0.083 * 0.8 + 0.1 * (c * 1000 / 86400) ^ 2) + b + p * 10).
Proof. reflexivity. Qed.

(** C6.  On the input 66, 109, 5, 3.5, 100 the calculator gives a flow rate
    of 125/108 = 1.1574..., a flow friction loss of about 0.134, a static
    friction loss of 11.62, a total friction loss of about 11.754, a pressure
    head of 35, an unrounded total head of about 117.75, and a total head of
    118.  The first part is the exact result, each approximate figure being
    met to half a unit of its last digit; the second part is the binary64
    result, digit for digit. *)
Theorem worked_example :
  (exists r : results Q,
     Exact.calculate_pump_head 66 109 5 3.5 100 = Ok r
     /\ flow_rate_lps r == 125 # 108
     /\ 1.1574 <= flow_rate_lps r < 1.1575
     /\ 0.1335 <= flow_friction_loss r <= 0.1345
     /\ total_friction_loss r - flow_friction_loss r == 11.62
     /\ 11.7535 <= total_friction_loss r <= 11.7545
     /\ pressure_head_meters r == 35
     /\ 117.745 <= total_head_unrounded r <= 117.755
     /\ total_head r = 118%Z)
  /\
  Binary64.calculate_pump_head 66 109 5 3.5 100
  = Ok (1.1574074074074074, 0.13395919067215364, 11.753959190672155,
        118%Z, 35, 117.75395919067216)%float.
Proof.
  split.
  - eexists. split; [ apply exact_calculate_pump_head_returns | ].
    cbn [flow_rate_lps flow_friction_loss total_friction_loss total_head
         pressure_head_meters total_head_unrounded].
    repeat split; vm_compute; try reflexivity; discriminate.
  - vm_compute. reflexivity.
Qed.

End HeadCalculator.

(** ** The pump matcher *)

Section PumpMatcher.

Variable total_head : Z.

Lemma meets_b_iff (r : pump) : meets_b total_head r = true <-> meets total_head r.
Proof.
  unfold meets_b, meets. destruct (Min_Head_m r) as [q | | s].
  - rewrite Qle_bool_iff. split.
    + intros H. exists q. auto.
    + intros [q' [E H]]. injection E as ->. exact H.
  - split; [ discriminate | intros [q [E _]]; discriminate ].
  - split; [ discriminate | intros [q [E _]]; discriminate ].
Qed.




Lemma filter_kept_in_order {A : Type} (f : A -> bool) (l : list A) :
  kept_in_order (filter f l) l.
Proof.
  induction l as [ | x l IH ]; simpl.
  - constructor.
  - destruct (f x); constructor; exact IH.
Qed.



End PumpMatcher.



(** ** The catalogue loader *)

Section CatalogueLoader.







End CatalogueLoader.

(** ** The script *)

Section Script.

(** The loader never raises, and writes at most one error message. *)
Lemma load_pump_data_returns (f : csv_file) :
  exists df : DataFrame,
    fst (load_pump_data f) = Ok df
    /\ (snd (load_pump_data f) = []
        \/ df = [] /\ exists msg, snd (load_pump_data f) = [st_error msg]).
Proof.
  unfold load_pump_data.
  destruct (bind (read_csv f) (fun df => add_min_head df)) as [df | e].
  - exists df. auto.
  - exists []. destruct e; simpl; (split; [ reflexivity | ]);
      right; (split; [ reflexivity | ]); eexists; reflexivity.
Qed.

Lemma load_pump_data_no_call (f : csv_file) :
  ~ calls_calculator (snd (load_pump_data f)).
Proof.
  intros [v [h [b [p [c H]]]]].
  destruct (load_pump_data_returns f) as [df [_ [E | [_ [msg E]]]]];
    rewrite E in H; simpl in H.
  - exact H.
  - destruct H as [H | H]; [ discriminate | exact H ].
Qed.

(** With an empty catalogue the trigger writes one error and nothing else. *)
Lemma script_on_empty_catalogue (w : world) (capacity : Q) :
  fst (load_pump_data (pumps_csv w)) = Ok [] ->
  stp_capacity w = Ok capacity ->
  button w = true ->
  script w = (snd (load_pump_data (pumps_csv w)) ++ [not_loaded])%list.
Proof.
  unfold script. intros Hl Hc Hb.
  destruct (load_pump_data (pumps_csv w)) as [loaded page]. simpl in *.
  subst loaded. rewrite Hc, Hb. reflexivity.
Qed.

Lemma no_call_on_empty_catalogue (w : world) (capacity : Q) :
  fst (load_pump_data (pumps_csv w)) = Ok [] ->
  stp_capacity w = Ok capacity ->
  button w = true ->
  ~ calls_calculator (script w).
Proof.
  intros Hl Hc Hb.
  rewrite (script_on_empty_catalogue w capacity Hl Hc Hb).
  intros [v [h [b [p [c H]]]]].
  apply in_app_or in H. destruct H as [H | H].
  - apply (load_pump_data_no_call (pumps_csv w)). do 5 eexists. exact H.
  - simpl in H. destruct H as [H | H]; [ discriminate | exact H ].
Qed.

(** With a catalogue that has rows, the capacity read from the sheet goes to
    the calculator as it is. *)
Lemma selected_capacity_reaches_calculator (w : world) (capacity : Q)
    (pump_data : DataFrame) :
  fst (load_pump_data (pumps_csv w)) = Ok pump_data ->
  empty pump_data = false ->
  stp_capacity w = Ok capacity ->
  button w = true ->
  In (calculate_pump_head_called (vertical_height w) (horizontal_distance w)
        (bends_fittings_loss w) (pressure_head_kgcm2 w) capacity)
     (script w).
Proof.
  unfold script. intros Hl He Hc Hb.
  destruct (load_pump_data (pumps_csv w)) as [loaded page]. simpl in *.
  subst loaded. rewrite Hc, Hb.
  apply in_or_app. right. unfold on_click. rewrite He. left. reflexivity.
Qed.

(** C7, as the code has it.  When the loaded catalogue is empty, the trigger
    writes the error "Pump data not loaded" after the loader's own message,
    if any; it does not call the calculator and writes no warning.  The
    matcher's expression, applied to an empty catalogue, gives the empty
    catalogue for every total head and does not raise. *)
Theorem empty_catalogue_is_reported_as_error :
  forall (w : world) (capacity : Q),
    fst (load_pump_data (pumps_csv w)) = Ok [] ->
    stp_capacity w = Ok capacity ->
    button w = true ->
    script w = (snd (load_pump_data (pumps_csv w)) ++ [not_loaded])%list
    /\ ~ calls_calculator (script w)
    /\ (forall msg, ~ In (st_warning msg) (script w))
    /\ (forall total_head : Z, suitable_pumps [] total_head = Ok []).
Proof.
  intros w capacity Hl Hc Hb.
  pose proof (script_on_empty_catalogue w capacity Hl Hc Hb) as E.
  split; [ exact E | ].
  split; [ exact (no_call_on_empty_catalogue w capacity Hl Hc Hb) | ].
  split; [ | reflexivity ].
  intros msg H. rewrite E in H.
  apply in_app_or in H. destruct H as [H | H].
  - destruct (load_pump_data_returns (pumps_csv w))
      as [df [_ [E' | [_ [msg' E']]]]]; rewrite E' in H; simpl in H.
    + exact H.
    + destruct H as [H | H]; [ discriminate | exact H ].
  - simpl in H. destruct H as [H | H]; [ discriminate | exact H ].
Qed.

Lemma empty_catalogue_is_reported_as_error_witness :
  script (sample_world (Table []) (Sheet [Some 100%Q])) = [not_loaded].
Proof.
  apply (proj1 (empty_catalogue_is_reported_as_error
                  (sample_world (Table []) (Sheet [Some 100%Q])) 100%Q
                  eq_refl eq_refl eq_refl)).
Defined.

(** C7, as it is worded, fails on a catalogue file that has a header and no
    rows: the calculation does not go ahead, and what is written is an
    error, not a warning. *)
Lemma empty_catalogue_stops_the_calculation :
  fst (load_pump_data (Table [])) = Ok []
  /\ script (sample_world (Table []) (Sheet [Some 100%Q])) = [not_loaded]
  /\ ~ calls_calculator (script (sample_world (Table []) (Sheet [Some 100%Q])))
  /\ ~ (exists msg,
          In (st_warning msg)
             (script (sample_world (Table []) (Sheet [Some 100%Q]))))
  /\ (exists msg,
        In (st_error msg)
           (script (sample_world (Table []) (Sheet [Some 100%Q])))).
Proof.
  assert (E : script (sample_world (Table []) (Sheet [Some 100%Q]))
              = [not_loaded]) by reflexivity.
  rewrite E.
  split; [ reflexivity | ]. split; [ reflexivity | ].
  split; [ | split ].
  - intros [v [h [b [p [c [H | H]]]]]]; [ discriminate | exact H ].
  - intros [msg [H | H]]; [ discriminate | exact H ].
  - eexists. left. reflexivity.
Qed.

(** C8 at a sheet whose capacity column holds 0: the script selects 0 and
    calls the calculator with it; nothing on the way rejects the value. *)
Theorem zero_capacity_reaches_calculator :
  stp_capacity
    (sample_world (Table [sample_row "P-150" "[150, 180]"]) (Sheet [Some 0%Q]))
  = Ok 0%Q
  /\ In (calculate_pump_head_called 66 109 5 3.5 0)
        (script (sample_world (Table [sample_row "P-150" "[150, 180]"])
                              (Sheet [Some 0%Q]))).
Proof.
  split; [ reflexivity | ].
  apply (selected_capacity_reaches_calculator
           (sample_world (Table [sample_row "P-150" "[150, 180]"])
                         (Sheet [Some 0%Q]))
           0%Q
           [sample_pump "P-150" (Str "[150, 180]") (Num 150)]);
    reflexivity.
Qed.

(** C9, as the code has it.  When [pumps.csv] is missing, the loader does not
    fail: it writes the error "pumps.csv not found" and returns the empty
    catalogue.  The trigger then writes the error "Pump data not loaded" and
    calls neither the calculator nor the matcher, so the action is
    blocked. *)
Theorem missing_catalogue_is_reported_and_blocks :
  forall w : world,
    pumps_csv w = Absent ->
    load_pump_data (pumps_csv w) = (Ok [], [not_found])
    /\ (forall capacity : Q,
          stp_capacity w = Ok capacity ->
          button w = true ->
          script w = [not_found; not_loaded]
          /\ ~ calls_calculator (script w)).
Proof.
  intros w Hw.
  assert (E : load_pump_data (pumps_csv w) = (Ok [], [not_found]))
    by (rewrite Hw; reflexivity).
  split; [ exact E | ].
  intros capacity Hc Hb.
  assert (Hl : fst (load_pump_data (pumps_csv w)) = Ok [])
    by (rewrite E; reflexivity).
  split.
  - rewrite (script_on_empty_catalogue w capacity Hl Hc Hb), E. reflexivity.
  - exact (no_call_on_empty_catalogue w capacity Hl Hc Hb).
Qed.

Lemma missing_catalogue_is_reported_and_blocks_witness :
  script (sample_world Absent (Sheet [Some 100%Q])) = [not_found; not_loaded].
Proof.
  apply (proj2 (missing_catalogue_is_reported_and_blocks
                  (sample_world Absent (Sheet [Some 100%Q])) eq_refl)
               100%Q eq_refl eq_refl).
Defined.

(** C9, as it is worded, fails: on a missing file the loader returns a
    catalogue value, the empty one, and raises nothing. *)
Lemma missing_catalogue_returns_empty_frame :
  fst (load_pump_data Absent) = Ok []
  /\ ~ (exists e : exn, fst (load_pump_data Absent) = Raise e).
Proof.
  split; [ reflexivity | ].
  intros [e H]. discriminate.
Qed.

End Script.

(** * Further properties

    What the code shows beyond the specification's statements: the loader
    row by row, the matcher as the required head varies, the select box and
    the runs of the script, the order and the signs of the calculator's
    values on binary64, and the bars of the breakdown. *)

(** ** The catalogue loader, row by row *)

Lemma elements_raises (pieces : list (list ascii)) (e : exn) :
  elements pieces = Raise e -> e = LiteralError.
Proof.
  induction pieces as [ | p ps IH ]; simpl.
  - discriminate.
  - destruct p as [ | c p ].
    + destruct ps as [ | p' ps ]; [ discriminate | ].
      simpl. congruence.
    + destruct (numeral (c :: p)); [ | congruence ].
      destruct (elements ps); simpl; [ discriminate | ].
      intros H. injection H as <-. apply IH. reflexivity.
Qed.

Lemma literal_eval_raises (s : string) (e : exn) :
  literal_eval s = Raise e -> e = LiteralError.
Proof.
  unfold literal_eval.
  destruct (strip (list_ascii_of_string s)) as [ | c body ]; [ congruence | ].
  destruct (c =? "[")%char; [ | congruence ].
  destruct (rev body) as [ | d ydob ]; [ congruence | ].
  destruct (d =? "]")%char; [ | congruence ].
  apply elements_raises.
Qed.

(** The lambda of the loader raises on a bracketed text only: what
    [ast.literal_eval] rejects, or the empty display, which has no first
    item. *)
Lemma min_head_raises (x : cell) (e : exn) :
  min_head x = Raise e ->
  exists s, x = Str s /\ startswith s "[" = true
            /\ (e = LiteralError /\ literal_eval s = Raise LiteralError
                \/ e = IndexError /\ literal_eval s = Ok []).
Proof.
  destruct x as [ q | | s ]; try discriminate.
  unfold min_head.
  destruct (startswith s "[") eqn:Es; [ | discriminate ].
  intros H. exists s. split; [ reflexivity | ]. split; [ exact Es | ].
  destruct (literal_eval s) as [ l | e' ] eqn:El; simpl in H.
  - destruct l as [ | a l ]; simpl in H; [ | discriminate ].
    right. split; congruence.
  - left. pose proof (literal_eval_raises s e' El). subst e'.
    split; congruence.
Qed.

Lemma add_min_head_raises (rows : list csv_row) (e : exn) :
  add_min_head rows = Raise e -> e = LiteralError \/ e = IndexError.
Proof.
  induction rows as [ | r rows IH ]; simpl; [ discriminate | ].
  destruct (min_head (csv_Head_m r)) as [ m | e' ] eqn:Em; simpl.
  - destruct (add_min_head rows) as [ df | e' ]; simpl; [ discriminate | ].
    intros H. injection H as <-. apply IH. reflexivity.
  - intros H. injection H as <-.
    destruct (min_head_raises _ _ Em) as [s [_ [_ [[-> _] | [-> _]]]]]; auto.
Qed.

Lemma add_min_head_fails (rows : list csv_row) :
  Exists (fun r => ~ returns (min_head (csv_Head_m r))) rows ->
  exists e, add_min_head rows = Raise e.
Proof.
  induction 1 as [ r rows Hr | r rows _ [e IH] ]; simpl.
  - destruct (min_head (csv_Head_m r)) as [ m | e ]; simpl.
    + exfalso. apply Hr. exists m. reflexivity.
    + eauto.
  - destruct (min_head (csv_Head_m r)) as [ m | e' ]; simpl; [ | eauto ].
    rewrite IH. simpl. eauto.
Qed.

Lemma add_min_head_rows (rows : list csv_row) (df : DataFrame) :
  add_min_head rows = Ok df ->
  recommended_display df = rows
  /\ Forall2 (fun r p => min_head (csv_Head_m r) = Ok (Min_Head_m p)) rows df.
Proof.
  revert df. induction rows as [ | r rows IH ]; simpl; intros df H.
  - injection H as <-. split; constructor.
  - destruct (min_head (csv_Head_m r)) as [ m | e ] eqn:Em; simpl in H;
      [ | discriminate ].
    destruct (add_min_head rows) as [ df' | e ]; simpl in H; [ | discriminate ].
    injection H as <-. destruct (IH df' eq_refl) as [Hd Hm].
    split.
    + simpl. rewrite Hd. destruct r; reflexivity.
    + constructor; [ exact Em | exact Hm ].
Qed.

(** X1.  One head field that cannot be read costs the whole catalogue: when
    some row of the table has a head field on which the loader's lambda
    raises (a bracketed text that [ast.literal_eval] rejects, or the empty
    display [[]], which has no first item), [load_pump_data] writes the
    message "Error loading pump data: ..." and returns the empty catalogue,
    whatever the other rows hold. *)
Theorem one_bad_head_field_empties_the_catalogue (rows : list csv_row) :
  Exists (fun r => ~ returns (min_head (csv_Head_m r))) rows ->
  exists e : exn,
    (e = LiteralError \/ e = IndexError)
    /\ load_pump_data (Table rows)
       = (Ok [], [st_error ("Error loading pump data: " ++ str e)]).
Proof.
  intros H. destruct (add_min_head_fails rows H) as [e E].
  exists e. pose proof (add_min_head_raises rows e E) as He.
  split; [ exact He | ].
  unfold load_pump_data. simpl. rewrite E.
  destruct He as [-> | ->]; reflexivity.
Qed.

Lemma one_bad_head_field_empties_the_catalogue_witness :
  exists e : exn,
    (e = LiteralError \/ e = IndexError)
    /\ load_pump_data
         (Table [sample_row "P-150" "[150, 180]"; sample_row "P-000" "[]"])
       = (Ok [], [st_error ("Error loading pump data: " ++ str e)]).
Proof.
  apply (one_bad_head_field_empties_the_catalogue
           [sample_row "P-150" "[150, 180]"; sample_row "P-000" "[]"]).
  apply Exists_cons_tl. apply Exists_cons_hd.
  intros [m H]. discriminate H.
Defined.

(** X2.  Whenever the loader returns a catalogue that has rows, the file was
    a table, it was read without a message, and the catalogue is that table:
    as many rows, in the file's order, the five columns unchanged, and each
    minimum head the value of the lambda on the row's head field. *)
Theorem loaded_catalogue_keeps_the_rows (f : csv_file) (df : DataFrame) :
  fst (load_pump_data f) = Ok df -> df <> [] ->
  exists rows : list csv_row,
    f = Table rows
    /\ snd (load_pump_data f) = []
    /\ recommended_display df = rows
    /\ List.length df = List.length rows
    /\ Forall2 (fun r p => min_head (csv_Head_m r) = Ok (Min_Head_m p)) rows df.
Proof.
  unfold load_pump_data. destruct f as [ | | rows ]; simpl.
  - intros H. injection H as <-. congruence.
  - intros H. injection H as <-. congruence.
  - destruct (add_min_head rows) as [ df' | e ] eqn:E.
    + simpl. intros H Hne. injection H as ->.
      destruct (add_min_head_rows rows df E) as [Hd Hm].
      exists rows. repeat split; try assumption.
      rewrite <- Hd. unfold recommended_display. rewrite List.length_map. reflexivity.
    + destruct e; simpl; intros H; injection H as <-; congruence.
Qed.

Lemma loaded_catalogue_keeps_the_rows_witness :
  exists rows : list csv_row,
    Table [sample_row "P-150" "[150, 180]"; sample_row "P-40" "40 to 50"]
    = Table rows
    /\ snd (load_pump_data
              (Table [sample_row "P-150" "[150, 180]"; sample_row "P-40" "40 to 50"]))
       = []
    /\ recommended_display
         [sample_pump "P-150" (Str "[150, 180]") (Num 150);
          sample_pump "P-40" (Str "40 to 50") (Str "40 to 50")] = rows
    /\ List.length [sample_pump "P-150" (Str "[150, 180]") (Num 150);
               sample_pump "P-40" (Str "40 to 50") (Str "40 to 50")]
       = List.length rows
    /\ Forall2 (fun r p => min_head (csv_Head_m r) = Ok (Min_Head_m p)) rows
         [sample_pump "P-150" (Str "[150, 180]") (Num 150);
          sample_pump "P-40" (Str "40 to 50") (Str "40 to 50")].
Proof.
  apply (loaded_catalogue_keeps_the_rows
           (Table [sample_row "P-150" "[150, 180]"; sample_row "P-40" "40 to 50"])).
  - reflexivity.
  - discriminate.
Defined.

(** ** The matcher as the required head varies *)

Lemma mask_returns_or_type_error (df : DataFrame) (total_head : Z) :
  (Forall (fun r => numeric (Min_Head_m r)) df
   /\ mask df total_head = Ok (map (meets_b total_head) df))
  \/ (Exists (fun r => ~ numeric (Min_Head_m r)) df
      /\ mask df total_head = Raise TypeError).
Proof.
  induction df as [ | r df [[Hn E] | [Hx E]] ]; simpl.
  - left. split; [ constructor | reflexivity ].
  - unfold meets_b at 1. destruct (Min_Head_m r) as [ q | | s ] eqn:Er; simpl.
    + left. split; [ constructor; [ rewrite Er; exact I | exact Hn ] | ].
      rewrite E. reflexivity.
    + left. split; [ constructor; [ rewrite Er; exact I | exact Hn ] | ].
      rewrite E. reflexivity.
    + right. split; [ | reflexivity ].
      apply Exists_cons_hd. rewrite Er. intros F. exact F.
  - right. split; [ apply Exists_cons_tl; exact Hx | ].
    destruct (ge (Min_Head_m r) total_head) as [ b | e ] eqn:Eg; simpl.
    + rewrite E. reflexivity.
    + destruct (Min_Head_m r); simpl in Eg; congruence.
Qed.

Lemma suitable_pumps_cases (df : DataFrame) (total_head : Z) :
  (Forall (fun r => numeric (Min_Head_m r)) df
   /\ suitable_pumps df total_head = Ok (filter (meets_b total_head) df))
  \/ (Exists (fun r => ~ numeric (Min_Head_m r)) df
      /\ suitable_pumps df total_head = Raise TypeError).
Proof.
  unfold suitable_pumps.
  destruct (mask_returns_or_type_error df total_head) as [[Hn E] | [Hx E]];
    rewrite E; simpl.
  - left. split; [ exact Hn | ]. f_equal.
    clear. induction df as [ | r df IH ]; simpl; [ reflexivity | ].
    rewrite IH. reflexivity.
  - right. split; [ exact Hx | reflexivity ].
Qed.

Lemma numeric_or_text (df : DataFrame) :
  Forall (fun r => numeric (Min_Head_m r)) df ->
  Exists (fun r => ~ numeric (Min_Head_m r)) df -> False.
Proof.
  intros Hn Hx. apply Exists_exists in Hx. destruct Hx as [r [Hin Hr]].
  rewrite Forall_forall in Hn. exact (Hr (Hn r Hin)).
Qed.

Lemma meets_b_lower (t1 t2 : Z) (r : pump) :
  (t1 <= t2)%Z -> meets_b t2 r = true -> meets_b t1 r = true.
Proof.
  unfold meets_b. intros Ht. destruct (Min_Head_m r) as [ q | | s ]; auto.
  rewrite !Qle_bool_iff. intros H.
  apply Qle_trans with (inject_Z t2); [ | exact H ].
  rewrite <- Zle_Qle. exact Ht.
Qed.

Lemma filter_kept_in_filter {A : Type} (f g : A -> bool) (l : list A) :
  (forall x, f x = true -> g x = true) ->
  kept_in_order (filter f l) (filter g l).
Proof.
  intros H. induction l as [ | x l IH ]; simpl.
  - constructor.
  - destruct (f x) eqn:Ef.
    + rewrite (H x Ef). constructor. exact IH.
    + destruct (g x); [ constructor | ]; exact IH.
Qed.

Lemma filter_meets_twice (df : DataFrame) (t1 t2 : Z) :
  (t1 <= t2)%Z ->
  filter (meets_b t2) (filter (meets_b t1) df) = filter (meets_b t2) df.
Proof.
  intros Ht. induction df as [ | r df IH ]; simpl; [ reflexivity | ].
  destruct (meets_b t1 r) eqn:B1; simpl.
  - rewrite IH. reflexivity.
  - destruct (meets_b t2 r) eqn:B2; [ | exact IH ].
    rewrite (meets_b_lower t1 t2 r Ht B2) in B1. discriminate.
Qed.

(** X3.  Whether the matcher raises depends on the catalogue only, not on
    the required head: the comparison returns exactly when every minimum
    head is a number or a missing value, and it raises, then [TypeError],
    exactly when some minimum head is text. *)
Theorem matcher_raises_exactly_on_text (df : DataFrame) (total_head : Z) :
  (returns (suitable_pumps df total_head)
   <-> Forall (fun r => numeric (Min_Head_m r)) df)
  /\ (forall e, suitable_pumps df total_head = Raise e
                <-> e = TypeError
                    /\ Exists (fun r => ~ numeric (Min_Head_m r)) df).
Proof.
  destruct (suitable_pumps_cases df total_head) as [[Hn E] | [Hx E]];
    rewrite E; split.
  - split; [ intros _; exact Hn | intros _; eexists; reflexivity ].
  - intros e. split; [ discriminate | ].
    intros [_ Hx]. exfalso. exact (numeric_or_text df Hn Hx).
  - split.
    + intros [s Hs]. discriminate.
    + intros Hn. exfalso. exact (numeric_or_text df Hn Hx).
  - intros e. split.
    + intros H. injection H as <-. auto.
    + intros [-> _]. reflexivity.
Qed.

(** X4.  A higher required head never adds a pump: for [t1 <= t2] the pumps
    suitable for [t2] are among those suitable for [t1], in the same order;
    there are no more of them; and matching the pumps suitable for [t1]
    against [t2] gives the pumps suitable for [t2]. *)
Theorem higher_head_never_adds_pumps (df : DataFrame) (t1 t2 : Z) :
  (t1 <= t2)%Z ->
  forall s1 s2 : DataFrame,
    suitable_pumps df t1 = Ok s1 ->
    suitable_pumps df t2 = Ok s2 ->
    kept_in_order s2 s1
    /\ (List.length s2 <= List.length s1)%nat
    /\ suitable_pumps s1 t2 = Ok s2.
Proof.
  intros Ht s1 s2 E1 E2.
  destruct (suitable_pumps_cases df t1) as [[Hn F1] | [_ F1]];
    rewrite F1 in E1; [ | discriminate ].
  destruct (suitable_pumps_cases df t2) as [[_ F2] | [_ F2]];
    rewrite F2 in E2; [ | discriminate ].
  injection E1 as <-. injection E2 as <-.
  assert (K : kept_in_order (filter (meets_b t2) df) (filter (meets_b t1) df))
    by (apply filter_kept_in_filter; intros r; apply meets_b_lower; exact Ht).
  split; [ exact K | ]. split.
  - clear - K. induction K; simpl; lia.
  - destruct (suitable_pumps_cases (filter (meets_b t1) df) t2)
      as [[_ G] | [Hx _]].
    + rewrite G, (filter_meets_twice df t1 t2 Ht). reflexivity.
    + exfalso. apply Exists_exists in Hx. destruct Hx as [r [Hin Hr]].
      apply filter_In in Hin. destruct Hin as [Hin _].
      rewrite Forall_forall in Hn. exact (Hr (Hn r Hin)).
Qed.

Lemma higher_head_never_adds_pumps_witness :
  kept_in_order
    [sample_pump "P-150" (Str "[150, 180]") (Num 150)]
    [sample_pump "P-150" (Str "[150, 180]") (Num 150);
     sample_pump "P-118" (Str "[118, 130]") (Num 118)]
  /\ (1 <= 2)%nat
  /\ suitable_pumps
       [sample_pump "P-150" (Str "[150, 180]") (Num 150);
        sample_pump "P-118" (Str "[118, 130]") (Num 118)] 119
     = Ok [sample_pump "P-150" (Str "[150, 180]") (Num 150)].
Proof.
  apply (higher_head_never_adds_pumps sample_catalogue 118 119);
    [ lia | reflexivity | reflexivity ].
Defined.

Lemma kept_in_order_map {A B : Type} (f : A -> B) (l1 l2 : list A) :
  kept_in_order l1 l2 -> kept_in_order (map f l1) (map f l2).
Proof. induction 1; simpl; constructor; assumption. Qed.

Lemma add_min_head_in (rows : list csv_row) (df : DataFrame) :
  add_min_head rows = Ok df ->
  forall p, In p df -> min_head (Head_m p) = Ok (Min_Head_m p).
Proof.
  revert df. induction rows as [ | r rows IH ]; simpl; intros df H.
  - injection H as <-. intros p [].
  - destruct (min_head (csv_Head_m r)) as [ m | e ] eqn:Em; simpl in H;
      [ | discriminate ].
    destruct (add_min_head rows) as [ df' | e ]; simpl in H; [ | discriminate ].
    injection H as <-. intros p [<- | Hin].
    + exact Em.
    + exact (IH df' eq_refl p Hin).
Qed.

(** X5.  The table of recommended pumps is made of rows of [pumps.csv]: the
    rows shown are rows of the file, in the file's order; each of them has a
    head field whose minimum is a number not below the required head; and
    when the file was loaded without a message, every row of the file with
    such a head field is shown. *)
Theorem recommended_rows_come_from_the_file
    (rows : list csv_row) (df suitable : DataFrame) (total_head : Z) :
  fst (load_pump_data (Table rows)) = Ok df ->
  suitable_pumps df total_head = Ok suitable ->
  kept_in_order (recommended_display suitable) rows
  /\ (forall row, In row (recommended_display suitable) ->
        exists q, min_head (csv_Head_m row) = Ok (Num q)
                  /\ (inject_Z total_head <= q)%Q)
  /\ (snd (load_pump_data (Table rows)) = [] ->
      forall row q, In row rows ->
        min_head (csv_Head_m row) = Ok (Num q) ->
        (inject_Z total_head <= q)%Q ->
        In row (recommended_display suitable)).
Proof.
  intros Hl Hs.
  destruct (suitable_pumps_cases df total_head) as [[Hn F] | [_ F]];
    rewrite F in Hs; [ | discriminate ].
  injection Hs as <-.
  unfold load_pump_data in *. simpl in *.
  destruct (add_min_head rows) as [ df' | e ] eqn:E.
  - simpl in Hl. injection Hl as ->.
    destruct (add_min_head_rows rows df E) as [Hd Hm].
    split; [ | split ].
    + rewrite <- Hd. apply kept_in_order_map, filter_kept_in_order.
    + intros row Hin. apply in_map_iff in Hin. destruct Hin as [p [<- Hp]].
      apply filter_In in Hp. destruct Hp as [Hp Hb]. simpl.
      pose proof (add_min_head_in rows df E p Hp) as Hmin.
      unfold meets_b in Hb. destruct (Min_Head_m p) as [ q | | s ];
        try discriminate.
      exists q. split; [ exact Hmin | apply Qle_bool_iff; exact Hb ].
    + intros _ row q Hin Hmin Hq.
      rewrite <- Hd in Hin. apply in_map_iff in Hin.
      destruct Hin as [p [<- Hp]]. apply in_map_iff. exists p.
      split; [ reflexivity | ]. apply filter_In. split; [ exact Hp | ].
      simpl in Hmin. rewrite (add_min_head_in rows df E p Hp) in Hmin.
      injection Hmin as Hmin. unfold meets_b. rewrite Hmin.
      apply Qle_bool_iff. exact Hq.
  - assert (df = []) by (destruct e; simpl in Hl; congruence). subst df.
    split; [ | split ].
    + simpl. clear. induction rows; constructor; assumption.
    + intros row [].
    + destruct e; simpl; discriminate.
Qed.

Lemma recommended_rows_come_from_the_file_witness :
  kept_in_order
    (recommended_display [sample_pump "P-150" (Str "[150, 180]") (Num 150)])
    [sample_row "P-150" "[150, 180]"; sample_row "P-040" "[40, 60]"]
  /\ (forall row,
        In row (recommended_display
                  [sample_pump "P-150" (Str "[150, 180]") (Num 150)]) ->
        exists q, min_head (csv_Head_m row) = Ok (Num q)
                  /\ (inject_Z 118 <= q)%Q)
  /\ (snd (load_pump_data
             (Table [sample_row "P-150" "[150, 180]";
                     sample_row "P-040" "[40, 60]"])) = [] ->
      forall row q,
        In row [sample_row "P-150" "[150, 180]"; sample_row "P-040" "[40, 60]"] ->
        min_head (csv_Head_m row) = Ok (Num q) ->
        (inject_Z 118 <= q)%Q ->
        In row (recommended_display
                  [sample_pump "P-150" (Str "[150, 180]") (Num 150)])).
Proof.
  apply (recommended_rows_come_from_the_file
           [sample_row "P-150" "[150, 180]"; sample_row "P-040" "[40, 60]"]
           [sample_pump "P-150" (Str "[150, 180]") (Num 150);
            sample_pump "P-040" (Str "[40, 60]") (Num 40)]);
    reflexivity.
Defined.

(** ** The capacity select box *)

Lemma dropna_in (column : list (option Q)) (q : Q) :
  In q (dropna column) <-> In (Some q) column.
Proof.
  induction column as [ | [ x | ] column IH ]; simpl.
  - tauto.
  - rewrite IH. split; intros [H | H]; auto; left; congruence.
  - rewrite IH. split; [ auto | intros [H | H]; [ discriminate | exact H ] ].
Qed.

Lemma unique_in (l : list Q) (q : Q) : In q (unique l) -> In q l.
Proof.
  induction l as [ | x l IH ]; simpl; [ tauto | ].
  intros [H | H]; [ auto | ].
  apply filter_In in H. right. apply IH. tauto.
Qed.

Lemma unique_covers (l : list Q) (q : Q) :
  In q l -> exists q', In q' (unique l) /\ q' == q.
Proof.
  induction l as [ | x l IH ]; simpl; [ tauto | ].
  intros [-> | H].
  - exists q. split; [ auto | reflexivity ].
  - destruct (IH H) as [q' [Hin Hq]].
    destruct (Qeq_bool x q') eqn:E.
    + exists x. split; [ auto | ].
      apply Qeq_bool_iff in E. rewrite E. exact Hq.
    + exists q'. split; [ | exact Hq ].
      right. apply filter_In. rewrite E. auto.
Qed.

Lemma unique_NoDupA (l : list Q) : NoDupA Qeq (unique l).
Proof.
  induction l as [ | x l IH ]; simpl; constructor.
  - intros H. apply InA_alt in H. destruct H as [y [Hxy Hin]].
    apply filter_In in Hin. destruct Hin as [_ Hn].
    apply Qeq_bool_iff in Hxy. rewrite Hxy in Hn. discriminate.
  - clear - IH. induction IH as [ | y l' Hy _ IH' ]; simpl; [ constructor | ].
    destruct (negb (Qeq_bool x y)); [ | exact IH' ].
    constructor; [ | exact IH' ].
    intros H. apply Hy. apply InA_alt in H. destruct H as [z [Hz Hin]].
    apply filter_In in Hin. apply InA_alt. exists z. tauto.
Qed.

Lemma unique_head (l : list Q) : nth_error (unique l) 0 = nth_error l 0.
Proof. destruct l; reflexivity. Qed.

Lemma dropna_first (column : list (option Q)) (q : Q) :
  nth_error (dropna column) 0 = Some q ->
  exists blanks rest,
    column = (blanks ++ Some q :: rest)%list /\ Forall (fun c => c = None) blanks.
Proof.
  induction column as [ | [ x | ] column IH ]; simpl; intros H.
  - discriminate.
  - injection H as ->. exists [], column. split; [ reflexivity | constructor ].
  - destruct (IH H) as [blanks [rest [-> Hb]]].
    exists (None :: blanks), rest. split; [ reflexivity | ].
    constructor; [ reflexivity | exact Hb ].
Qed.

(** X6.  The options of the capacity select box are the values of the
    sheet's column: each option is a cell of the column, each number of the
    column is offered (up to equality of numbers), and no number is offered
    twice.  The capacity that the script reads is a cell of the column; with
    the box at its first option it is the first cell that is not blank. *)
Theorem capacity_options_are_the_sheet_values (column : list (option Q)) :
  let stp_options := unique (dropna column) in
  (forall q, In q stp_options -> In (Some q) column)
  /\ (forall q, In (Some q) column -> exists q', In q' stp_options /\ q' == q)
  /\ NoDupA Qeq stp_options
  /\ (forall w c,
        stp_output_summary_xlsx w = Sheet column ->
        stp_capacity w = Ok c ->
        In (Some c) column
        /\ (selected_index w = O ->
            exists blanks rest,
              column = (blanks ++ Some c :: rest)%list
              /\ Forall (fun x => x = None) blanks)).
Proof.
  intros stp_options. split; [ | split; [ | split ] ].
  - intros q H. apply dropna_in, unique_in, H.
  - intros q H. apply unique_covers, dropna_in, H.
  - apply unique_NoDupA.
  - intros w c Hw Hc. unfold stp_capacity in Hc. rewrite Hw in Hc.
    simpl in Hc. unfold selectbox in Hc. fold stp_options in Hc.
    destruct (nth_error stp_options (selected_index w)) as [ q | ] eqn:En;
      simpl in Hc; [ | discriminate ].
    injection Hc as ->. split.
    + apply dropna_in, unique_in. eapply nth_error_In. exact En.
    + intros H0. rewrite H0 in En. unfold stp_options in En.
      rewrite unique_head in En. apply dropna_first. exact En.
Qed.

Lemma capacity_options_are_the_sheet_values_witness :
  In (Some 250%Q) [None; Some 250%Q; Some 100%Q; Some 250%Q]
  /\ (selected_index
        (sample_world (Table []) (Sheet [None; Some 250%Q; Some 100%Q; Some 250%Q]))
      = O ->
      exists blanks rest,
        [None; Some 250%Q; Some 100%Q; Some 250%Q]
        = (blanks ++ Some 250%Q :: rest)%list
        /\ Forall (fun x => x = None) blanks).
Proof.
  apply (proj2 (proj2 (proj2 (capacity_options_are_the_sheet_values
                                [None; Some 250%Q; Some 100%Q; Some 250%Q])))
           (sample_world (Table [])
              (Sheet [None; Some 250%Q; Some 100%Q; Some 250%Q])));
    reflexivity.
Defined.

(** ** Runs of the script *)

Lemma script_unfold (w : world) :
  exists df : DataFrame,
    fst (load_pump_data (pumps_csv w)) = Ok df
    /\ script w
       = (snd (load_pump_data (pumps_csv w)) ++
          match stp_capacity w with
          | Raise FileNotFoundError =>
              [st_error "❌ 'stp_output_summary.xlsx' not found. Please generate the file first.";
               st_stop]
          | Raise e =>
              [st_error ("⚠️ Failed to load STP Capacity from Excel: " ++ str e);
               st_stop]
          | Ok capacity =>
              if button w then on_click df w capacity else []
          end)%list.
Proof.
  destruct (load_pump_data_returns (pumps_csv w)) as [df [E _]].
  exists df. split; [ exact E | ].
  unfold script. destruct (load_pump_data (pumps_csv w)) as [loaded page].
  simpl in *. subst loaded. reflexivity.
Qed.

Lemma calls_calculator_app (l1 l2 : list event) :
  calls_calculator (l1 ++ l2) <-> calls_calculator l1 \/ calls_calculator l2.
Proof.
  unfold calls_calculator. split.
  - intros [v [h [b [p [c H]]]]]. apply in_app_or in H.
    destruct H; [ left | right ]; eauto 6.
  - intros [[v [h [b [p [c H]]]]] | [v [h [b [p [c H]]]]]];
      exists v, h, b, p, c; apply in_or_app; auto.
Qed.

Lemma stp_capacity_raises (w : world) (e : exn) :
  stp_capacity w = Raise e ->
  (e = FileNotFoundError /\ stp_output_summary_xlsx w = Missing)
  \/ (e = OtherError /\ stp_output_summary_xlsx w = Corrupt)
  \/ (e = TypeError /\ exists column, stp_output_summary_xlsx w = Sheet column).
Proof.
  unfold stp_capacity. destruct (stp_output_summary_xlsx w) as [ | | column ];
    simpl.
  - intros H. injection H as <-. auto.
  - intros H. injection H as <-. auto.
  - destruct (selectbox _ _); simpl; [ discriminate | ].
    intros H. injection H as <-. eauto 6.
Qed.

(** X7.  Without a capacity the run stops before the button: when
    [stp_output_summary.xlsx] is missing, cannot be read, or has only blank
    cells in its capacity column, the script writes one error after the
    loader's messages and stops.  The calculator is not called, whatever the
    button and the catalogue.  The error is the "not found" message when the
    file is missing, and "Failed to load STP Capacity from Excel" with the
    exception's text otherwise. *)
Theorem no_capacity_stops_the_run (w : world) :
  stp_output_summary_xlsx w = Missing
  \/ stp_output_summary_xlsx w = Corrupt
  \/ (exists column, stp_output_summary_xlsx w = Sheet column
                     /\ Forall (fun x => x = None) column) ->
  exists msg : string,
    script w
    = (snd (load_pump_data (pumps_csv w)) ++ [st_error msg; st_stop])%list
    /\ ~ calls_calculator (script w)
    /\ (stp_output_summary_xlsx w = Missing ->
        msg = "❌ 'stp_output_summary.xlsx' not found. Please generate the file first.")
    /\ (stp_output_summary_xlsx w <> Missing ->
        exists detail,
          msg = "⚠️ Failed to load STP Capacity from Excel: " ++ detail).
Proof.
  intros H.
  assert (Hc : exists e, stp_capacity w = Raise e
                 /\ (e = FileNotFoundError <-> stp_output_summary_xlsx w = Missing)
                 /\ (e = FileNotFoundError \/ e = OtherError \/ e = TypeError)).
  { unfold stp_capacity.
    destruct H as [-> | [-> | [column [-> Hb]]]]; simpl.
    - exists FileNotFoundError. repeat split; auto.
    - exists OtherError. repeat split; auto; discriminate.
    - assert (E : dropna column = []).
      { clear - Hb. induction Hb as [ | x column -> _ IH ]; simpl; auto. }
      rewrite E. simpl. unfold selectbox.
      destruct (selected_index w); simpl;
        exists TypeError; repeat split; auto; discriminate. }
  destruct Hc as [e [Ec [Hm He]]].
  destruct (script_unfold w) as [df [_ Es]]. rewrite Ec in Es.
  assert (Hs : exists msg,
             script w = (snd (load_pump_data (pumps_csv w))
                         ++ [st_error msg; st_stop])%list
             /\ (e = FileNotFoundError ->
                 msg = "❌ 'stp_output_summary.xlsx' not found. Please generate the file first.")
             /\ (e <> FileNotFoundError ->
                 exists detail,
                   msg = "⚠️ Failed to load STP Capacity from Excel: " ++ detail)).
  { destruct He as [-> | [-> | ->]]; eexists; (split; [ exact Es | ]);
      split; try (intros; reflexivity); try discriminate;
      try (intros F; now elim F); intros _; eexists; reflexivity. }
  destruct Hs as [msg [Hs [M1 M2]]]. exists msg.
  split; [ exact Hs | ]. split; [ | split ].
  - rewrite Hs. rewrite calls_calculator_app. intros [F | F].
    + exact (load_pump_data_no_call _ F).
    + destruct F as [v [h [b [p [c [F | [F | []]]]]]]]; discriminate.
  - intros Hx. apply M1, Hm, Hx.
  - intros Hx. apply M2. intros F. apply Hx, Hm, F.
Qed.

Lemma no_capacity_stops_the_run_witness :
  exists msg : string,
    script (sample_world (Table [sample_row "P-150" "[150, 180]"])
                         (Sheet [None; None]))
    = [st_error msg; st_stop].
Proof.
  destruct (no_capacity_stops_the_run
              (sample_world (Table [sample_row "P-150" "[150, 180]"])
                            (Sheet [None; None])))
    as [msg [E _]].
  - right. right. exists [None; None]. split; [ reflexivity | ].
    repeat constructor.
  - exists msg. exact E.
Defined.

(** X8.  The calculator is called exactly when the button is pressed, a
    capacity was read and the loaded catalogue has rows.  Its arguments are
    then the values of the four inputs and the capacity read.  With the
    button not pressed, a run that read a capacity writes nothing besides
    the loader's messages. *)
Theorem calculator_is_called_exactly_when (w : world) :
  (calls_calculator (script w)
   <-> button w = true
       /\ returns (stp_capacity w)
       /\ exists df, fst (load_pump_data (pumps_csv w)) = Ok df /\ df <> [])
  /\ (forall v h b p c,
        In (calculate_pump_head_called v h b p c) (script w) ->
        v = vertical_height w /\ h = horizontal_distance w
        /\ b = bends_fittings_loss w /\ p = pressure_head_kgcm2 w
        /\ stp_capacity w = Ok c)
  /\ (button w = false -> returns (stp_capacity w) ->
      script w = snd (load_pump_data (pumps_csv w))).
Proof.
  destruct (script_unfold w) as [df [El Es]].
  assert (Hon : forall c v h b p c',
             In (calculate_pump_head_called v h b p c') (on_click df w c) ->
             df <> [] /\ v = vertical_height w /\ h = horizontal_distance w
             /\ b = bends_fittings_loss w /\ p = pressure_head_kgcm2 w /\ c' = c).
  { intros c v h b p c'. unfold on_click.
    destruct df as [ | r df ]; simpl.
    - intros [F | []]. discriminate.
    - intros [F | F].
      + injection F as <- <- <- <- <-. repeat split; congruence.
      + exfalso.
        destruct (suitable_pumps (r :: df) _) as [ s | e ];
          [ destruct (empty s) | ]; simpl in F;
          repeat (destruct F as [F | F]; [ discriminate | ]); exact F. }
  assert (Hin : forall v h b p c,
             In (calculate_pump_head_called v h b p c) (script w) ->
             button w = true /\ stp_capacity w = Ok c /\ df <> []
             /\ v = vertical_height w /\ h = horizontal_distance w
             /\ b = bends_fittings_loss w /\ p = pressure_head_kgcm2 w).
  { intros v h b p c H. rewrite Es in H. apply in_app_or in H.
    destruct H as [H | H].
    - exfalso. apply (load_pump_data_no_call (pumps_csv w)).
      exists v, h, b, p, c. exact H.
    - destruct (stp_capacity w) as [ c0 | e ].
      + destruct (button w); [ | destruct H ].
        destruct (Hon c0 v h b p c H) as [H1 [H2 [H3 [H4 [H5 H6]]]]].
        subst c. tauto.
      + exfalso. destruct e; simpl in H;
          repeat (destruct H as [H | H]; [ discriminate | ]); exact H. }
  split; [ split | split ].
  - intros [v [h [b [p [c H]]]]]. destruct (Hin v h b p c H) as [Hb [Hc [Hd _]]].
    split; [ exact Hb | ]. split; [ exists c; exact Hc | ].
    exists df. auto.
  - intros [Hb [[c Hc] [df' [El' Hd]]]].
    rewrite El in El'. injection El' as <-.
    exists (vertical_height w), (horizontal_distance w),
           (bends_fittings_loss w), (pressure_head_kgcm2 w), c.
    apply (selected_capacity_reaches_calculator w c df); auto.
    destruct df; [ congruence | reflexivity ].
  - intros v h b p c H. destruct (Hin v h b p c H). tauto.
  - intros Hb [c Hc]. rewrite Es, Hc, Hb. apply app_nil_r.
Qed.

Lemma calculator_is_called_exactly_when_witness :
  script (sample_world (Table [sample_row "P-150" "[150, 180]"])
                       (Sheet [Some 100%Q]))
  <> []
  /\ script {| pumps_csv := Table [sample_row "P-150" "[150, 180]"];
               stp_output_summary_xlsx := Sheet [Some 100%Q];
               vertical_height := 66; horizontal_distance := 109;
               bends_fittings_loss := 5; pressure_head_kgcm2 := 3.5;
               selected_index := 0; button := false |}
     = [].
Proof.
  split; [ discriminate | ].
  apply (proj2 (proj2 (calculator_is_called_exactly_when
           {| pumps_csv := Table [sample_row "P-150" "[150, 180]"];
              stp_output_summary_xlsx := Sheet [Some 100%Q];
              vertical_height := 66; horizontal_distance := 109;
              bends_fittings_loss := 5; pressure_head_kgcm2 := 3.5;
              selected_index := 0; button := false |})));
    [ reflexivity | exists 100%Q; reflexivity ].
Defined.

Lemma add_min_head_succeeds (rows : list csv_row) :
  Forall (fun row => returns (min_head (csv_Head_m row))) rows ->
  exists df, add_min_head rows = Ok df.
Proof.
  induction 1 as [ | r rows [m Hm] _ [df IH] ]; simpl.
  - eauto.
  - rewrite Hm, IH. simpl. eauto.
Qed.

(** ** Sums on binary64 *)

Section FloatSums.

Local Open Scope Z_scope.

(** *** Sums of finite floats *)

Lemma iter_xO (p : positive) (d : positive) :
  Z.pos (Pos.iter xO p d) = Z.pos p * 2 ^ Z.pos d.
Proof.
  change (Pos.iter xO p d) with (shift_pos d p).
  rewrite shift_pos_correct. rewrite Z.pow_pos_fold. apply Z.mul_comm.
Qed.

(** [shl_align] lowers the exponent to [ex'] when that is below [ex], and
    keeps the value. *)
Lemma shl_align_value (mx : positive) (ex ex' : Z) :
  snd (shl_align mx ex ex') = Z.min ex ex'
  /\ Z.pos (fst (shl_align mx ex ex')) = Z.pos mx * 2 ^ (ex - Z.min ex ex').
Proof.
  unfold shl_align. destruct (ex' - ex) as [ | d | d ] eqn:E; cbn [fst snd].
  - split; [ lia | ]. replace (ex - Z.min ex ex') with 0 by lia. lia.
  - split; [ lia | ]. replace (ex - Z.min ex ex') with 0 by lia. lia.
  - split; [ lia | ]. rewrite iter_xO. f_equal. f_equal. lia.
Qed.

Lemma round_to_grid_0 : round_to_grid 0 1 = 0.
Proof. reflexivity. Qed.

Lemma round_to_grid_nonneg (A B : Z) : 0 <= A -> 0 < B -> 0 <= round_to_grid A B.
Proof.
  intros HA HB. rewrite <- round_to_grid_0.
  apply round_to_grid_mono; lia.
Qed.

Lemma round_signed_mono (S1 S2 : Z) : S1 <= S2 -> round_signed S1 <= round_signed S2.
Proof.
  intros H. unfold round_signed.
  destruct (S1 <? 0) eqn:C1; destruct (S2 <? 0) eqn:C2;
    rewrite ?Z.ltb_lt, ?Z.ltb_ge in *.
  - pose proof (round_to_grid_mono (- S2) 1 (- S1) 1). lia.
  - pose proof (round_to_grid_nonneg (- S1) 1). pose proof (round_to_grid_nonneg S2 1).
    lia.
  - lia.
  - apply round_to_grid_mono; lia.
Qed.

Lemma Zdigits2_shift (m k : Z) : 0 < m -> 0 <= k -> Zdigits2 (m * 2 ^ k) = Zdigits2 m + k.
Proof.
  intros Hm Hk.
  pose proof (digits_scale_up m 1 k ltac:(lia) ltac:(lia) Hk) as H.
  rewrite !Z.div_1_r in H. apply H. lia.
Qed.

(** A float is its own rounding. *)
Lemma round_to_grid_valid (s : bool) (m : positive) (e : Z) :
  valid (S754_finite s m e) = true ->
  round_to_grid (mag_val (S754_finite s m e)) 1 = mag_val (S754_finite s m e).
Proof.
  intros Hv. pose proof (mag_val_finite s m e Hv) as Hlt.
  pose proof (Hv) as Hv'. apply valid_finite in Hv'. destruct Hv' as [He [Hm Hn]].
  cbn [mag_val] in *.
  set (k := e - emin64) in *. assert (Hk : 0 <= k) by (unfold k; lia).
  pose proof (pow2_pos k Hk) as HP.
  assert (Hd : Zdigits2 (Z.pos m * 2 ^ k) = Zdigits2 (Z.pos m) + k)
    by (apply Zdigits2_shift; lia).
  assert (Hdm : Zdigits2 (Z.pos m) <= 53)
    by (apply Zdigits2_le; lia).
  assert (HJ : dropped_bits (Z.pos m * 2 ^ k) 1 = k).
  { unfold dropped_bits. rewrite Z.div_1_r, Hd.
    destruct (Z.eq_dec k 0) as [-> | Hne]; [ lia | ].
    specialize (Hn ltac:(unfold k in *; lia)).
    pose proof (digits_ge (Z.pos m) 52 ltac:(lia) Hn). lia. }
  unfold round_to_grid. rewrite HJ, Z.mul_1_r.
  replace (Z.pos m * 2 ^ k) with (2 ^ k * Z.pos m) at 1 by ring.
  replace (2 ^ k) with (2 ^ k * 1) at 2 by ring.
  rewrite nearest_even_scale by lia.
  assert (E : nearest_even (Z.pos m) 1 = Z.pos m).
  { destruct (nearest_even_cases (Z.pos m) 1 ltac:(lia) ltac:(lia))
      as [[_ ->] | [[C _] | [C _]]];
      rewrite ?Z.div_1_r, ?Z.mod_1_r in *; lia. }
  rewrite E. lia.
Qed.

Lemma binary_round_value (s : bool) (p : positive) (ez : Z) :
  emin64 <= ez ->
  let f := binary_round prec emax s p ez in
  f <> S754_nan /\ sign_of f = s
  /\ mag_val f = round_to_grid (Z.pos p * 2 ^ (ez - emin64)) 1.
Proof.
  intros Hez. unfold binary_round.
  set (g := fexp64 (Z.pos (digits2_pos p) + ez)).
  pose proof (shl_align_value p ez g) as [Hsnd Hfst].
  destruct (shl_align p ez g) as [mz e'] eqn:Es. cbn [fst snd] in *.
  assert (Hg : emin64 <= g) by (unfold g; rewrite fexp64_eq; lia).
  assert (He' : emin64 <= e') by lia.
  assert (Hinv : e' <= fexp64 (Zdigits2 (Z.pos mz / 1) + e')).
  { rewrite Z.div_1_r, Hfst, Zdigits2_shift by lia.
    replace (Zdigits2 (Z.pos p) + (ez - Z.min ez g) + e')
      with (Zdigits2 (Z.pos p) + ez) by lia.
    change (Zdigits2 (Z.pos p)) with (Z.pos (digits2_pos p)). fold g. lia. }
  pose proof (binary_round_aux_value s (Z.pos mz) 1 e' ltac:(lia) ltac:(lia) Hinv)
    as Hval.
  cbv zeta in Hval. rewrite Z.div_1_r, Z.mod_1_r, new_location_0 in Hval.
  destruct Hval as [H1 [H2 H3]].
  split; [ exact H1 | ]. split; [ exact H2 | ].
  rewrite H3. unfold numer, denom.
  replace (Z.max 0 (emin64 - e')) with 0 by lia.
  replace (Z.max 0 (e' - emin64)) with (e' - emin64) by lia.
  change (1 * 2 ^ 0) with 1. f_equal.
  rewrite Hfst, <- Z.mul_assoc, <- Z.pow_add_r by lia.
  f_equal. f_equal. lia.
Qed.

Lemma sval_finite (s : bool) (m : positive) (e : Z) :
  sval (S754_finite s m e) = cond_Zopp s (Z.pos m) * 2 ^ (e - emin64).
Proof.
  unfold sval. cbn [sign_of mag_val].
  destruct s; cbn [cond_Zopp]; [ | reflexivity ].
  change (- Z.pos m) with (- (Z.pos m)). ring.
Qed.

Lemma round_signed_valid (a : spec_float) :
  valid a = true -> is_finite a = true -> round_signed (sval a) = sval a.
Proof.
  intros Va Fa. destruct a as [ s | s | | s m e ]; try discriminate.
  - destruct s; reflexivity.
  - pose proof (mag_val_finite s m e Va) as Hpos.
    pose proof (round_to_grid_valid s m e Va) as Hr.
    unfold round_signed, sval. cbn [sign_of].
    destruct s.
    + replace (- mag_val (S754_finite true m e) <? 0) with true
        by (symmetry; apply Z.ltb_lt; lia).
      rewrite Z.opp_involutive, Hr. reflexivity.
    + replace (mag_val (S754_finite false m e) <? 0) with false
        by (symmetry; apply Z.ltb_ge; lia).
      exact Hr.
Qed.

(** The sum of two finite floats is the rounding of the exact sum. *)
Lemma SFadd_finite (a b : spec_float) :
  valid a = true -> valid b = true ->
  is_finite a = true -> is_finite b = true ->
  SF64add a b <> S754_nan
  /\ sval (SF64add a b) = round_signed (sval a + sval b).
Proof.
  intros Va Vb Fa Fb.
  destruct a as [ sa | sa | | sa ma ea ]; try discriminate;
    destruct b as [ sb | sb | | sb mb eb ]; try discriminate.
  - destruct sa; destruct sb; (split; [ discriminate | reflexivity ]).
  - split; [ discriminate | ].
    cbn [SF64add SFadd].
    replace (sval (S754_zero sa)) with 0 by (destruct sa; reflexivity).
    rewrite Z.add_0_l. symmetry. apply round_signed_valid; auto.
  - split; [ discriminate | ].
    cbn [SF64add SFadd].
    replace (sval (S754_zero sb)) with 0 by (destruct sb; reflexivity).
    rewrite Z.add_0_r. symmetry. apply round_signed_valid; auto.
  - pose proof (valid_finite _ _ _ Va) as [Hea _].
    pose proof (valid_finite _ _ _ Vb) as [Heb _].
    unfold SF64add, SFadd.
    set (ez := Z.min ea eb).
    pose proof (shl_align_value ma ea ez) as [_ Hma].
    pose proof (shl_align_value mb eb ez) as [_ Hmb].
    replace (Z.min ea ez) with ez in Hma by (unfold ez; lia).
    replace (Z.min eb ez) with ez in Hmb by (unfold ez; lia).
    set (m := cond_Zopp sa (Z.pos (fst (shl_align ma ea ez)))
              + cond_Zopp sb (Z.pos (fst (shl_align mb eb ez)))).
    assert (Hez : emin64 <= ez) by (unfold ez; lia).
    assert (HS : sval (S754_finite sa ma ea) + sval (S754_finite sb mb eb)
                 = m * 2 ^ (ez - emin64)).
    { rewrite !sval_finite. unfold m.
      assert (Pa : 2 ^ (ea - emin64) = 2 ^ (ea - ez) * 2 ^ (ez - emin64)).
      { rewrite <- Z.pow_add_r by (unfold ez; lia). f_equal. lia. }
      assert (Pb : 2 ^ (eb - emin64) = 2 ^ (eb - ez) * 2 ^ (ez - emin64)).
      { rewrite <- Z.pow_add_r by (unfold ez; lia). f_equal. lia. }
      rewrite Pa, Pb.
      destruct sa; destruct sb; cbn [cond_Zopp]; rewrite ?Hma, ?Hmb; ring. }
    rewrite HS.
    pose proof (pow2_pos (ez - emin64) ltac:(lia)) as HP.
    unfold binary_normalize.
    destruct m as [ | p | p ] eqn:Em.
    + split; [ discriminate | reflexivity ].
    + destruct (binary_round_value false p ez Hez) as [H1 [H2 H3]].
      split; [ exact H1 | ].
      unfold sval. rewrite H2, H3. unfold round_signed.
      replace (Z.pos p * 2 ^ (ez - emin64) <? 0) with false
        by (symmetry; apply Z.ltb_ge; lia).
      reflexivity.
    + destruct (binary_round_value true p ez Hez) as [H1 [H2 H3]].
      split; [ exact H1 | ].
      unfold sval. rewrite H2, H3. unfold round_signed.
      replace (Z.neg p * 2 ^ (ez - emin64) <? 0) with true
        by (symmetry; apply Z.ltb_lt; lia).
      f_equal. f_equal. lia.
Qed.

End FloatSums.

Section FloatOrder.

Import Binary64.
Local Open Scope Z_scope.
Local Open Scope float_scope.

(** *** Sums *)

Lemma finite_is_finite (x : float) : finite x = is_finite (Prim2SF x).
Proof. unfold finite. destruct (Prim2SF x); reflexivity. Qed.

Lemma finite_not_nan (x : float) : finite x = true -> not_nan (Prim2SF x).
Proof. unfold finite, not_nan. destruct (Prim2SF x); congruence. Qed.

Theorem add_mono (x1 y1 x2 y2 : float) :
  finite x1 = true -> finite y1 = true ->
  finite x2 = true -> finite y2 = true ->
  (x1 <=? x2) = true -> (y1 <=? y2) = true ->
  (x1 + y1 <=? x2 + y2) = true.
Proof.
  rewrite !finite_is_finite, !leb_iff, !add_spec.
  intros Fx1 Fy1 Fx2 Fy2 [_ [_ Hx]] [_ [_ Hy]].
  destruct (SFadd_finite _ _ (Prim2SF_valid x1) (Prim2SF_valid y1) Fx1 Fy1)
    as [N1 ->].
  destruct (SFadd_finite _ _ (Prim2SF_valid x2) (Prim2SF_valid y2) Fx2 Fy2)
    as [N2 ->].
  split; [ exact N1 | ]. split; [ exact N2 | ].
  apply round_signed_mono. lia.
Qed.

(** A finite sum has finite terms, a finite product finite factors. *)
Lemma add_finite_inv (x y : float) :
  finite (x + y) = true -> finite x = true /\ finite y = true.
Proof.
  rewrite !finite_is_finite, add_spec.
  destruct (Prim2SF x) as [ sx | sx | | sx mx ex ];
    destruct (Prim2SF y) as [ sy | sy | | sy my ey ];
    cbn [SF64add SFadd is_finite]; auto;
    destruct sx; destruct sy; cbn; auto.
Qed.

Lemma mul_finite_inv (x y : float) :
  finite (x * y) = true -> finite x = true /\ finite y = true.
Proof.
  rewrite !finite_is_finite, mul_spec.
  destruct (Prim2SF x) as [ sx | sx | | sx mx ex ];
    destruct (Prim2SF y) as [ sy | sy | | sy my ey ];
    cbn [SF64mul SFmul is_finite]; auto.
Qed.

Lemma sval_bounded_finite (a : spec_float) :
  valid a = true -> not_nan a ->
  (- overflow_level < sval a < overflow_level)%Z <-> is_finite a = true.
Proof.
  intros Va Na. pose proof overflow_level_pos.
  destruct a as [ s | s | | s m e ]; try congruence; unfold sval; cbn [sign_of is_finite].
  - cbn [mag_val]. destruct s; split; auto; lia.
  - cbn [mag_val]. destruct s; split; try discriminate; lia.
  - pose proof (mag_val_finite s m e Va). destruct s; split; auto; lia.
Qed.

(** What lies between two finite floats is finite. *)
Lemma between_finite (lo hi x : float) :
  finite lo = true -> finite hi = true ->
  (lo <=? x) = true -> (x <=? hi) = true -> finite x = true.
Proof.
  rewrite !finite_is_finite, !leb_iff.
  intros Fl Fh [Nl [Nx Hl]] [_ [Nh Hh]].
  apply (sval_bounded_finite _ (Prim2SF_valid lo) Nl) in Fl.
  apply (sval_bounded_finite _ (Prim2SF_valid hi) Nh) in Fh.
  apply (sval_bounded_finite _ (Prim2SF_valid x) Nx). lia.
Qed.

Lemma leb_trans (x y z : float) :
  (x <=? y) = true -> (y <=? z) = true -> (x <=? z) = true.
Proof.
  rewrite !leb_iff. intros [Nx [Ny H1]] [_ [Nz H2]].
  split; [ exact Nx | ]. split; [ exact Nz | lia ].
Qed.

Lemma leb_refl (x : float) : finite x = true -> (x <=? x) = true.
Proof.
  intros F. apply finite_not_nan in F. rewrite leb_iff. repeat split; auto; lia.
Qed.

(** *** The order of floats and the order of their values *)

Local Open Scope Q_scope.

Lemma to_Q_sval (x : float) :
  finite x = true ->
  to_Q x == inject_Z (sval (Prim2SF x)) * 2 ^ (-1074).
Proof.
  unfold finite, to_Q. pose proof (Prim2SF_valid x) as V.
  destruct (Prim2SF x) as [ s | s | | s m e ]; try discriminate; intros _.
  - destruct s; reflexivity.
  - apply valid_finite in V. destruct V as [He _].
    rewrite sval_finite, inject_Z_mult.
    assert (P : inject_Z (2 ^ (e - -1074)) == 2 ^ (e - -1074)).
    { apply Zpower_Qpower. lia. }
    rewrite P. rewrite <- Qmult_assoc.
    rewrite <- Qpower_plus by discriminate.
    replace (e - -1074 + -1074)%Z with e by lia. reflexivity.
Qed.

Lemma leb_to_Q (x y : float) :
  finite x = true -> finite y = true ->
  (x <=? y)%float = true -> to_Q x <= to_Q y.
Proof.
  intros Fx Fy H. rewrite (to_Q_sval x Fx), (to_Q_sval y Fy).
  apply leb_iff in H. destruct H as [_ [_ H]].
  apply Qmult_le_compat_r.
  - rewrite <- Zle_Qle. exact H.
  - apply Qpower_pos. discriminate.
Qed.

Lemma ceil_mono (x y : float) (n1 n2 : Z) :
  ceil x = Ok n1 -> ceil y = Ok n2 -> (x <=? y)%float = true -> (n1 <= n2)%Z.
Proof.
  intros H1 H2 H.
  apply ceil_spec in H1, H2. destruct H1 as [F1 ->], H2 as [F2 ->].
  apply Qceiling_resp_le. apply leb_to_Q; assumption.
Qed.

End FloatOrder.

(** ** The order of the calculator's values *)

Section HeadOrder.

Local Open Scope Z_scope.
Local Open Scope float_scope.

Lemma finite_0_083 : exists mk ek, Prim2SF 0.083 = S754_finite false mk ek.
Proof. vm_compute. eauto. Qed.

Lemma finite_0_8 : exists mk ek, Prim2SF 0.8 = S754_finite false mk ek.
Proof. vm_compute. eauto. Qed.

Lemma finite_10 : exists mk ek, Prim2SF 10 = S754_finite false mk ek.
Proof. vm_compute. eauto. Qed.

Lemma static_friction_mono (x1 x2 : float) :
  (x1 <=? x2) = true -> (x1 * 0.083 * 0.8 <=? x2 * 0.083 * 0.8) = true.
Proof.
  intros H.
  destruct finite_0_083 as [m1 [e1 E1]]. destruct finite_0_8 as [m2 [e2 E2]].
  apply (mul_const_mono 0.8 m2 e2 E2). apply (mul_const_mono 0.083 m1 e1 E1).
  exact H.
Qed.

Lemma pressure_head_mono (p1 p2 : float) :
  (p1 <=? p2) = true -> (p1 * 10 <=? p2 * 10) = true.
Proof.
  intros H. destruct finite_10 as [m [e E]].
  apply (mul_const_mono 10 m e E). exact H.
Qed.

(** Every intermediate value of a run that returns is finite. *)
Lemma binary64_returned_head (v h b p c : float) (r : results float) :
  Binary64.calculate_pump_head v h b p c = Ok r ->
  let flow := c * 1000 / 86400 in
  let ff := 0.1 * (flow * flow) in
  let s := (v + h) * 0.083 * 0.8 in
  r = (flow, ff, s + ff, total_head r, p * 10, v + (s + ff) + b + p * 10)
  /\ Binary64.ceil (v + (s + ff) + b + p * 10) = Ok (total_head r)
  /\ Binary64.finite (v + (s + ff) + b + p * 10) = true
  /\ Binary64.finite (v + (s + ff) + b) = true
  /\ Binary64.finite (p * 10) = true
  /\ Binary64.finite (v + (s + ff)) = true
  /\ Binary64.finite b = true
  /\ Binary64.finite v = true
  /\ Binary64.finite (s + ff) = true
  /\ Binary64.finite s = true
  /\ Binary64.finite ff = true
  /\ Binary64.finite (v + h) = true
  /\ Binary64.finite h = true
  /\ Binary64.finite (flow * flow) = true
  /\ Binary64.finite flow = true.
Proof.
  intros H flow ff s.
  rewrite binary64_calculate_pump_head_cases in H. cbv zeta in H.
  fold flow in H. fold ff in H. fold s in H.
  destruct (Binary64.pow_2 flow); [ | discriminate ].
  destruct (Binary64.ceil _) as [ n | ] eqn:Ec; [ | discriminate ].
  injection H as <-. cbn [total_head].
  split; [ reflexivity | ]. split; [ reflexivity | ].
  pose proof (proj1 (ceil_spec _ _ Ec)) as F0.
  destruct (add_finite_inv _ _ F0) as [F1 F2].
  destruct (add_finite_inv _ _ F1) as [F3 F4].
  destruct (add_finite_inv _ _ F3) as [F5 F6].
  destruct (add_finite_inv _ _ F6) as [F7 F8].
  destruct (mul_finite_inv _ _ F7) as [F9 _].
  destruct (mul_finite_inv _ _ F9) as [F10 _].
  destruct (add_finite_inv _ _ F10) as [_ F11].
  destruct (mul_finite_inv _ _ F8) as [_ F12].
  destruct (mul_finite_inv _ _ F12) as [F13 _].
  repeat split; assumption.
Qed.

Lemma flow_of_zero : (0 * 1000 / 86400)%float = 0%float.
Proof. reflexivity. Qed.

Local Open Scope Q_scope.

Local Open Scope float_scope.

Lemma within_finite (lo hi x : float) : within lo hi x -> Binary64.finite x = true.
Proof. intros [Fl [Fh [H1 H2]]]. exact (between_finite lo hi x Fl Fh H1 H2). Qed.

Lemma within_add (lo1 hi1 lo2 hi2 x y : float) :
  within lo1 hi1 x -> within lo2 hi2 y ->
  Binary64.finite (lo1 + lo2) = true -> Binary64.finite (hi1 + hi2) = true ->
  within (lo1 + lo2) (hi1 + hi2) (x + y).
Proof.
  intros Hx Hy Fl Fh.
  pose proof (within_finite _ _ _ Hx) as Fx.
  pose proof (within_finite _ _ _ Hy) as Fy.
  destruct Hx as [A1 [A2 [A3 A4]]], Hy as [B1 [B2 [B3 B4]]].
  repeat split; try assumption; apply add_mono; assumption.
Qed.

Section WithinByConstant.

Variables (k : float) (mk : positive) (ek : Z).
Hypothesis k_finite : Prim2SF k = S754_finite false mk ek.

Lemma within_mul_const (lo hi x : float) :
  within lo hi x ->
  Binary64.finite (lo * k) = true -> Binary64.finite (hi * k) = true ->
  within (lo * k) (hi * k) (x * k).
Proof.
  intros [_ [_ [H1 H2]]] Fl Fh.
  repeat split; try assumption; apply (mul_const_mono k mk ek k_finite); assumption.
Qed.

Lemma within_const_mul (lo hi x : float) :
  within lo hi x ->
  Binary64.finite (k * lo) = true -> Binary64.finite (k * hi) = true ->
  within (k * lo) (k * hi) (k * x).
Proof.
  intros [_ [_ [H1 H2]]] Fl Fh.
  repeat split; try assumption; apply (const_mul_mono k mk ek k_finite); assumption.
Qed.

Lemma within_div_const (lo hi x : float) :
  within lo hi x ->
  Binary64.finite (lo / k) = true -> Binary64.finite (hi / k) = true ->
  within (lo / k) (hi / k) (x / k).
Proof.
  intros [_ [_ [H1 H2]]] Fl Fh.
  repeat split; try assumption; apply (div_const_mono k mk ek k_finite); assumption.
Qed.

End WithinByConstant.

Lemma within_square (lo hi x : float) :
  within lo hi x -> (0 <=? lo) = true ->
  Binary64.finite (lo * lo) = true -> Binary64.finite (hi * hi) = true ->
  within (lo * lo) (hi * hi) (x * x).
Proof.
  intros [_ [_ [H1 H2]]] H0 Fl Fh.
  repeat split; try assumption; apply square_mono; try assumption.
  exact (leb_trans _ _ _ H0 H1).
Qed.

(** X12.  On inputs between 0 and 1e100 the binary64 calculator returns:
    neither [x ** 2] nor [math.ceil] raises, the unrounded head is finite
    and not negative, and so is the total head. *)
Theorem calculate_pump_head_returns_on_bounded_inputs (v h b p c : float) :
  (0 <=? v) = true -> (v <=? 1e100) = true ->
  (0 <=? h) = true -> (h <=? 1e100) = true ->
  (0 <=? b) = true -> (b <=? 1e100) = true ->
  (0 <=? p) = true -> (p <=? 1e100) = true ->
  (0 <=? c) = true -> (c <=? 1e100) = true ->
  exists r : results float,
    Binary64.calculate_pump_head v h b p c = Ok r
    /\ Binary64.finite (total_head_unrounded r) = true
    /\ (0 <=? total_head_unrounded r) = true
    /\ (0 <= total_head r)%Z.
Proof.
  intros V0 V1 H0 H1 B0 B1 P0 P1 C0 C1.
  assert (Wv : within 0 1e100 v) by (repeat split; assumption).
  assert (Wh : within 0 1e100 h) by (repeat split; assumption).
  assert (Wb : within 0 1e100 b) by (repeat split; assumption).
  assert (Wp : within 0 1e100 p) by (repeat split; assumption).
  assert (Wc : within 0 1e100 c) by (repeat split; assumption).
  destruct finite_1000 as [m1 [e1 E1]]. destruct finite_86400 as [m2 [e2 E2]].
  destruct finite_0_1 as [m3 [e3 E3]]. destruct finite_0_083 as [m4 [e4 E4]].
  destruct finite_0_8 as [m5 [e5 E5]]. destruct finite_10 as [m6 [e6 E6]].
  pose proof (within_div_const 86400 m2 e2 E2 _ _ _
                (within_mul_const 1000 m1 e1 E1 _ _ _ Wc eq_refl eq_refl)
                eq_refl eq_refl) as Wflow.
  pose proof (within_square _ _ _ Wflow eq_refl eq_refl eq_refl) as Wsq.
  pose proof (within_const_mul 0.1 m3 e3 E3 _ _ _ Wsq eq_refl eq_refl) as Wff.
  pose proof (within_mul_const 0.8 m5 e5 E5 _ _ _
                (within_mul_const 0.083 m4 e4 E4 _ _ _
                   (within_add _ _ _ _ _ _ Wv Wh eq_refl eq_refl)
                   eq_refl eq_refl)
                eq_refl eq_refl) as Ws.
  pose proof (within_add _ _ _ _ _ _ Ws Wff eq_refl eq_refl) as Wtf.
  pose proof (within_add _ _ _ _ _ _
                (within_add _ _ _ _ _ _
                   (within_add _ _ _ _ _ _ Wv Wtf eq_refl eq_refl)
                   Wb eq_refl eq_refl)
                (within_mul_const 10 m6 e6 E6 _ _ _ Wp eq_refl eq_refl)
                eq_refl eq_refl) as Wtu.
  pose proof (within_finite _ _ _ Wtu) as Ftu.
  pose proof (within_finite _ _ _ Wsq) as Fsq.
  rewrite binary64_calculate_pump_head_cases. cbv zeta.
  rewrite (pow_2_finite _ Fsq).
  destruct (ceil_finite _ Ftu) as [n En]. rewrite En.
  eexists. split; [ reflexivity | ].
  cbn [total_head_unrounded total_head].
  split; [ exact Ftu | ].
  destruct Wtu as [_ [_ [L _]]].
  split; [ exact L | ].
  exact (ceil_mono 0 _ 0%Z n eq_refl En L).
Qed.

Lemma calculate_pump_head_returns_on_bounded_inputs_witness :
  exists r : results float,
    Binary64.calculate_pump_head 66 109 5 3.5 100 = Ok r
    /\ Binary64.finite (total_head_unrounded r) = true
    /\ (0 <=? total_head_unrounded r) = true
    /\ (0 <= total_head r)%Z.
Proof.
  apply (calculate_pump_head_returns_on_bounded_inputs 66 109 5 3.5 100);
    reflexivity.
Defined.

End HeadOrder.

(** ** The signs of the calculator's values *)

Section HeadSigns.

Local Open Scope Z_scope.
Local Open Scope float_scope.

(** *** Opposites *)

Lemma binary_round_aux_opp (s : bool) (m e : Z) (l : location) :
  binary_round_aux prec emax (negb s) m e l
  = SFopp (binary_round_aux prec emax s m e l).
Proof.
  unfold binary_round_aux.
  destruct (shr_fexp prec emax m e l) as [mrs' e'].
  destruct (shr_fexp prec emax _ e' loc_Exact) as [mrs'' e''].
  destruct (shr_m mrs''); try reflexivity.
  destruct (e'' <=? emax - prec)%Z; reflexivity.
Qed.

Lemma SFmul_opp_l (a b : spec_float) :
  SF64mul (SFopp a) b = SFopp (SF64mul a b).
Proof.
  destruct a as [ sa | sa | | sa ma ea ]; destruct b as [ sb | sb | | sb mb eb ];
    cbn [SFopp SF64mul SFmul]; try reflexivity;
    try (rewrite <- negb_xorb_l; reflexivity).
  rewrite <- negb_xorb_l. apply binary_round_aux_opp.
Qed.

Lemma SFdiv_opp_l (a b : spec_float) :
  SF64div (SFopp a) b = SFopp (SF64div a b).
Proof.
  destruct a as [ sa | sa | | sa ma ea ]; destruct b as [ sb | sb | | sb mb eb ];
    cbn [SFopp SF64div SFdiv]; try reflexivity;
    try (rewrite <- negb_xorb_l; reflexivity).
  destruct (SFdiv_core_binary prec emax (Z.pos ma) ea (Z.pos mb) eb) as [[mz ez] lz].
  rewrite <- negb_xorb_l. apply binary_round_aux_opp.
Qed.

Lemma mul_opp_l (x y : float) : (- x) * y = - (x * y).
Proof.
  apply Prim2SF_inj. rewrite opp_spec, !mul_spec, opp_spec. apply SFmul_opp_l.
Qed.

Lemma div_opp_l (x y : float) : (- x) / y = - (x / y).
Proof.
  apply Prim2SF_inj. rewrite opp_spec, !div_spec, opp_spec. apply SFdiv_opp_l.
Qed.

Lemma square_opp (x : float) : (- x) * (- x) = x * x.
Proof.
  apply Prim2SF_inj. rewrite !mul_spec, opp_spec.
  rewrite SFmul_opp_l, SFmul_comm, SFmul_opp_l.
  destruct (SF64mul (Prim2SF x) (Prim2SF x)) as [ s | s | | s m e ];
    cbn [SFopp]; rewrite ?negb_involutive; reflexivity.
Qed.

Lemma pow_2_opp (x : float) :
  Binary64.pow_2 (- x) = match Binary64.pow_2 x with
                         | Ok _ => Ok (x * x)
                         | Raise e => Raise e
                         end.
Proof.
  unfold Binary64.pow_2. rewrite square_opp, opp_spec.
  pose proof (mul_spec x x) as M.
  destruct (Prim2SF x) as [ s | s | | s m e ] eqn:Ex; cbn [SFopp].
  - destruct (Prim2SF (x * x)); reflexivity.
  - f_equal. apply Prim2SF_inj. rewrite M. destruct s; reflexivity.
  - f_equal. apply Prim2SF_inj. rewrite opp_spec, M, Ex. reflexivity.
  - destruct (Prim2SF (x * x)); reflexivity.
Qed.

(** X13.  The sign of the capacity shows in the flow rate only: on binary64
    the calculator at [- c] returns what it returns at [c] but for the
    opposite flow rate, and raises what it raises at [c].  A negative
    capacity is not rejected, and it gives the head of the positive one. *)
Theorem capacity_sign_is_lost_in_the_head (v h b p c : float) :
  Binary64.calculate_pump_head v h b p (- c)
  = match Binary64.calculate_pump_head v h b p c with
    | Ok (flow_rate_lps, flow_friction_loss, total_friction_loss, total_head,
          pressure_head_meters, total_head_unrounded) =>
        Ok (- flow_rate_lps, flow_friction_loss, total_friction_loss, total_head,
            pressure_head_meters, total_head_unrounded)
    | Raise e => Raise e
    end.
Proof.
  rewrite !binary64_calculate_pump_head_cases. cbv zeta.
  rewrite mul_opp_l, div_opp_l, square_opp, pow_2_opp.
  destruct (Binary64.pow_2 (c * 1000 / 86400)); [ | reflexivity ].
  destruct (Binary64.ceil _); reflexivity.
Qed.

(** *** Terms that are not negative *)

Lemma add_zero_r (x : float) :
  Binary64.finite x = true -> (x <=? x + 0) = true.
Proof.
  intros F. rewrite leb_iff, add_spec.
  pose proof (finite_not_nan x F) as N. rewrite finite_is_finite in F.
  destruct (SFadd_finite (Prim2SF x) (Prim2SF 0) (Prim2SF_valid x) eq_refl F eq_refl)
    as [N' E].
  split; [ exact N | ]. split; [ exact N' | ].
  rewrite E. change (sval (Prim2SF 0)) with 0%Z. rewrite Z.add_0_r.
  rewrite round_signed_valid; [ lia | apply Prim2SF_valid | exact F ].
Qed.

(** Adding what is not negative does not lower a sum. *)
Lemma add_nonneg_r (x y : float) :
  Binary64.finite x = true -> Binary64.finite y = true ->
  (0 <=? y) = true -> (x <=? x + y) = true.
Proof.
  intros Fx Fy H.
  apply leb_trans with (x + 0); [ apply add_zero_r; exact Fx | ].
  apply add_mono; try assumption; try reflexivity.
  apply leb_refl. exact Fx.
Qed.

Lemma square_nonneg (x : float) :
  Binary64.finite x = true -> (0 <=? x * x) = true.
Proof.
  intros F. pose proof (finite_not_nan x F) as N.
  destruct (square_value _ (Prim2SF_valid x) N) as [N' S].
  rewrite leb_iff, mul_spec. split; [ discriminate | ]. split; [ exact N' | ].
  unfold sval at 2. rewrite S. change (sval (Prim2SF 0)) with 0%Z.
  apply mag_val_nonneg.
Qed.

Lemma friction_loss_nonneg (x : float) :
  Binary64.finite x = true -> (0 <=? 0.1 * (x * x)) = true.
Proof.
  intros F. destruct finite_0_1 as [m [e E]].
  change 0 with (0.1 * 0) at 1.
  apply (const_mul_mono 0.1 m e E). apply square_nonneg. exact F.
Qed.

Local Open Scope Q_scope.

(** X14.  The flow friction loss is never negative, whatever the sign of the
    capacity, and the flow rate has the sign of the capacity: over exact
    arithmetic for every input, on binary64 for every result returned. *)
Theorem flow_friction_loss_is_never_negative :
  (forall v h b p c : Q,
     exists r : results Q,
       Exact.calculate_pump_head v h b p c = Ok r
       /\ 0 <= flow_friction_loss r)
  /\ (forall (v h b p c : float) (r : results float),
        Binary64.calculate_pump_head v h b p c = Ok r ->
        (0 <=? flow_friction_loss r)%float = true
        /\ ((c <=? 0)%float = true -> (flow_rate_lps r <=? 0)%float = true)
        /\ ((0 <=? c)%float = true -> (0 <=? flow_rate_lps r)%float = true)).
Proof.
  split.
  - intros v h b p c. eexists.
    split; [ apply exact_calculate_pump_head_returns | ].
    cbn [flow_friction_loss]. simpl Qpower.
    generalize (c * 1000 / 86400). intros q. nra.
  - intros v h b p c r H.
    apply binary64_returned_head in H. cbv zeta in H.
    destruct H as [R [_ [_ [_ [_ [_ [_ [_ [_ [_ [_ [_ [_ [_ F]]]]]]]]]]]]]].
    rewrite R. cbn [flow_friction_loss flow_rate_lps].
    split; [ apply friction_loss_nonneg; exact F | ].
    split; intros Hc.
    + rewrite <- flow_of_zero. apply flow_rate_mono. exact Hc.
    + rewrite <- flow_of_zero at 1. apply flow_rate_mono. exact Hc.
Qed.

Lemma flow_friction_loss_is_never_negative_witness :
  exists r : results float,
    Binary64.calculate_pump_head 66 109 5 3.5 (-100) = Ok r
    /\ (0 <=? flow_friction_loss r)%float = true
    /\ (flow_rate_lps r <=? 0)%float = true.
Proof.
  eexists. split; [ vm_compute; reflexivity | ].
  destruct (proj2 flow_friction_loss_is_never_negative
              66%float 109%float 5%float 3.5%float (-100)%float _ eq_refl)
    as [H1 [H2 _]].
  split; [ exact H1 | apply H2; reflexivity ].
Defined.

(** X15.  The friction terms only add to the head: for inputs that are not
    negative (the capacity may have any sign) the unrounded head is at least
    the sum of vertical height, bends and fittings loss and pressure head,
    [v + b + p * 10], and so is the total head; over exact arithmetic, and
    on binary64 for every result returned, the sum being computed as the
    source would. *)
Theorem total_head_covers_the_static_terms :
  (forall v h b p c : Q,
     0 <= v -> 0 <= h ->
     exists r : results Q,
       Exact.calculate_pump_head v h b p c = Ok r
       /\ v + b + p * 10 <= total_head_unrounded r
       /\ v + b + p * 10 <= inject_Z (total_head r))
  /\ (forall (v h b p c : float) (r : results float),
        (0 <=? v)%float = true -> (0 <=? h)%float = true ->
        (0 <=? b)%float = true -> (0 <=? p)%float = true ->
        Binary64.calculate_pump_head v h b p c = Ok r ->
        (v + b + p * 10 <=? total_head_unrounded r)%float = true
        /\ Binary64.to_Q (v + b + p * 10)%float <= inject_Z (total_head r)).
Proof.
  split.
  - intros v h b p c Hv Hh. eexists.
    split; [ apply exact_calculate_pump_head_returns | ].
    cbn [total_head_unrounded total_head].
    assert (H : v + b + p * 10
                <= v + ((v + h) * 0.083 * 0.8 + 0.1 * (c * 1000 / 86400) ^ 2)
                   + b + p * 10).
    { simpl Qpower. generalize (c * 1000 / 86400). intros q. nra. }
    split; [ exact H | ].
    eapply Qle_trans; [ exact H | apply Qle_ceiling ].
  - intros v h b p c r Hv Hh Hb Hp H.
    apply binary64_returned_head in H. cbv zeta in H.
    destruct H as [R [C [F0 [F1 [F2 [F3 [F4 [F5 [F6 [F7 [F8 [F9 [F10 [_ F11]]]]]]]]]]]]]].
    rewrite R at 1. cbn [total_head_unrounded].
    set (flow := (c * 1000 / 86400)%float) in *.
    set (tf := ((v + h) * 0.083 * 0.8 + 0.1 * (flow * flow))%float) in *.
    assert (Hs : (0 <=? (v + h) * 0.083 * 0.8)%float = true).
    { change 0%float with ((0 + 0) * 0.083 * 0.8)%float at 1.
      apply static_friction_mono. apply add_mono; auto. }
    assert (Htf : (0 <=? tf)%float = true).
    { change 0%float with (0 + 0)%float at 1. unfold tf.
      apply add_mono; auto. apply friction_loss_nonneg. exact F11. }
    pose proof (add_nonneg_r v tf F5 F6 Htf) as H1.
    pose proof (add_mono _ _ _ _ F5 F4 F3 F4 H1 (leb_refl b F4)) as H2.
    assert (Fvb : Binary64.finite (v + b)%float = true).
    { apply (between_finite (0 + 0)%float (v + tf + b)%float); auto.
      apply add_mono; auto. }
    pose proof (add_mono _ _ _ _ Fvb F2 F1 F2 H2 (leb_refl _ F2)) as H3.
    split; [ exact H3 | ].
    assert (Fs : Binary64.finite (v + b + p * 10)%float = true).
    { apply (between_finite (0 + 0 + 0 * 10)%float (v + tf + b + p * 10)%float);
        auto.
      apply add_mono; auto.
      - apply add_mono; auto.
      - apply pressure_head_mono. exact Hp. }
    eapply Qle_trans; [ apply (leb_to_Q _ _ Fs F0 H3) | ].
    apply ceil_spec in C. destruct C as [_ ->]. apply Qle_ceiling.
Qed.

Lemma total_head_covers_the_static_terms_witness :
  exists r : results float,
    Binary64.calculate_pump_head 66 109 5 3.5 100 = Ok r
    /\ (66 + 5 + 3.5 * 10 <=? total_head_unrounded r)%float = true
    /\ Binary64.to_Q (66 + 5 + 3.5 * 10)%float <= inject_Z (total_head r).
Proof.
  eexists. split; [ vm_compute; reflexivity | ].
  apply (proj2 total_head_covers_the_static_terms
           66%float 109%float 5%float 3.5%float 100%float);
    reflexivity.
Defined.

End HeadSigns.

(** ** The calculator and the matcher together *)

Section Undersized.

Local Open Scope Q_scope.

(** X16.  A recommended pump is never undersized: when the matcher is given
    the total head that the calculator returned, every pump it returns has a
    number as minimum head, and that number is at least the unrounded head;
    over exact arithmetic and on binary64. *)
Theorem recommended_pumps_are_never_undersized
    (pump_data suitable : DataFrame) (p : pump) :
  (forall (v h b pr c : Q) (r : results Q),
     Exact.calculate_pump_head v h b pr c = Ok r ->
     suitable_pumps pump_data (total_head r) = Ok suitable ->
     In p suitable ->
     exists q, Min_Head_m p = Num q /\ total_head_unrounded r <= q)
  /\ (forall (v h b pr c : float) (r : results float),
        Binary64.calculate_pump_head v h b pr c = Ok r ->
        suitable_pumps pump_data (total_head r) = Ok suitable ->
        In p suitable ->
        exists q, Min_Head_m p = Num q
                  /\ Binary64.to_Q (total_head_unrounded r) <= q).
Proof.
  assert (K : forall t : Z,
             suitable_pumps pump_data t = Ok suitable -> In p suitable ->
             exists q, Min_Head_m p = Num q /\ inject_Z t <= q).
  { intros t Hs Hin.
    destruct (suitable_pumps_cases pump_data t) as [[_ F] | [_ F]];
      rewrite F in Hs; [ | discriminate ].
    injection Hs as <-. apply filter_In in Hin. destruct Hin as [_ Hb].
    apply meets_b_iff in Hb. exact Hb. }
  split.
  - intros v h b pr c r Hr Hs Hin.
    destruct (K _ Hs Hin) as [q [Hq Hle]]. exists q. split; [ exact Hq | ].
    rewrite exact_calculate_pump_head_returns in Hr. injection Hr as <-.
    cbn [total_head total_head_unrounded] in *.
    eapply Qle_trans; [ apply Qle_ceiling | exact Hle ].
  - intros v h b pr c r Hr Hs Hin.
    destruct (K _ Hs Hin) as [q [Hq Hle]]. exists q. split; [ exact Hq | ].
    rewrite binary64_calculate_pump_head_cases in Hr. cbv zeta in Hr.
    destruct (Binary64.pow_2 _); [ | discriminate ].
    destruct (Binary64.ceil _) as [ n | ] eqn:Ec; [ | discriminate ].
    injection Hr as <-. cbn [total_head total_head_unrounded] in *.
    apply ceil_spec in Ec. destruct Ec as [_ ->].
    eapply Qle_trans; [ apply Qle_ceiling | exact Hle ].
Qed.

Lemma recommended_pumps_are_never_undersized_witness :
  exists q, Min_Head_m (sample_pump "P-118" (Str "[118, 130]") (Num 118)) = Num q
            /\ Binary64.to_Q 117.75395919067216 <= q.
Proof.
  apply (proj2 (recommended_pumps_are_never_undersized sample_catalogue
                  [ sample_pump "P-150" (Str "[150, 180]") (Num 150);
                    sample_pump "P-118" (Str "[118, 130]") (Num 118) ]
                  (sample_pump "P-118" (Str "[118, 130]") (Num 118)))
           66%float 109%float 5%float 3.5%float 100%float
           (1.1574074074074074, 0.13395919067215364, 11.753959190672155,
            118%Z, 35, 117.75395919067216)%float).
  - vm_compute. reflexivity.
  - reflexivity.
  - right. left. reflexivity.
Defined.

End Undersized.

(** ** The bars of the breakdown *)

Section Bars.

Local Open Scope Z_scope.

Lemma two_finite : Prim2SF 2 = S754_finite false 4503599627370496 (-51).
Proof. reflexivity. Qed.

Lemma valid_lower_exponent (s : bool) (m : positive) (e : Z) :
  valid (S754_finite s m e) = true -> emin64 < e ->
  valid (S754_finite s m (e - 1)) = true.
Proof.
  unfold valid_binary, bounded, canonical_mantissa.
  rewrite !andb_true_iff, !Z.eqb_eq, !Z.leb_le, !fexp64_eq.
  change (emax - prec) with 971. lia.
Qed.

(** The integer part of a float, from its magnitude. *)
Lemma shiftl_mag (m : positive) (e : Z) :
  emin64 <= e ->
  Z.shiftl (Z.pos m) e = Z.pos m * 2 ^ (e - emin64) / 2 ^ 1074.
Proof.
  intros He. destruct (Z_le_gt_dec 0 e) as [Hp | Hn].
  - rewrite Z.shiftl_mul_pow2 by lia.
    replace (e - emin64) with (e + 1074) by lia.
    rewrite Z.pow_add_r by lia. rewrite Z.mul_assoc.
    rewrite Z.div_mul; [ reflexivity | ].
    pose proof (pow2_pos 1074 ltac:(lia)). lia.
  - rewrite Z.shiftl_div_pow2 by lia.
    assert (E : 2 ^ 1074 = 2 ^ (e - emin64) * 2 ^ (- e)).
    { rewrite <- Z.pow_add_r by lia. f_equal. lia. }
    rewrite E, (Z.mul_comm (Z.pos m)).
    pose proof (pow2_pos (- e) ltac:(lia)).
    pose proof (pow2_pos (e - emin64) ltac:(lia)).
    rewrite Z.div_mul_cancel_l by lia. reflexivity.
Qed.

Lemma int_of_mag (x : float) :
  Binary64.finite x = true ->
  int x = Ok (if sign_of (Prim2SF x)
              then - (mag_val (Prim2SF x) / 2 ^ 1074)
              else mag_val (Prim2SF x) / 2 ^ 1074).
Proof.
  unfold Binary64.finite, int. pose proof (Prim2SF_valid x) as V.
  destruct (Prim2SF x) as [ s | s | | s m e ]; try discriminate; intros _.
  - destruct s; reflexivity.
  - apply valid_finite in V. destruct V as [He _].
    cbn [sign_of mag_val]. rewrite (shiftl_mag m e) by lia.
    destruct s; reflexivity.
Qed.

(** The operand of the rounding in [x / 2] is half the magnitude of [x]. *)
Lemma half_operand (m : positive) (e : Z) :
  emin64 <= e ->
  let e' := Z.min (fexp64 (Zdigits2 (Z.pos m) + e
                           - (Zdigits2 4503599627370496 + -51)))
                  (e - -51) in
  let n := Z.pos m * 2 ^ (e - -51 - e') in
  2 * numer n e' = Z.pos m * 2 ^ (e - emin64) * denom 4503599627370496 e'.
Proof.
  intros He e' n.
  assert (Hs : 0 <= e - -51 - e') by (unfold e'; lia).
  unfold n, numer, denom.
  change 4503599627370496 with (2 ^ 52).
  change 2 with (2 ^ 1) at 1.
  rewrite <- !Z.mul_assoc. rewrite (Z.mul_comm (2 ^ 1)). rewrite <- !Z.mul_assoc.
  f_equal. rewrite <- !Z.pow_add_r by lia. f_equal. lia.
Qed.

Lemma half_mag (s : bool) (m : positive) (e : Z) :
  valid (S754_finite s m e) = true ->
  let f := SF64div (S754_finite s m e) (Prim2SF 2) in
  f <> S754_nan /\ sign_of f = s
  /\ mag_val f / 2 ^ 1074 = mag_val (S754_finite s m e) / 2 ^ 1075
  /\ mag_val f <= mag_val (S754_finite s m e).
Proof.
  intros V. rewrite two_finite.
  destruct (SFdiv_finite s false m 4503599627370496 e (-51)) as [N [S R]].
  cbv zeta. split; [ exact N | ]. split; [ rewrite S; apply xorb_false_r | ].
  pose proof (valid_finite _ _ _ V) as [He [Hm Hn]].
  pose proof (half_operand m e ltac:(lia)) as HA. cbv zeta in HA.
  rewrite R.
  set (e' := Z.min _ _) in *. set (n := Z.pos m * 2 ^ (e - -51 - e')) in *.
  assert (Hs : 0 <= e - -51 - e') by (unfold e'; lia).
  pose proof (pow2_pos _ Hs) as HPs.
  assert (HnA : 0 <= numer n e') by (apply numer_nonneg; unfold n; nia).
  assert (HB : 0 < denom 4503599627370496 e') by (apply denom_pos; lia).
  pose proof (round_to_grid_valid s m e V) as Hid.
  pose proof (mag_val_finite s m e V) as HM.
  cbn [mag_val] in *.
  assert (Hle : round_to_grid (numer n e') (denom 4503599627370496 e')
                <= Z.pos m * 2 ^ (e - emin64)).
  { eapply Z.le_trans; [ | apply Z.eq_le_incl; exact Hid ].
    apply round_to_grid_mono; lia. }
  split; [ | exact Hle ].
  destruct (Z_le_gt_dec e emin64) as [Hsub | Hnorm].
  - replace (e - emin64) with 0 in * by lia. rewrite Z.mul_1_r in *.
    pose proof (round_to_grid_nonneg _ _ HnA HB).
    assert (P1 : 2 ^ 53 <= 2 ^ 1074) by (apply Z.pow_le_mono_r; lia).
    assert (P2 : 2 ^ 1074 <= 2 ^ 1075) by (apply Z.pow_le_mono_r; lia).
    rewrite !Z.div_small by lia. reflexivity.
  - pose proof (valid_lower_exponent s m e V ltac:(lia)) as V'.
    pose proof (round_to_grid_valid s m (e - 1) V') as Hid'.
    cbn [mag_val] in Hid'.
    assert (E2 : Z.pos m * 2 ^ (e - emin64) = 2 * (Z.pos m * 2 ^ (e - 1 - emin64))).
    { replace (e - emin64) with (1 + (e - 1 - emin64)) by lia.
      rewrite Z.pow_add_r by lia. change (2 ^ 1) with 2. ring. }
    assert (EA : numer n e'
                 = Z.pos m * 2 ^ (e - 1 - emin64) * denom 4503599627370496 e')
      by nia.
    assert (ER : round_to_grid (numer n e') (denom 4503599627370496 e')
                 = Z.pos m * 2 ^ (e - 1 - emin64)).
    { rewrite <- Hid'.
      pose proof (pow2_pos (e - 1 - emin64) ltac:(lia)).
      apply Z.le_antisymm; apply round_to_grid_mono; nia. }
    rewrite ER, E2.
    change (2 ^ 1075) with (2 * 2 ^ 1074).
    rewrite Z.div_mul_cancel_l; [ reflexivity | | lia ].
    pose proof (pow2_pos 1074 ltac:(lia)). lia.
Qed.

(** [int (x / 2)] from the magnitude of [x]. *)
Lemma int_half (x : float) :
  Binary64.finite x = true ->
  Binary64.finite (x / 2) = true
  /\ int (x / 2) = Ok (if sign_of (Prim2SF x)
                       then - (mag_val (Prim2SF x) / 2 ^ 1075)
                       else mag_val (Prim2SF x) / 2 ^ 1075).
Proof.
  intros F.
  assert (F2 : Binary64.finite (x / 2) = true
               /\ sign_of (Prim2SF (x / 2)) = sign_of (Prim2SF x)
               /\ mag_val (Prim2SF (x / 2)) / 2 ^ 1074
                  = mag_val (Prim2SF x) / 2 ^ 1075).
  { pose proof (Prim2SF_valid x) as V. pose proof (Prim2SF_valid (x / 2)) as V2.
    rewrite (finite_is_finite (x / 2)). rewrite div_spec in *.
    unfold Binary64.finite in F.
    destruct (Prim2SF x) as [ s | s | | s m e ]; try discriminate.
    - rewrite two_finite. cbn. rewrite xorb_false_r. auto.
    - destruct (half_mag s m e V) as [N [S [Hq Hle]]].
      split; [ | split; [ exact S | exact Hq ] ].
      pose proof (mag_val_finite s m e V) as HM.
      destruct (SF64div (S754_finite s m e) (Prim2SF 2)) as [ t | t | | t k g ];
        try reflexivity; [ | congruence ].
      exfalso. cbn [mag_val] in Hle, HM. lia. }
  destruct F2 as [F2 [S Hq]]. split; [ exact F2 | ].
  rewrite (int_of_mag _ F2), S, Hq. reflexivity.
Qed.

Lemma len_app (s t : string) : len (s ++ t) = (len s + len t)%nat.
Proof.
  induction s as [ | c s IH ]; simpl; [ reflexivity | ].
  destruct (is_continuation c); simpl; rewrite IH; reflexivity.
Qed.

Lemma len_blanks (n : nat) : len (copies " " n) = n.
Proof. induction n as [ | n IH ]; simpl; [ reflexivity | rewrite IH; reflexivity ]. Qed.

(** Padding never cuts a label, and fills a short one up to the width. *)
Lemma len_ljust (s : string) (width : nat) :
  len (ljust s width) = Nat.max width (len s).
Proof. unfold ljust. rewrite len_app, len_blanks. lia. Qed.

Local Open Scope Q_scope.

Lemma Qfloor_scaled_half (z : Z) :
  Qfloor (inject_Z z * 2 ^ (-1074) / 2) = (z / 2 ^ 1075)%Z.
Proof.
  assert (C : 2 ^ (-1074) * / 2 == 1 # Z.to_pos (2 ^ 1075)) by (vm_compute; reflexivity).
  assert (P : (2 ^ 1075 = Z.pos (Z.to_pos (2 ^ 1075)))%Z) by (vm_compute; reflexivity).
  rewrite P. generalize dependent (Z.to_pos (2 ^ 1075)). intros p C _.
  unfold Qdiv. rewrite <- Qmult_assoc, C.
  assert (E : inject_Z z * (1 # p) == z # p).
  { unfold Qeq, Qmult, inject_Z. simpl. lia. }
  rewrite E. reflexivity.
Qed.

Local Open Scope Z_scope.

Lemma blocks_of_half (x : float) (n : Z) :
  Binary64.finite x = true -> int (x / 2)%float = Ok n ->
  Z.to_nat n = Z.to_nat (Qfloor (Binary64.to_Q x / 2)%Q)
  /\ Z.abs n <= Z.abs (sval (Prim2SF x)) / 2 ^ 1075.
Proof.
  intros F H. destruct (int_half x F) as [_ E]. rewrite E in H.
  injection H as <-.
  rewrite (Qfloor_comp _ _ (Qdiv_comp _ _ (to_Q_sval x F) 2%Q 2%Q (Qeq_refl 2%Q))).
  rewrite Qfloor_scaled_half.
  pose proof (mag_val_nonneg (Prim2SF x)) as HM.
  assert (P : 0 < 2 ^ 1075) by (apply pow2_pos; lia).
  pose proof (Z.div_pos (mag_val (Prim2SF x)) (2 ^ 1075) HM P) as HQ.
  unfold sval. destruct (sign_of (Prim2SF x)).
  - split.
    + assert (- mag_val (Prim2SF x) / 2 ^ 1075 <= 0).
      { apply Z.div_le_upper_bound; lia. }
      lia.
    + rewrite !Z.abs_opp, !Z.abs_eq by lia. lia.
  - split; [ reflexivity | ]. rewrite !Z.abs_eq by lia. lia.
Qed.

Local Open Scope float_scope.

(** X17.  For a value between -1e6 and 1e6, [draw_bar] returns the label
    padded to 30 characters, a colon, one block for every full two units of
    the value (none for a value below 2, a negative one included) and the
    value with two decimals.  The padded label has 30 characters when the
    label has at most 30, and a longer label is not cut. *)
Theorem draw_bar_has_one_block_per_two_units (label : string) (value : float) :
  (-1e6 <=? value) = true -> (value <=? 1e6) = true ->
  draw_bar label value
  = Ok (ljust label 30 ++ ": "
        ++ copies "█" (Z.to_nat (Qfloor (Binary64.to_Q value / 2)%Q))
        ++ " (" ++ format_2f value ++ " m)")%string
  /\ len (ljust label 30) = Nat.max 30 (len label).
Proof.
  intros Hlo Hhi. split; [ | apply len_ljust ].
  assert (F : Binary64.finite value = true)
    by (apply (between_finite (-1e6) 1e6); auto).
  destruct (int_half value F) as [F2 E].
  unfold draw_bar, Binary64.truediv. change (2 =? 0) with false. cbv iota.
  cbn [bind]. rewrite E. cbn [bind].
  set (n := if sign_of (Prim2SF value)
            then (- (mag_val (Prim2SF value) / 2 ^ 1075))%Z
            else (mag_val (Prim2SF value) / 2 ^ 1075)%Z) in *.
  destruct (blocks_of_half value n F E) as [Hn Habs].
  assert (Hs : (Z.abs (sval (Prim2SF value)) <= 1000000 * 2 ^ 1074)%Z).
  { apply leb_iff in Hlo, Hhi.
    destruct Hlo as [_ [_ Hlo]], Hhi as [_ [_ Hhi]].
    assert (E1 : sval (Prim2SF 1e6) = (1000000 * 2 ^ 1074)%Z)
      by (vm_compute; reflexivity).
    assert (E2 : sval (Prim2SF (-1e6)) = (- (1000000 * 2 ^ 1074))%Z)
      by (vm_compute; reflexivity).
    rewrite E1 in Hhi. rewrite E2 in Hlo. lia. }
  assert (Hb : (Z.abs n <= 500000)%Z).
  { eapply Z.le_trans; [ exact Habs | ].
    apply Z.div_le_upper_bound; [ apply pow2_pos; lia | ].
    eapply Z.le_trans; [ exact Hs | ].
    change (2 ^ 1075)%Z with (2 * 2 ^ 1074)%Z.
    pose proof (pow2_pos 1074 ltac:(lia)). lia. }
  unfold str_mul.
  replace ((n <? - 2 ^ 63)%Z || (2 ^ 63 - 1 <? n)%Z) with false.
  - cbn [bind]. rewrite Hn. reflexivity.
  - symmetry. apply orb_false_iff. split; [ apply Z.ltb_ge | apply Z.ltb_ge ].
    + change (- 2 ^ 63)%Z with (-9223372036854775808)%Z. lia.
    + change (2 ^ 63 - 1)%Z with 9223372036854775807%Z. lia.
Qed.

Lemma draw_bar_has_one_block_per_two_units_witness :
  draw_bar "Static Friction Loss" 11.62
  = Ok "Static Friction Loss          : █████ (11.62 m)".
Proof.
  destruct (draw_bar_has_one_block_per_two_units "Static Friction Loss" 11.62
              eq_refl eq_refl) as [E _].
  rewrite E. vm_compute. reflexivity.
Defined.

(** X18.  What [draw_bar] raises: [ValueError] on a NaN and [OverflowError]
    on an infinity, from [int]; and [OverflowError] on a finite value from
    2^64 upwards or from -2^65 downwards, where the number of blocks does
    not fit a 64-bit index. *)
Theorem draw_bar_raises_on_what_is_not_a_number (label : string) (value : float) :
  (Prim2SF value = S754_nan -> draw_bar label value = Raise ValueError)
  /\ (forall s, Prim2SF value = S754_infinity s ->
                draw_bar label value = Raise OverflowError)
  /\ (Binary64.finite value = true ->
      (0x1p+64 <=? value) = true \/ (value <=? -0x1p+65) = true ->
      draw_bar label value = Raise OverflowError).
Proof.
  assert (U : draw_bar label value
              = bind (int (value / 2))
                  (fun n => bind (str_mul "█" n)
                     (fun bar => Ok (ljust label 30 ++ ": " ++ bar ++ " ("
                                     ++ format_2f value ++ " m)")%string)))
    by reflexivity.
  rewrite U. clear U.
  split; [ | split ].
  - intros H. unfold int. rewrite div_spec, H. reflexivity.
  - intros s H. unfold int. rewrite div_spec, H, two_finite. reflexivity.
  - intros F H.
    destruct (int_half value F) as [_ E]. rewrite E. cbn [bind].
    assert (P : (0 < 2 ^ 1075)%Z) by (apply pow2_pos; lia).
    pose proof (mag_val_nonneg (Prim2SF value)) as HM.
    assert (B : (2 ^ 63 <= mag_val (Prim2SF value) / 2 ^ 1075)%Z
                /\ (sign_of (Prim2SF value) = true ->
                    2 ^ 64 <= mag_val (Prim2SF value) / 2 ^ 1075)%Z).
    { destruct H as [H | H]; apply leb_iff in H; destruct H as [_ [_ H]].
      - change (sval (Prim2SF 0x1p+64)) with (2 ^ 63 * 2 ^ 1075)%Z in H.
        unfold sval in H. destruct (sign_of (Prim2SF value)).
        + pose proof (pow2_pos 63 ltac:(lia)). nia.
        + split; [ | discriminate ].
          apply Z.div_le_lower_bound; [ exact P | lia ].
      - change (sval (Prim2SF (-0x1p+65))) with (- (2 ^ 64 * 2 ^ 1075))%Z in H.
        unfold sval in H. destruct (sign_of (Prim2SF value)).
        + assert (2 ^ 64 <= mag_val (Prim2SF value) / 2 ^ 1075)%Z
            by (apply Z.div_le_lower_bound; [ exact P | lia ]).
          split; [ | auto ].
          eapply Z.le_trans; [ | eassumption ].
          apply Z.pow_le_mono_r; lia.
        + pose proof (pow2_pos 64 ltac:(lia)). nia. }
    destruct B as [B1 B2].
    unfold str_mul.
    replace ((_ <? - 2 ^ 63)%Z || (2 ^ 63 - 1 <? _)%Z) with true;
      [ reflexivity | ].
    symmetry. apply orb_true_iff. rewrite !Z.ltb_lt.
    destruct (sign_of (Prim2SF value)).
    + left. specialize (B2 eq_refl).
      change (2 ^ 64)%Z with 18446744073709551616%Z in B2.
      change (- 2 ^ 63)%Z with (-9223372036854775808)%Z. lia.
    + right. change (2 ^ 63)%Z with 9223372036854775808%Z in B1.
      change (2 ^ 63 - 1)%Z with 9223372036854775807%Z. lia.
Qed.

Lemma draw_bar_raises_on_what_is_not_a_number_witness :
  draw_bar "Pressure Head" nan = Raise ValueError
  /\ draw_bar "Pressure Head" neg_infinity = Raise OverflowError
  /\ draw_bar "Pressure Head" 1e300 = Raise OverflowError.
Proof.
  split; [ | split ].
  - apply (proj1 (draw_bar_raises_on_what_is_not_a_number "Pressure Head" nan)).
    reflexivity.
  - apply (proj1 (proj2 (draw_bar_raises_on_what_is_not_a_number
                           "Pressure Head" neg_infinity)) true).
    reflexivity.
  - apply (proj2 (proj2 (draw_bar_raises_on_what_is_not_a_number
                           "Pressure Head" 1e300))).
    + reflexivity.
    + left. reflexivity.
Defined.

End Bars.

(** * The calculator as CPython runs it

    The calculator and the handler on the floats of the code, with the C
    library's [pow] as a parameter. *)

(** ** What [x ** 2] and the calculator return *)

Section LibmFacts.

Local Open Scope float_scope.

Variable pow : float -> float -> float.

Lemma float_pow_2_raises (x : float) (e : exn) :
  Libm.float_pow_2 pow x = Raise e -> e = OverflowError.
Proof.
  unfold Libm.float_pow_2.
  destruct (Prim2SF x); try discriminate.
  destruct (_ =? 1); try discriminate.
  destruct (Prim2SF (pow _ 2)); congruence.
Qed.

Lemma ceil_not_finite (x : float) :
  match Prim2SF x with
  | S754_infinity _ => Binary64.ceil x = Raise OverflowError
  | S754_nan => Binary64.ceil x = Raise ValueError
  | _ => Binary64.finite x = true
  end.
Proof. unfold Binary64.ceil, Binary64.finite. destruct (Prim2SF x); reflexivity. Qed.

Lemma libm_calculate_pump_head_cases (v h b p c : float) :
  Libm.calculate_pump_head pow v h b p c =
  match Libm.float_pow_2 pow (c * 1000 / 86400) with
  | Ok flow_rate_squared =>
      match Binary64.ceil
              (v + ((v + h) * 0.083 * 0.8 + 0.1 * flow_rate_squared)
               + b + p * 10) with
      | Ok n =>
          Ok (c * 1000 / 86400, 0.1 * flow_rate_squared,
              (v + h) * 0.083 * 0.8 + 0.1 * flow_rate_squared, n, p * 10,
              v + ((v + h) * 0.083 * 0.8 + 0.1 * flow_rate_squared)
              + b + p * 10)
      | Raise e => Raise e
      end
  | Raise e => Raise e
  end.
Proof.
  unfold Libm.calculate_pump_head, Binary64.truediv.
  change (24 * 60 * 60) with 86400.
  change (86400 =? 0) with false. cbv iota.
  unfold bind.
  destruct (Libm.float_pow_2 pow (c * 1000 / 86400)) as [ sq | e ];
    [ | reflexivity ].
  destruct (Binary64.ceil _); reflexivity.
Qed.

End LibmFacts.

(** ** The correctly rounded square *)

Section CorrectlyRounded.

Local Open Scope float_scope.

Lemma eqb_one (x : float) : (x =? 1) = true -> x = 1.
Proof.
  rewrite eqb_spec.
  change (Prim2SF 1) with (S754_finite false 4503599627370496 (-52)).
  intros H. apply Prim2SF_inj.
  change (Prim2SF 1) with (S754_finite false 4503599627370496 (-52)).
  unfold SFeqb in H.
  destruct (Prim2SF x) as [ s | s | | s m e ]; cbn [SFcompare] in H;
    try (destruct s; discriminate); try discriminate.
  destruct s; [ discriminate | ].
  destruct (e ?= -52)%Z eqn:Ce; try discriminate.
  apply Z.compare_eq in Ce. subst e.
  destruct (Pos.compare_cont Eq m 4503599627370496) eqn:Cm; try discriminate.
  apply Pos.compare_eq in Cm. subst m. reflexivity.
Qed.

Lemma ltb_zero_sign (x : float) (s : bool) (m : positive) (e : Z) :
  Prim2SF x = S754_finite s m e -> (x <? 0) = s.
Proof.
  intros E. rewrite ltb_spec, E. destruct s; reflexivity.
Qed.

(** The calculator of [Binary64] is the one of [Libm] with a [pow] that is
    correctly rounded at the exponent 2. *)
Lemma pow_2_correctly_rounded (x : float) :
  Binary64.pow_2 x = Libm.float_pow_2 correctly_rounded_pow x.
Proof.
  unfold Binary64.pow_2, Libm.float_pow_2, correctly_rounded_pow.
  pose proof (mul_spec x x) as M.
  destruct (Prim2SF x) as [ s | s | | s m e ] eqn:Ex.
  - assert (E : x * x = 0).
    { apply Prim2SF_inj. rewrite M. destruct s; reflexivity. }
    rewrite E. reflexivity.
  - reflexivity.
  - reflexivity.
  - rewrite (ltb_zero_sign x s m e Ex).
    assert (E : (if s then - x else x) * (if s then - x else x) = x * x).
    { destruct s; [ apply square_opp | reflexivity ]. }
    rewrite E.
    destruct ((if s then - x else x) =? 1) eqn:E1; [ | reflexivity ].
    apply eqb_one in E1. rewrite E1 in E.
    rewrite <- E. reflexivity.
Qed.

Lemma calculate_pump_head_correctly_rounded (v h b p c : float) :
  Binary64.calculate_pump_head v h b p c
  = Libm.calculate_pump_head correctly_rounded_pow v h b p c.
Proof.
  unfold Binary64.calculate_pump_head, Libm.calculate_pump_head.
  destruct (Binary64.truediv _ _) as [ flow | e ]; [ | reflexivity ].
  cbn [bind]. rewrite pow_2_correctly_rounded. reflexivity.
Qed.

Lemma correctly_rounded_square_is_monotone :
  square_is_monotone correctly_rounded_pow.
Proof.
  intros x y sx sy H0 H Hx Hy.
  rewrite <- pow_2_correctly_rounded in Hx, Hy.
  apply pow_2_returns in Hx, Hy. subst sx sy.
  apply square_mono; assumption.
Qed.

End CorrectlyRounded.

Section LibmCalculator.

Local Open Scope float_scope.

Variable pow : float -> float -> float.

(** What a run with the library's [pow] returns, and that every
    intermediate value of such a run is finite. *)
Lemma libm_returned_head (v h b p c : float) (r : results float) :
  Libm.calculate_pump_head pow v h b p c = Ok r ->
  exists sq : float,
    Libm.float_pow_2 pow (c * 1000 / 86400) = Ok sq
    /\ (let ff := 0.1 * sq in
        let s := (v + h) * 0.083 * 0.8 in
        r = (c * 1000 / 86400, ff, s + ff, total_head r, p * 10,
             v + (s + ff) + b + p * 10)
        /\ Binary64.ceil (v + (s + ff) + b + p * 10) = Ok (total_head r)
        /\ Binary64.finite (v + (s + ff) + b + p * 10) = true
        /\ Binary64.finite (v + (s + ff) + b) = true
        /\ Binary64.finite (p * 10) = true
        /\ Binary64.finite (v + (s + ff)) = true
        /\ Binary64.finite b = true
        /\ Binary64.finite v = true
        /\ Binary64.finite (s + ff) = true
        /\ Binary64.finite s = true
        /\ Binary64.finite ff = true
        /\ Binary64.finite (v + h) = true
        /\ Binary64.finite h = true
        /\ Binary64.finite sq = true).
Proof.
  intros H.
  rewrite libm_calculate_pump_head_cases in H.
  destruct (Libm.float_pow_2 pow (c * 1000 / 86400)) as [ sq | ];
    [ | discriminate ].
  exists sq. split; [ reflexivity | ]. cbv zeta.
  destruct (Binary64.ceil _) as [ n | ] eqn:Ec; [ | discriminate ].
  injection H as <-. cbn [total_head].
  split; [ reflexivity | ]. split; [ reflexivity | ].
  pose proof (proj1 (ceil_spec _ _ Ec)) as F0.
  destruct (add_finite_inv _ _ F0) as [F1 F2].
  destruct (add_finite_inv _ _ F1) as [F3 F4].
  destruct (add_finite_inv _ _ F3) as [F5 F6].
  destruct (add_finite_inv _ _ F6) as [F7 F8].
  destruct (mul_finite_inv _ _ F7) as [F9 _].
  destruct (mul_finite_inv _ _ F9) as [F10 _].
  destruct (add_finite_inv _ _ F10) as [_ F11].
  destruct (mul_finite_inv _ _ F8) as [_ F12].
  repeat split; assumption.
Qed.

End LibmCalculator.

(** ** The outcomes of the calculator *)

Section CalculatorOutcomes.

Local Open Scope float_scope.

(** C1, as the code has it.  The head calculator returns exactly when
    [flow_rate_lps ** 2] returns and the unrounded total head is a finite
    float, and what it returns then are the values of the seven formulas,
    each operation being the rounded one of binary64: pressure head
    [p * 10], flow rate [c * 1000 / 86400], flow friction loss
    [0.1 * flow ** 2] with the square that [float_pow] gives, static
    friction loss [(v + h) * 0.083 * 0.8], their sum as total friction
    loss, the unrounded total head [v + totalFriction + b + pressureHead],
    and as total head the ceiling of the number that the unrounded head
    denotes.  This holds whatever the C library's [pow] is. *)
Theorem calculate_pump_head_formulas :
  forall (pow : float -> float -> float)
         (verticalHeightM horizontalDistanceM bendsFittingsLossM
          requiredPressureKgCm2 stpCapacityKld : float)
         (r : results float),
    let pressureHeadM := requiredPressureKgCm2 * 10 in
    let flowRateLps := (stpCapacityKld * 1000) / 86400 in
    let staticFrictionLossM :=
      (verticalHeightM + horizontalDistanceM) * 0.083 * 0.8 in
    Libm.calculate_pump_head pow verticalHeightM horizontalDistanceM
      bendsFittingsLossM requiredPressureKgCm2 stpCapacityKld = Ok r
    <->
    exists flowRateSquared : float,
      Libm.float_pow_2 pow flowRateLps = Ok flowRateSquared
      /\ (let flowFrictionLossM := 0.1 * flowRateSquared in
          let totalFrictionLossM := staticFrictionLossM + flowFrictionLossM in
          let totalHeadUnroundedM :=
            verticalHeightM + totalFrictionLossM + bendsFittingsLossM
            + pressureHeadM in
          let totalHeadM := Qceiling (Binary64.to_Q totalHeadUnroundedM) in
          Binary64.finite totalHeadUnroundedM = true
          /\ r = (flowRateLps, flowFrictionLossM, totalFrictionLossM,
                  totalHeadM, pressureHeadM, totalHeadUnroundedM)).
Proof.
  intros pow v h b p c r. cbv zeta.
  rewrite libm_calculate_pump_head_cases.
  split.
  - destruct (Libm.float_pow_2 pow _) as [ sq | ]; [ | discriminate ].
    destruct (Binary64.ceil _) as [ n | ] eqn:En; [ | discriminate ].
    intros H. injection H as <-. exists sq. split; [ reflexivity | ].
    apply ceil_spec in En. destruct En as [F ->]. split; [ exact F | reflexivity ].
  - intros [sq [-> [F ->]]].
    destruct (ceil_finite _ F) as [n En]. rewrite En.
    apply ceil_spec in En. destruct En as [_ ->]. reflexivity.
Qed.

Lemma calculate_pump_head_formulas_witness :
  Libm.calculate_pump_head correctly_rounded_pow 66 109 5 3.5 100
  = Ok (1.1574074074074074, 0.13395919067215364, 11.753959190672155,
        118%Z, 35, 117.75395919067216).
Proof.
  apply (proj2 (calculate_pump_head_formulas correctly_rounded_pow
                  66 109 5 3.5 100
                  (1.1574074074074074, 0.13395919067215364,
                   11.753959190672155, 118%Z, 35, 117.75395919067216))).
  exists 1.3395919067215364.
  split; [ vm_compute; reflexivity | ].
  split; vm_compute; reflexivity.
Defined.

(** C1, as it is worded, fails.  Not every input has a result: on 1e308,
    1e308, 0, 0, 0 the sum of the two lengths is an infinity and the
    calculator raises [OverflowError], whatever the library's [pow].  And a
    result holds rounded values, not the exact ones of the formulas: at the
    capacity 86.4 the calculator returns, whatever the library's [pow], the
    flow rate 1.0, which is not the capacity times 1000 over 86400; and at
    the capacity 100 a returned flow rate is the float 1.1574074074074074,
    which is not the quotient 100 * 1000 / 86400 = 125/108. *)
Lemma calculate_pump_head_rounds_and_overflows :
  (forall pow : float -> float -> float,
     Libm.calculate_pump_head pow 1e308 1e308 0 0 0 = Raise OverflowError)
  /\ (forall pow : float -> float -> float,
        exists r : results float,
          Libm.calculate_pump_head pow 66 109 5 3.5 86.4 = Ok r
          /\ flow_rate_lps r = 1
          /\ ~ (Binary64.to_Q (flow_rate_lps r)
                == Binary64.to_Q 86.4 * 1000 / 86400)%Q)
  /\ (forall (pow : float -> float -> float) (r : results float),
        Libm.calculate_pump_head pow 66 109 5 3.5 100 = Ok r ->
        flow_rate_lps r = 1.1574074074074074
        /\ ~ (Binary64.to_Q (flow_rate_lps r) == 100 * 1000 / 86400)%Q).
Proof.
  split; [ | split ].
  - intros pow. vm_compute. reflexivity.
  - intros pow. eexists. split; [ vm_compute; reflexivity | ].
    cbn [flow_rate_lps]. split; [ reflexivity | ].
    vm_compute. discriminate.
  - intros pow r H. apply libm_returned_head in H.
    destruct H as [sq [_ [-> _]]]. cbn [flow_rate_lps].
    split; [ vm_compute; reflexivity | ].
    vm_compute. discriminate.
Qed.

(** C4, as the code has it.  Whenever the calculator returns, for
    non-negative inputs as for any others, the unrounded total head is a
    finite float and the total head is the ceiling of the number it
    denotes: an integer that is not below it and exceeds it by less than
    one.  The calculator returns exactly when [flow_rate_lps ** 2] returns
    and the unrounded total head is finite. *)
Theorem total_head_is_ceiling :
  forall (pow : float -> float -> float) (v h b p c : float),
    (forall r : results float,
       Libm.calculate_pump_head pow v h b p c = Ok r ->
       Binary64.finite (total_head_unrounded r) = true
       /\ total_head r = Qceiling (Binary64.to_Q (total_head_unrounded r))
       /\ (Binary64.to_Q (total_head_unrounded r) <= inject_Z (total_head r))%Q
       /\ (inject_Z (total_head r) - Binary64.to_Q (total_head_unrounded r) < 1)%Q)
    /\ (returns (Libm.calculate_pump_head pow v h b p c)
        <-> exists flow_rate_squared : float,
              Libm.float_pow_2 pow (c * 1000 / 86400) = Ok flow_rate_squared
              /\ Binary64.finite
                   (v + ((v + h) * 0.083 * 0.8 + 0.1 * flow_rate_squared)
                    + b + p * 10) = true).
Proof.
  intros pow v h b p c. split.
  - intros r H. rewrite libm_calculate_pump_head_cases in H.
    destruct (Libm.float_pow_2 pow _) as [ sq | ]; [ | discriminate ].
    destruct (Binary64.ceil _) as [ n | ] eqn:En; [ | discriminate ].
    injection H as <-. cbn [total_head total_head_unrounded].
    apply ceil_spec in En. destruct En as [F ->].
    split; [ exact F | ]. split; [ reflexivity | apply ceiling_bounds ].
  - rewrite libm_calculate_pump_head_cases. split.
    + intros [r H].
      destruct (Libm.float_pow_2 pow _) as [ sq | ]; [ | discriminate ].
      destruct (Binary64.ceil _) as [ n | ] eqn:En; [ | discriminate ].
      exists sq. split; [ reflexivity | ]. apply (ceil_spec _ _ En).
    + intros [sq [-> F]]. destruct (ceil_finite _ F) as [n ->].
      eexists. reflexivity.
Qed.

Lemma total_head_is_ceiling_witness :
  (inject_Z 118 - Binary64.to_Q 117.75395919067216 < 1)%Q
  /\ returns (Libm.calculate_pump_head correctly_rounded_pow 66 109 5 3.5 100).
Proof.
  split.
  - apply (proj1 (total_head_is_ceiling correctly_rounded_pow 66 109 5 3.5 100)
             (1.1574074074074074, 0.13395919067215364, 11.753959190672155,
              118%Z, 35, 117.75395919067216)).
    vm_compute. reflexivity.
  - apply (proj2 (total_head_is_ceiling correctly_rounded_pow 66 109 5 3.5 100)).
    exists 1.3395919067215364. split; vm_compute; reflexivity.
Defined.

(** C4, as it is worded, fails: 0, 0, 1e308, 1e308, 0 are non-negative
    inputs on which the pressure head [1e308 * 10] is an infinity, so that
    [math.ceil] raises [OverflowError] and there is no total head at all,
    whatever the library's [pow]. *)
Lemma total_head_is_missing_on_large_inputs :
  (0 <=? 1e308) = true
  /\ (forall pow : float -> float -> float,
        Libm.calculate_pump_head pow 0 0 1e308 1e308 0 = Raise OverflowError)
  /\ (forall pow : float -> float -> float,
        ~ returns (Libm.calculate_pump_head pow 0 0 1e308 1e308 0)).
Proof.
  assert (E : forall pow : float -> float -> float,
            Libm.calculate_pump_head pow 0 0 1e308 1e308 0 = Raise OverflowError)
    by (intros pow; vm_compute; reflexivity).
  split; [ reflexivity | ]. split; [ exact E | ].
  intros pow [r Hr]. rewrite E in Hr. discriminate.
Qed.





(** Every outcome of the calculator: the exception of [x ** 2]; or the one
    of [math.ceil], on an unrounded head that is infinite or a NaN; or the
    six values. *)
Lemma libm_calculate_pump_head_outcome (pow : float -> float -> float)
    (v h b p c : float) :
  let flowRateLps := (c * 1000) / 86400 in
  match Libm.float_pow_2 pow flowRateLps with
  | Raise _ =>
      Libm.calculate_pump_head pow v h b p c = Raise OverflowError
  | Ok flowRateSquared =>
      let totalHeadUnroundedM :=
        v + ((v + h) * 0.083 * 0.8 + 0.1 * flowRateSquared) + b + p * 10 in
      match Prim2SF totalHeadUnroundedM with
      | S754_infinity _ =>
          Libm.calculate_pump_head pow v h b p c = Raise OverflowError
      | S754_nan =>
          Libm.calculate_pump_head pow v h b p c = Raise ValueError
      | _ =>
          Libm.calculate_pump_head pow v h b p c
          = Ok (flowRateLps, 0.1 * flowRateSquared,
                (v + h) * 0.083 * 0.8 + 0.1 * flowRateSquared,
                Qceiling (Binary64.to_Q totalHeadUnroundedM),
                p * 10, totalHeadUnroundedM)
      end
  end.
Proof.
  cbv zeta.
  rewrite libm_calculate_pump_head_cases.
  destruct (Libm.float_pow_2 pow _) as [ sq | e ] eqn:Epow.
  - pose proof (ceil_not_finite
                  (v + ((v + h) * 0.083 * 0.8 + 0.1 * sq) + b + p * 10)) as H.
    destruct (Prim2SF (v + ((v + h) * 0.083 * 0.8 + 0.1 * sq) + b + p * 10));
      try (rewrite H; reflexivity);
      destruct (ceil_finite _ H) as [n En]; rewrite En;
      apply ceil_spec in En; destruct En as [_ ->]; reflexivity.
  - apply float_pow_2_raises in Epow. subst e. reflexivity.
Qed.

Lemma libm_calculate_pump_head_raises (pow : float -> float -> float)
    (v h b p c : float) (e : exn) :
  Libm.calculate_pump_head pow v h b p c = Raise e ->
  e = OverflowError \/ e = ValueError.
Proof.
  intros H.
  pose proof (libm_calculate_pump_head_outcome pow v h b p c) as Cases.
  cbv zeta in Cases.
  destruct (Libm.float_pow_2 pow _) as [ sq | e' ].
  - destruct (Prim2SF _); rewrite Cases in H;
      try discriminate; injection H as <-; auto.
  - rewrite Cases in H. injection H as <-. auto.
Qed.

(** C10, as the code has it.  The outcome of the calculator on every
    input, a zero capacity and negative values included: [OverflowError]
    when [flow_rate_lps ** 2] overflows; otherwise [OverflowError] when the
    unrounded total head is an infinity and [ValueError] when it is a NaN,
    both from [math.ceil]; otherwise the six values.  So the calculator
    never raises [ZeroDivisionError], its only divisor being the constant
    86400; at a zero capacity, where [pow] is not called, it returns as
    soon as the unrounded total head is finite; and being a function of
    its five arguments it returns equal results on equal inputs. *)
Theorem calculate_pump_head_total_in_range :
  forall pow : float -> float -> float,
    (forall v h b p c : float,
       let flowRateLps := (c * 1000) / 86400 in
       match Libm.float_pow_2 pow flowRateLps with
       | Raise _ =>
           Libm.calculate_pump_head pow v h b p c = Raise OverflowError
       | Ok flowRateSquared =>
           let totalHeadUnroundedM :=
             v + ((v + h) * 0.083 * 0.8 + 0.1 * flowRateSquared) + b + p * 10 in
           match Prim2SF totalHeadUnroundedM with
           | S754_infinity _ =>
               Libm.calculate_pump_head pow v h b p c = Raise OverflowError
           | S754_nan =>
               Libm.calculate_pump_head pow v h b p c = Raise ValueError
           | _ =>
               Libm.calculate_pump_head pow v h b p c
               = Ok (flowRateLps, 0.1 * flowRateSquared,
                     (v + h) * 0.083 * 0.8 + 0.1 * flowRateSquared,
                     Qceiling (Binary64.to_Q totalHeadUnroundedM),
                     p * 10, totalHeadUnroundedM)
           end
       end)
    /\
    (forall (v h b p c : float) (e : exn),
       Libm.calculate_pump_head pow v h b p c = Raise e ->
       e <> ZeroDivisionError /\ (e = OverflowError \/ e = ValueError))
    /\
    (forall v h b p : float,
       Binary64.finite (v + ((v + h) * 0.083 * 0.8 + 0.1 * 0) + b + p * 10) = true ->
       returns (Libm.calculate_pump_head pow v h b p 0))
    /\
    (forall v h b p c v' h' b' p' c' : float,
       v = v' -> h = h' -> b = b' -> p = p' -> c = c' ->
       Libm.calculate_pump_head pow v h b p c
       = Libm.calculate_pump_head pow v' h' b' p' c').
Proof.
  intros pow.
  split; [ exact (libm_calculate_pump_head_outcome pow) | ].
  split; [ | split ].
  - intros v h b p c e H.
    apply libm_calculate_pump_head_raises in H.
    split; [ | exact H ]. destruct H; subst e; discriminate.
  - intros v h b p F. rewrite libm_calculate_pump_head_cases.
    change (Libm.float_pow_2 pow (0 * 1000 / 86400)) with (@Ok float 0).
    cbv iota beta. destruct (ceil_finite _ F) as [n ->].
    eexists. reflexivity.
  - intros; subst; reflexivity.
Qed.

(** The calculator returns at a zero capacity and at negative values. *)
Lemma calculate_pump_head_total_in_range_witness :
  returns (Libm.calculate_pump_head correctly_rounded_pow 66 109 5 3.5 0)
  /\ returns (Libm.calculate_pump_head correctly_rounded_pow
                (-66) (-109) (-5) (-3.5) (-100)).
Proof.
  split.
  - apply (proj1 (proj2 (proj2 (calculate_pump_head_total_in_range
                                  correctly_rounded_pow))) 66 109 5 3.5).
    vm_compute. reflexivity.
  - pose proof (proj1 (calculate_pump_head_total_in_range correctly_rounded_pow)
                  (-66) (-109) (-5) (-3.5) (-100)) as H.
    cbv zeta in H.
    destruct (Libm.float_pow_2 _ _) as [ sq | e ] eqn:E in H;
      vm_compute in E; [ | discriminate ].
    destruct (Prim2SF _) eqn:E2 in H;
      injection E as <-; vm_compute in E2; try discriminate.
    eexists. exact H.
Defined.

(** C10, as it is worded, fails: on 1.7e308, 0, 0, 0, 0 the calculator
    raises [OverflowError] and on 1.7e308, 0, 0, -1.7e308, 0 it raises
    [ValueError], whatever the library's [pow]; and at the capacity 1e200
    it raises [OverflowError] at [flow_rate_lps ** 2] with every [pow]
    whose value there is an infinity, the correctly rounded square among
    them. *)
Lemma calculate_pump_head_overflows :
  (forall pow : float -> float -> float,
     Libm.calculate_pump_head pow 1.7e308 0 0 0 0 = Raise OverflowError)
  /\ (forall pow : float -> float -> float,
        Libm.calculate_pump_head pow 1.7e308 0 0 (-1.7e308) 0 = Raise ValueError)
  /\ (forall pow : float -> float -> float,
        Prim2SF (pow (1e200 * 1000 / 86400) 2) = S754_infinity false ->
        Libm.calculate_pump_head pow 0 0 0 0 1e200 = Raise OverflowError)
  /\ Libm.calculate_pump_head correctly_rounded_pow 0 0 0 0 1e200
     = Raise OverflowError
  /\ ~ returns (Libm.calculate_pump_head correctly_rounded_pow 0 0 0 0 1e200).
Proof.
  assert (E : Libm.calculate_pump_head correctly_rounded_pow 0 0 0 0 1e200
              = Raise OverflowError)
    by (vm_compute; reflexivity).
  split; [ intros pow; vm_compute; reflexivity | ].
  split; [ intros pow; vm_compute; reflexivity | ].
  split; [ | split; [ exact E | ] ].
  - intros pow H.
    rewrite libm_calculate_pump_head_cases. unfold Libm.float_pow_2.
    remember (1e200 * 1000 / 86400) as flow eqn:Ef.
    assert (P : exists m e, Prim2SF flow = S754_finite false m e)
      by (subst flow; vm_compute; eauto).
    destruct P as [m [e P]]. rewrite P.
    replace (flow <? 0) with false by (subst flow; reflexivity).
    replace (flow =? 1) with false by (subst flow; reflexivity).
    rewrite H. reflexivity.
  - intros [r Hr]. rewrite E in Hr. discriminate.
Qed.

(** The total head as a function of the square and of the four other
    inputs. *)
Lemma libm_head_mono (pow : float -> float -> float)
    (v1 h1 b1 p1 c1 v2 h2 b2 p2 c2 sq1 sq2 : float) (r1 r2 : results float) :
  (v1 <=? v2) = true -> (h1 <=? h2) = true ->
  (b1 <=? b2) = true -> (p1 <=? p2) = true ->
  Libm.calculate_pump_head pow v1 h1 b1 p1 c1 = Ok r1 ->
  Libm.calculate_pump_head pow v2 h2 b2 p2 c2 = Ok r2 ->
  Libm.float_pow_2 pow (c1 * 1000 / 86400) = Ok sq1 ->
  Libm.float_pow_2 pow (c2 * 1000 / 86400) = Ok sq2 ->
  (sq1 <=? sq2) = true ->
  (total_head_unrounded r1 <=? total_head_unrounded r2) = true
  /\ (total_head r1 <= total_head r2)%Z.
Proof.
  intros Hv Hh Hb Hp E1 E2 S1 S2 Hsq.
  apply libm_returned_head in E1, E2.
  destruct E1 as [sq1' [S1' E1]]. rewrite S1 in S1'. injection S1' as <-.
  destruct E2 as [sq2' [S2' E2]]. rewrite S2 in S2'. injection S2' as <-.
  cbv zeta in E1, E2.
  destruct E1 as [R1 [C1 [_ [A1 [A2 [A3 [A4 [A5 [A6 [A7 [A8 [A9 [A10 _]]]]]]]]]]]]].
  destruct E2 as [R2 [C2 [_ [B1 [B2 [B3 [B4 [B5 [B6 [B7 [B8 [B9 [B10 _]]]]]]]]]]]]].
  assert (Hff : (0.1 * sq1 <=? 0.1 * sq2) = true).
  { destruct finite_0_1 as [m [e E]]. apply (const_mul_mono 0.1 m e E). exact Hsq. }
  pose proof (static_friction_mono _ _
                (add_mono _ _ _ _ A5 A10 B5 B10 Hv Hh)) as Hs.
  pose proof (add_mono _ _ _ _ A7 A8 B7 B8 Hs Hff) as Htf.
  pose proof (add_mono _ _ _ _ A5 A6 B5 B6 Hv Htf) as H1.
  pose proof (add_mono _ _ _ _ A3 A4 B3 B4 H1 Hb) as H2.
  pose proof (add_mono _ _ _ _ A1 A2 B1 B2 H2 (pressure_head_mono _ _ Hp)) as H3.
  rewrite R1, R2 at 1. cbn [total_head_unrounded].
  split; [ exact H3 | ].
  exact (ceil_mono _ _ _ _ C1 C2 H3).
Qed.

(** X11.  The required head never decreases when an input grows.  With the
    capacity fixed and each of the four other inputs of the second call at
    least the one of the first, the unrounded and the rounded total head of
    the second call are at least those of the first, whenever both calls
    return and whatever the library's [pow].  The same holds when a
    capacity that is not negative grows as well, provided [x ** 2] does not
    decrease on non-negative floats. *)
Theorem total_head_never_decreases :
  forall pow : float -> float -> float,
    (forall v1 h1 b1 p1 v2 h2 b2 p2 c : float,
       (v1 <=? v2) = true -> (h1 <=? h2) = true ->
       (b1 <=? b2) = true -> (p1 <=? p2) = true ->
       forall r1 r2 : results float,
         Libm.calculate_pump_head pow v1 h1 b1 p1 c = Ok r1 ->
         Libm.calculate_pump_head pow v2 h2 b2 p2 c = Ok r2 ->
         (total_head_unrounded r1 <=? total_head_unrounded r2) = true
         /\ (total_head r1 <= total_head r2)%Z)
    /\ (square_is_monotone pow ->
        forall v1 h1 b1 p1 c1 v2 h2 b2 p2 c2 : float,
          (v1 <=? v2) = true -> (h1 <=? h2) = true ->
          (b1 <=? b2) = true -> (p1 <=? p2) = true ->
          (0 <=? c1) = true -> (c1 <=? c2) = true ->
          forall r1 r2 : results float,
            Libm.calculate_pump_head pow v1 h1 b1 p1 c1 = Ok r1 ->
            Libm.calculate_pump_head pow v2 h2 b2 p2 c2 = Ok r2 ->
            (total_head_unrounded r1 <=? total_head_unrounded r2) = true
            /\ (total_head r1 <= total_head r2)%Z).
Proof.
  intros pow. split.
  - intros v1 h1 b1 p1 v2 h2 b2 p2 c Hv Hh Hb Hp r1 r2 E1 E2.
    destruct (libm_returned_head pow _ _ _ _ _ _ E1) as [sq [S H]].
    cbv zeta in H.
    assert (F : Binary64.finite sq = true) by apply H.
    exact (libm_head_mono pow _ _ _ _ _ _ _ _ _ _ sq sq r1 r2
             Hv Hh Hb Hp E1 E2 S S (leb_refl sq F)).
  - intros Hpow v1 h1 b1 p1 c1 v2 h2 b2 p2 c2 Hv Hh Hb Hp H0 Hc r1 r2 E1 E2.
    destruct (libm_returned_head pow _ _ _ _ _ _ E1) as [sq1 [S1 _]].
    destruct (libm_returned_head pow _ _ _ _ _ _ E2) as [sq2 [S2 _]].
    assert (Hflow : (c1 * 1000 / 86400 <=? c2 * 1000 / 86400) = true)
      by (apply flow_rate_mono; exact Hc).
    assert (Hflow0 : (0 <=? c1 * 1000 / 86400) = true).
    { rewrite <- flow_of_zero at 1. apply flow_rate_mono. exact H0. }
    exact (libm_head_mono pow _ _ _ _ _ _ _ _ _ _ sq1 sq2 r1 r2
             Hv Hh Hb Hp E1 E2 S1 S2 (Hpow _ _ _ _ Hflow0 Hflow S1 S2)).
Qed.

Lemma total_head_never_decreases_witness :
  exists r1 r2 : results float,
    Libm.calculate_pump_head correctly_rounded_pow 66 109 5 3.5 100 = Ok r1
    /\ Libm.calculate_pump_head correctly_rounded_pow 66.5 109 5 3.5 200 = Ok r2
    /\ (total_head_unrounded r1 <=? total_head_unrounded r2) = true
    /\ (total_head r1 <= total_head r2)%Z.
Proof.
  eexists. eexists.
  split; [ vm_compute; reflexivity | ].
  split; [ vm_compute; reflexivity | ].
  apply (proj2 (total_head_never_decreases correctly_rounded_pow)
           correctly_rounded_square_is_monotone
           66 109 5 3.5 100 66.5 109 5 3.5 200);
    vm_compute; reflexivity.
Defined.

End CalculatorOutcomes.

(** ** The handler of the button *)

Section Handler.

Local Open Scope float_scope.

Variable pow : float -> float -> float.

Lemma empty_filter_iff (df : DataFrame) (t : Z) :
  empty (filter (meets_b t) df) = true
  <-> forall p, In p df -> ~ meets t p.
Proof.
  split.
  - intros He p Hin Hm. apply meets_b_iff in Hm.
    assert (Hf : In p (filter (meets_b t) df))
      by (apply filter_In; auto).
    destruct (filter (meets_b t) df); [ exact Hf | discriminate ].
  - intros Hno.
    destruct (filter (meets_b t) df) as [ | p s ] eqn:Ef;
      [ reflexivity | exfalso ].
    assert (Hf : In p (filter (meets_b t) df))
      by (rewrite Ef; left; reflexivity).
    apply filter_In in Hf. destruct Hf as [Hin Hm].
    apply (Hno p Hin). apply meets_b_iff. exact Hm.
Qed.

(** After the calculator has returned [r], the handler goes on with the
    matcher. *)
Lemma libm_on_click_after_calculation (df : DataFrame)
    (v h b p c : float) (r : results float) :
  df <> [] ->
  Libm.calculate_pump_head pow v h b p c = Ok r ->
  Libm.on_click pow df v h b p c
  = st_success (total_head r)
    :: match suitable_pumps df (total_head r) with
       | Raise e => [uncaught e]
       | Ok suitable =>
           [ if empty suitable
             then st_warning "⚠️ No suitable pumps found for the calculated total head."
             else st_dataframe (recommended_display suitable) ]
       end.
Proof.
  intros Hd Hr. unfold Libm.on_click.
  destruct df as [ | x df ]; [ congruence | ].
  cbn [empty]. rewrite Hr. reflexivity.
Qed.

(** X9.  The handler from the call of the calculator to the table (lines
    84 to 103), on a catalogue that is not empty and whose minimum heads
    are numbers or missing values.  An exception of the calculator is not
    caught and nothing is written.  After the calculator has returned, the
    page gets the success message with the total head, then either the
    warning or the table.  The warning is written exactly when no pump of
    the catalogue has a minimum head that reaches the total head; a table
    that is written is not empty and holds the display columns of the
    suitable pumps. *)
Theorem table_or_warning (df : DataFrame) (v h b p c : float) :
  df <> [] ->
  Forall (fun x => numeric (Min_Head_m x)) df ->
  (forall e : exn,
     Libm.calculate_pump_head pow v h b p c = Raise e ->
     Libm.on_click pow df v h b p c = [uncaught e])
  /\ (forall r : results float,
        Libm.calculate_pump_head pow v h b p c = Ok r ->
        let suitable := filter (meets_b (total_head r)) df in
        Libm.on_click pow df v h b p c
        = [ st_success (total_head r);
            if empty suitable
            then st_warning "⚠️ No suitable pumps found for the calculated total head."
            else st_dataframe (recommended_display suitable) ]
        /\ ((exists msg, In (st_warning msg) (Libm.on_click pow df v h b p c))
            <-> forall x, In x df -> ~ meets (total_head r) x)
        /\ (forall table,
              In (st_dataframe table) (Libm.on_click pow df v h b p c) ->
              table <> [] /\ table = recommended_display suitable)).
Proof.
  intros Hd Hn. split.
  - intros e He. unfold Libm.on_click.
    destruct df as [ | x df' ]; [ congruence | ].
    cbn [empty]. rewrite He. reflexivity.
  - intros r Hr suitable.
    pose proof (libm_on_click_after_calculation df v h b p c r Hd Hr) as Es.
    destruct (suitable_pumps_cases df (total_head r)) as [[_ F] | [Hx _]];
      [ | exfalso; exact (numeric_or_text df Hn Hx) ].
    rewrite F in Es. fold suitable in Es.
    split; [ exact Es | ]. rewrite Es.
    pose proof (empty_filter_iff df (total_head r)) as Hempty.
    fold suitable in Hempty.
    split.
    + rewrite <- Hempty. destruct (empty suitable); split.
      * reflexivity.
      * intros _. eexists. right. left. reflexivity.
      * intros [msg H]. simpl in H.
        repeat (destruct H as [H | H]; [ discriminate | ]). destruct H.
      * discriminate.
    + intros table H. destruct (empty suitable) eqn:Ee; simpl in H;
        destruct H as [H | [H | []]]; try discriminate.
      injection H as <-. split; [ | reflexivity ].
      destruct suitable; [ discriminate | discriminate ].
Qed.

(** X10.  A head field that is text without an opening bracket is loaded
    as it is and ends the run: the file loads without a message, and once
    the calculator has returned the handler writes the success message and
    the comparison of the column with the total head raises [TypeError],
    which nothing catches.  Neither the table nor the warning is written. *)
Theorem text_head_field_ends_the_run (rows : list csv_row)
    (v h b p c : float) (r : results float) :
  Forall (fun row => returns (min_head (csv_Head_m row))) rows ->
  Exists (fun row => exists s, csv_Head_m row = Str s
                               /\ startswith s "[" = false) rows ->
  Libm.calculate_pump_head pow v h b p c = Ok r ->
  exists pump_data : DataFrame,
    load_pump_data (Table rows) = (Ok pump_data, [])
    /\ Libm.on_click pow pump_data v h b p c
       = [ st_success (total_head r); uncaught TypeError ].
Proof.
  intros Hok Htext Hr.
  destruct (add_min_head_succeeds rows Hok) as [df E].
  exists df.
  assert (Hl : load_pump_data (Table rows) = (Ok df, [])).
  { unfold load_pump_data. simpl. rewrite E. reflexivity. }
  destruct (add_min_head_rows rows df E) as [Hd Hm].
  assert (Hx : Exists (fun x => ~ numeric (Min_Head_m x)) df).
  { clear - Hm Htext. induction Hm as [ | row x rows df Hp _ IH ].
    - inversion Htext.
    - inversion Htext as [ ? ? [s [Hs Hb]] | ? ? Ht ]; subst.
      + apply Exists_cons_hd. rewrite Hs in Hp. unfold min_head in Hp.
        rewrite Hb in Hp. injection Hp as <-. intros F. exact F.
      + apply Exists_cons_tl. exact (IH Ht). }
  assert (Hne : df <> []) by (intros ->; inversion Hx).
  split; [ exact Hl | ].
  rewrite (libm_on_click_after_calculation df v h b p c r Hne Hr).
  destruct (suitable_pumps_cases df (total_head r)) as [[Hn _] | [_ F]].
  - exfalso. exact (numeric_or_text df Hn Hx).
  - rewrite F. reflexivity.
Qed.

End Handler.

Lemma table_or_warning_witness :
  Libm.on_click correctly_rounded_pow
    [sample_pump "P-150" (Str "[150, 180]") (Num 150);
     sample_pump "P-040" (Str "[40, 60]") (Num 40)]
    66 109 5 3.5 100
  = [ st_success 118; st_dataframe [sample_row "P-150" "[150, 180]"] ].
Proof.
  apply (proj1 (proj2 (table_or_warning correctly_rounded_pow
                         [sample_pump "P-150" (Str "[150, 180]") (Num 150);
                          sample_pump "P-040" (Str "[40, 60]") (Num 40)]
                         66 109 5 3.5 100
                         ltac:(discriminate) ltac:(repeat constructor))
                  (1.1574074074074074, 0.13395919067215364, 11.753959190672155,
                   118%Z, 35, 117.75395919067216)%float
                  ltac:(vm_compute; reflexivity))).
Defined.

Lemma text_head_field_ends_the_run_witness :
  exists pump_data : DataFrame,
    load_pump_data (Table [sample_row "P-150" "[150, 180]";
                           sample_row "P-040" "40"])
    = (Ok pump_data, [])
    /\ Libm.on_click correctly_rounded_pow pump_data 66 109 5 3.5 100
       = [ st_success 118; uncaught TypeError ].
Proof.
  apply (text_head_field_ends_the_run correctly_rounded_pow
           [sample_row "P-150" "[150, 180]"; sample_row "P-040" "40"]
           66 109 5 3.5 100
           (1.1574074074074074, 0.13395919067215364, 11.753959190672155,
            118%Z, 35, 117.75395919067216)%float
           ltac:(repeat constructor; eexists; reflexivity)
           ltac:(apply Exists_cons_tl, Exists_cons_hd;
                 exists "40"; split; reflexivity)
           ltac:(vm_compute; reflexivity)).
Defined.
